(** * cordbun REST core: bucket tracker, route keys, option validation, dispatcher

    A shallow embedding of [src/rest/bucket.ts] (the bucket manager and
    [getRouteKey]) and of [src/rest/client.ts] ([validateOptions],
    [createRest], [buildHeaders], [request]) together with the error classes
    of [src/rest/types.ts], followed by the snowflake utilities of
    [src/utils/snowflake.ts] and the avatar index of [src/utils/cdn.ts].

    Conventions.
    - JavaScript numbers that hold instants (milliseconds since the epoch),
      quotas, counts and durations are represented by integers ([Z]).  Only
      the option validator looks at numbers that may fail to be integers, so
      it has its own number type ([JsNumber], with NaN and the infinities).
    - A [Map<string, V>] is a [gmap string V].
    - [Date.now()] is an explicit argument ([now]) of the pure queries and a
      field of the world in the dispatcher. *)

From Stdlib Require Import ZArith String Ascii List Bool Lia QArith.
From Stdlib Require Import DecimalString DecimalZ.
From stdpp Require Import base option gmap strings.

Local Open Scope string_scope.
Local Open Scope list_scope.
Local Open Scope Z_scope.

(** ** JavaScript idioms used by the source *)

(** [a ?? b]: the right operand is used only when the left one is [null] or
    [undefined]. *)
Definition nullish {A : Type} (a : option A) (b : A) : A :=
  match a with
  | Some x => x
  | None => b
  end.

(** Truthiness of a string: every string but the empty one. *)
Definition truthy (s : string) : bool :=
  match s with
  | EmptyString => false
  | String _ _ => true
  end.

(** ** Bucket manager ([createBucketManager]) *)

(** A pending "settle" promise is identified by a handle. *)
Definition Promise := nat.

Module RateLimitData.
Record t : Type := mk {
  limit : Z;
  remaining : Z;
  reset : Z;
  resetAfter : Z;
  bucket : string;
  global : bool;
  scope : option string;
}.
End RateLimitData.

Module RateLimitBucket.
Record t : Type := mk {
  limit : Z;
  remaining : Z;
  reset : Z;
  processing : option Promise;
}.
End RateLimitBucket.

(** The three variables closed over by [createBucketManager]. *)
Record BucketManager : Type := mkBucketManager {
  buckets : gmap string RateLimitBucket.t;
  bucketKeys : gmap string string;
  globalReset : Z;
}.

Definition createBucketManager : BucketManager :=
  {| buckets := ∅; bucketKeys := ∅; globalReset := 0 |}.

Definition get (key : string) (m : BucketManager) : option RateLimitBucket.t :=
  let bucketKey := nullish (bucketKeys m !! key) key in
  buckets m !! bucketKey.

Definition set (key : string) (b : RateLimitBucket.t) (m : BucketManager)
  : BucketManager :=
  {| buckets := <[key := b]> (buckets m);
     bucketKeys := bucketKeys m;
     globalReset := globalReset m |}.

(** [data.bucket] is a string, hence never nullish: [data.bucket ?? key] is
    [data.bucket] even when that string is empty, while the guard before it
    tests truthiness. *)
Definition update (key : string) (data : RateLimitData.t) (m : BucketManager)
  : BucketManager :=
  let bucketKeys' :=
    if truthy (RateLimitData.bucket data)
    then <[key := RateLimitData.bucket data]> (bucketKeys m)
    else bucketKeys m in
  let bucketKey := nullish (Some (RateLimitData.bucket data)) key in
  let existing := buckets m !! bucketKey in
  {| buckets :=
       <[bucketKey :=
           {| RateLimitBucket.limit := RateLimitData.limit data;
              RateLimitBucket.remaining := RateLimitData.remaining data;
              RateLimitBucket.reset := RateLimitData.reset data * 1000;
              RateLimitBucket.processing :=
                nullish (RateLimitBucket.processing <$> existing) None |}]>
       (buckets m);
     bucketKeys := bucketKeys';
     globalReset := globalReset m |}.

Definition getDelay (now : Z) (key : string) (m : BucketManager) : Z :=
  if globalReset m >? now then globalReset m - now
  else
    match get key m with
    | None => 0
    | Some b =>
        if (RateLimitBucket.remaining b <=? 0) && (RateLimitBucket.reset b >? now)
        then RateLimitBucket.reset b - now
        else 0
    end.

Definition isLimited (now : Z) (key : string) (m : BucketManager) : bool :=
  getDelay now key m >? 0.

Definition setGlobalReset (reset : Z) (m : BucketManager) : BucketManager :=
  {| buckets := buckets m;
     bucketKeys := bucketKeys m;
     globalReset := reset |}.

(** No bucket of the manager carries a pending settle promise. *)
Definition idle (m : BucketManager) : Prop :=
  forall k b, buckets m !! k = Some b -> RateLimitBucket.processing b = None.

(** The bucket [update] writes for a snapshot, next to a given settle
    promise. *)
Definition written (data : RateLimitData.t) (processing : option Promise)
  : RateLimitBucket.t :=
  {| RateLimitBucket.limit := RateLimitData.limit data;
     RateLimitBucket.remaining := RateLimitData.remaining data;
     RateLimitBucket.reset := RateLimitData.reset data * 1000;
     RateLimitBucket.processing := processing |}.

(** ** Route key derivation ([getRouteKey]) *)

(** [\d]: an ASCII decimal digit. *)
Definition isDigit (c : ascii) : bool :=
  let n := nat_of_ascii c in
  (48 <=? n)%nat && (n <=? 57)%nat.

Definition isSlash (c : ascii) : bool := Ascii.eqb c "/"%char.

(** [\d+] read greedily at the head of a string: the digits consumed. *)
Fixpoint takeDigits (s : string) : string :=
  match s with
  | EmptyString => EmptyString
  | String c rest => if isDigit c then String c (takeDigits rest) else EmptyString
  end.

Definition startsWithDigit (s : string) : bool :=
  match s with
  | EmptyString => false
  | String c _ => isDigit c
  end.

(** The remainder of [s] after the literal [p], when [s] starts with [p]. *)
Fixpoint stripPrefix (p s : string) : option string :=
  match p, s with
  | EmptyString, _ => Some s
  | String a p', String b s' => if Ascii.eqb a b then stripPrefix p' s' else None
  | String _ _, EmptyString => None
  end.

(** The alternation [(channels|guilds|webhooks)], tried in this order. *)
Definition majorRoots : list string := ["channels"; "guilds"; "webhooks"].

(** One alternative of [/\/(channels|guilds|webhooks)\/(\d+)/] anchored at the
    head of [s]: capture groups 1 and 2. *)
Definition matchRootAt (root s : string) : option (string * string) :=
  match stripPrefix (String "/" root +:+ "/") s with
  | Some rest =>
      if startsWithDigit rest then Some (root, takeDigits rest) else None
  | None => None
  end.

Fixpoint matchAnyRootAt (roots : list string) (s : string)
  : option (string * string) :=
  match roots with
  | [] => None
  | root :: roots' =>
      match matchRootAt root s with
      | Some g => Some g
      | None => matchAnyRootAt roots' s
      end
  end.

(** [route.match(/\/(channels|guilds|webhooks)\/(\d+)/)]: the leftmost match,
    as its capture groups [(m[1], m[2])]. *)
Fixpoint majorParams (route : string) : option (string * string) :=
  match matchAnyRootAt majorRoots route with
  | Some g => Some g
  | None =>
      match route with
      | EmptyString => None
      | String _ rest => majorParams rest
      end
  end.

(** [route.replace(/\/\d+/g, "/:id")].  [inId] holds while the digits of a
    match that started at an earlier slash are being consumed. *)
Fixpoint replaceIds (inId : bool) (route : string) : string :=
  match route with
  | EmptyString => EmptyString
  | String c rest =>
      if inId && isDigit c then replaceIds true rest
      else if isSlash c && startsWithDigit rest
           then "/:id" +:+ replaceIds true rest
           else String c (replaceIds false rest)
  end.

Definition getRouteKey (method route : string) : string :=
  let majorId := nullish (snd <$> majorParams route) "" in
  let routeWithoutIds := replaceIds false route in
  method +:+ ":" +:+ routeWithoutIds +:+ ":" +:+ majorId.

(** *** Shapes of routes, for stating properties of [getRouteKey] *)

Fixpoint allDigits (s : string) : bool :=
  match s with
  | EmptyString => true
  | String c rest => isDigit c && allDigits rest
  end.

(** A purely numeric path segment: one digit at least, digits only. *)
Definition isNumeric (s : string) : bool := startsWithDigit s && allDigits s.

(** What follows a complete path segment: nothing, or the next slash. *)
Definition segmentEnds (post : string) : bool :=
  match post with
  | EmptyString => true
  | String c _ => isSlash c
  end.

Fixpoint noSlash (s : string) : bool :=
  match s with
  | EmptyString => true
  | String c rest => negb (isSlash c) && noSlash rest
  end.

(** [s] is a slash and one of the major roots, as in ["/guilds"]. *)
Definition isSlashRoot (s : string) : bool :=
  existsb (fun root => String.eqb s (String "/" root)) majorRoots.

(** [s] ends with a slash and one of the major roots. *)
Fixpoint endsWithRoot (s : string) : bool :=
  isSlashRoot s ||
  match s with
  | EmptyString => false
  | String _ rest => endsWithRoot rest
  end.

(** The major identifier folded into the key: [majorParams?.[2] ?? ""]. *)
Definition majorIdOf (route : string) : string :=
  nullish (snd <$> majorParams route) "".

Definition isColon (c : ascii) : bool := Ascii.eqb c ":"%char.

Fixpoint hasColon (s : string) : bool :=
  match s with
  | EmptyString => false
  | String c rest => isColon c || hasColon rest
  end.

(** What follows the last colon of a string (the string itself when it has
    no colon). *)
Fixpoint lastField (s : string) : string :=
  match s with
  | EmptyString => EmptyString
  | String c rest =>
      if hasColon rest then lastField rest
      else if isColon c then rest else s
  end.

(** The segment that follows the prefix [pre] of a route is not the major
    identifier: a major identifier was already found in [pre], or [pre] does
    not end with a major root. *)
Definition nonMajorAfter (pre : string) : Prop :=
  majorParams pre <> None \/ endsWithRoot pre = false.

(** ** Errors ([src/rest/types.ts]) *)

(** The option a [TypeError] of [validateOptions] complains about; the
    message text itself is not modelled. *)
Inductive InvalidOption : Type :=
| InvalidAuthType
| InvalidVersion
| InvalidRetries
| InvalidTimeout
| InvalidUserAgent.

(** [ApiErrorResponse["errors"]]: a tree whose leaves list [(code, message)]
    details under [_errors]. *)
#[warnings="-register-all"]
Inductive ApiErrorField : Type :=
| ApiFieldError (_errors : list (string * string))
| ApiNestedErrors (fields : list (string * ApiErrorField)).

(** The [TypeError] of a [Headers] object that refuses a name or a value. *)
Inductive HeaderError : Type :=
| InvalidHeaderName (name : string)
| InvalidHeaderValue (value : string).

(** The values the dispatcher can throw.  [AbortError] is the rejection of a
    [fetch] whose signal was aborted, [SyntaxError] the rejection of
    [response.json()] on a body that is not JSON and [HeadersTypeError] the
    [TypeError] of a [Headers] object; the other constructors are the
    classes of [types.ts] and the [TypeError] of [validateOptions]. *)
Inductive Exn : Type :=
| RateLimitError (retryAfter : Z) (global : bool) (scope : option string)
| RestError (status code : Z) (message : string)
            (errors : option ApiErrorField)
            (rateLimit : option RateLimitData.t)
| CloudflareError (status : Z)
| FileTooLargeError (fileName : string) (size maxSize : Z)
| TimeoutError (timeout : Z)
| TypeError (what : InvalidOption)
| HeadersTypeError (what : HeaderError)
| AbortError
| SyntaxError.

(** ** Client options ([validateOptions], [createRest]) *)

(** A JavaScript number as the validator sees it. *)
Inductive JsNumber : Type :=
| NaN
| PosInfinity
| NegInfinity
| Finite (q : Q).

(** A JavaScript value as the validator sees it: a number, a string, or
    anything else ([null], a boolean, an object, ...). *)
Inductive JsValue : Type :=
| JsNum (n : JsNumber)
| JsStr (s : string)
| JsOther.

(** [typeof v === "number"] and [typeof v === "string"]. *)
Definition isNumber (v : JsValue) : bool :=
  match v with JsNum _ => true | _ => false end.

Definition isString (v : JsValue) : bool :=
  match v with JsStr _ => true | _ => false end.

(** [Number.isInteger(v)]. *)
Definition Number_isInteger (v : JsValue) : bool :=
  match v with
  | JsNum (Finite q) => (Qnum q mod Zpos (Qden q) =? 0)%Z
  | _ => false
  end.

(** [v < k] and [v <= k] for a value that is a number and an integer
    literal [k]; every comparison with NaN is false. *)
Definition ltInt (v : JsValue) (k : Z) : bool :=
  match v with
  | JsNum (Finite q) => negb (Qle_bool (inject_Z k) q)
  | JsNum NegInfinity => true
  | _ => false
  end.

Definition leInt (v : JsValue) (k : Z) : bool :=
  match v with
  | JsNum (Finite q) => Qle_bool q (inject_Z k)
  | JsNum NegInfinity => true
  | _ => false
  end.

(** [v === k] for an integer literal [k]. *)
Definition isInt (v : JsValue) (k : Z) : bool :=
  match v with
  | JsNum (Finite q) => Qeq_bool q (inject_Z k)
  | _ => false
  end.

(** [Object.values(ApiVersion).filter((v) => typeof v === "number")]. *)
Definition VALID_API_VERSIONS : list Z := [6; 7; 8; 9; 10]%Z.

Definition VALID_AUTH_TYPES : list string := ["Bot"; "Bearer"].

(** [Array.prototype.includes] on the two constant arrays. *)
Definition includesVersion (v : JsValue) : bool :=
  existsb (isInt v) VALID_API_VERSIONS.

Definition includesAuthType (v : JsValue) : bool :=
  match v with
  | JsStr s => existsb (String.eqb s) VALID_AUTH_TYPES
  | _ => false
  end.

(** White space removed by [String.prototype.trim], among byte-sized code
    units: TAB, LF, VT, FF, CR, SPACE and NBSP. *)
Definition isWhiteSpace (c : ascii) : bool :=
  let n := nat_of_ascii c in
  ((9 <=? n)%nat && (n <=? 13)%nat) || (n =? 32)%nat || (n =? 160)%nat.

Fixpoint trimStart (s : string) : string :=
  match s with
  | EmptyString => EmptyString
  | String c rest => if isWhiteSpace c then trimStart rest else s
  end.

Fixpoint trimEnd (s : string) : string :=
  match s with
  | EmptyString => EmptyString
  | String c rest =>
      match trimEnd rest with
      | EmptyString => if isWhiteSpace c then EmptyString else String c EmptyString
      | rest' => String c rest'
      end
  end.

Definition trim (s : string) : string := trimEnd (trimStart s).

(** The options object; [None] is a property that is absent. *)
Record RestOptions : Type := mkRestOptions {
  authType : option JsValue;
  version : option JsValue;
  userAgent : option JsValue;
  retries : option JsValue;
  timeout : option JsValue;
}.

Definition badAuthType (v : JsValue) : bool := negb (includesAuthType v).

Definition badVersion (v : JsValue) : bool :=
  negb (Number_isInteger v) || negb (includesVersion v).

Definition badRetries (v : JsValue) : bool :=
  negb (Number_isInteger v) || ltInt v 0.

Definition badTimeout (v : JsValue) : bool :=
  negb (isNumber v) || leInt v 0.

Definition badUserAgent (v : JsValue) : bool :=
  match v with
  | JsStr s => String.eqb (trim s) ""
  | _ => true
  end.

(** A check of [validateOptions] on one property: skipped when the property
    is [undefined]. *)
Definition rejects (bad : JsValue -> bool) (o : option JsValue) : bool :=
  match o with
  | Some v => bad v
  | None => false
  end.

(** [validateOptions]: [Some e] when it throws [e], [None] when it returns. *)
Definition validateOptions (options : RestOptions) : option Exn :=
  if rejects badAuthType (authType options) then Some (TypeError InvalidAuthType)
  else if rejects badVersion (version options) then Some (TypeError InvalidVersion)
  else if rejects badRetries (retries options) then Some (TypeError InvalidRetries)
  else if rejects badTimeout (timeout options) then Some (TypeError InvalidTimeout)
  else if rejects badUserAgent (userAgent options) then Some (TypeError InvalidUserAgent)
  else None.

(** The merged configuration [{ ...DEFAULT_OPTIONS, ...options }]. *)
Module Config.
Record t : Type := mk {
  authType : JsValue;
  version : JsValue;
  retries : JsValue;
  timeout : JsValue;
  userAgent : option JsValue;
}.
End Config.

Definition jsInt (k : Z) : JsValue := JsNum (Finite (inject_Z k)).

(** [DEFAULT_OPTIONS] has no [userAgent]. *)
Definition DEFAULT_OPTIONS : Config.t :=
  {| Config.authType := JsStr "Bot";
     Config.version := jsInt 10;
     Config.retries := jsInt 3;
     Config.timeout := jsInt 15000;
     Config.userAgent := None |}.

Definition mergeOptions (defaults : Config.t) (options : RestOptions) : Config.t :=
  {| Config.authType := nullish (authType options) (Config.authType defaults);
     Config.version := nullish (version options) (Config.version defaults);
     Config.retries := nullish (retries options) (Config.retries defaults);
     Config.timeout := nullish (timeout options) (Config.timeout defaults);
     Config.userAgent :=
       match userAgent options with
       | Some v => Some v
       | None => Config.userAgent defaults
       end |}.

(** The state a client closes over right after construction. *)
Record Rest : Type := mkRest {
  config : Config.t;
  currentToken : string;
  restBuckets : BucketManager;
}.

(** [createRest]: validation comes first and its error leaves the function;
    nothing else happens at construction. *)
Definition createRest (token : string) (options : RestOptions) : Exn + Rest :=
  match validateOptions options with
  | Some e => inl e
  | None =>
      inr {| config := mergeOptions DEFAULT_OPTIONS options;
             currentToken := token;
             restBuckets := createBucketManager |}
  end.

(** *** Well-formed option values, in the words of the specification *)

(** One of the two authentication schemes. *)
Definition validAuthType (v : JsValue) : Prop :=
  v = JsStr "Bot" \/ v = JsStr "Bearer".

(** A member of the enumerated set of API versions. *)
Definition validVersion (v : JsValue) : Prop :=
  exists q k, v = JsNum (Finite q) /\ In k VALID_API_VERSIONS /\
              (q == inject_Z k)%Q.

(** A non-negative integer. *)
Definition validRetries (v : JsValue) : Prop :=
  exists q k, v = JsNum (Finite q) /\ (q == inject_Z k)%Q /\ 0 <= k.

(** A positive number. *)
Definition validTimeout (v : JsValue) : Prop :=
  (exists q, v = JsNum (Finite q) /\ (0 < q)%Q) \/ v = JsNum PosInfinity.

(** A string with something else than white space in it. *)
Definition validUserAgent (v : JsValue) : Prop :=
  exists s, v = JsStr s /\ trim s <> "".

(** A property that is present with a value that is not well formed. *)
Definition invalidField (valid : JsValue -> Prop) (o : option JsValue) : Prop :=
  exists v, o = Some v /\ ~ valid v.

(** Malformed options as the specification lists them: a bad authentication
    scheme, a bad version, bad retries or a bad timeout. *)
Definition listedMalformed (options : RestOptions) : Prop :=
  invalidField validAuthType (authType options) \/
  invalidField validVersion (version options) \/
  invalidField validRetries (retries options) \/
  invalidField validTimeout (timeout options).

(** ** Dispatcher ([request] of [createRest]) *)

(** The rate-limit headers of a response.  A numeric header is given by the
    number [Number(...)] makes of it; [None] is a header that is missing
    (for [X-RateLimit-Limit]: missing or empty, the two cases the source
    does not tell apart). *)
Module Headers.
Record t : Type := mk {
  X_RateLimit_Limit : option Z;
  X_RateLimit_Remaining : option Z;
  X_RateLimit_Reset : option Z;
  X_RateLimit_Reset_After : option Z;
  X_RateLimit_Bucket : option string;
  X_RateLimit_Global : option string;
  X_RateLimit_Scope : option string;
}.
End Headers.

(** A parsed JSON body, as the properties the dispatcher reads through its
    casts to [RateLimitResponse] and [ApiErrorResponse]. *)
Module Json.
Record t : Type := mk {
  message : string;
  retry_after : Z;
  global : bool;
  code : Z;
  errors : option ApiErrorField;
}.
End Json.

(** A response; [json = None] is a body on which [response.json()] rejects. *)
Module Response.
Record t : Type := mk {
  status : Z;
  headers : Headers.t;
  json : option Json.t;
}.

(** [response.ok]. *)
Definition ok (r : t) : bool := (200 <=? status r) && (status r <=? 299).
End Response.

Module RestResponse.
Record t : Type := mk {
  data : option Json.t;
  status : Z;
  headers : Headers.t;
  rateLimit : option RateLimitData.t;
}.
End RestResponse.

Module FileData.
Record t : Type := mk {
  name : string;
  data : string;
  contentType : option string;
}.

(** The byte length of the content. *)
Definition size (f : t) : Z := Z.of_nat (String.length (data f)).
End FileData.

(** [BodyValue]: a string, or an object given by its JSON text. *)
Inductive BodyValue : Type :=
| BodyText (s : string)
| BodyObject (jsonText : string).

Definition truthyBody (b : BodyValue) : bool :=
  match b with
  | BodyText s => truthy s
  | BodyObject _ => true
  end.

Module RequestOptions.
Record t : Type := mk {
  body : option BodyValue;
  files : option (list FileData.t);
  query : option (list (string * option string));
  reason : option string;
  auth : option bool;
  headers : option (list (string * string));
}.
End RequestOptions.

Module FileAttachment.
Record t : Type := mk {
  index : nat;
  name : string;
  data : string;
  contentType : option string;
}.
End FileAttachment.

(** What [buildBody] hands to [fetch]: [JSON.stringify(body)] or the form
    data of [buildMultipartBody(payload, files)]. *)
Inductive FetchBody : Type :=
| JsonText (body : BodyValue)
| FormData (payload : BodyValue) (files : list FileAttachment.t).

(** What the remote end does with the n-th transfer: it answers after some
    milliseconds, or not at all. *)
Inductive ServerReply : Type :=
| Replies (after : Z) (response : Response.t)
| Silent.

(** The validated configuration the dispatcher reads ([config.retries] is a
    non-negative integer once [validateOptions] has passed), the size
    ceiling of attachments, the remote end, and the client the call is made
    on: [buildHeaders] reads the authentication scheme, the user agent and
    the current token from it.  Nothing calls [setToken] while a call is
    running. *)
Module Env.
Record t : Type := mk {
  retries : nat;
  timeout : Z;
  maxSize : Z;
  server : nat -> ServerReply;
  client : Rest;
}.
End Env.

(** The call site of a [Bun.sleep]. *)
Inductive SleepSite : Type :=
| AcquireDelay
| RetryAfter
| Backoff.

Inductive Event : Type :=
| Slept (site : SleepSite) (ms : Z)
| Fetched (method route : string) (body : option FetchBody).

(** The state a call runs in: the client's bucket manager, the wall clock,
    the number of transfers started so far and the chronological record of
    sleeps and transfers. *)
Record World : Type := mkWorld {
  manager : BucketManager;
  clock : Z;
  fetched : nat;
  log : list Event;
}.

(** How an asynchronous computation ends: its promise is fulfilled, it is
    rejected, it never settles, or the evaluation ran out of fuel. *)
Inductive Completion (A : Type) : Type :=
| Returned (a : A)
| Threw (e : Exn)
| Pending
| OutOfFuel.

Arguments Returned {A} a.
Arguments Threw {A} e.
Arguments Pending {A}.
Arguments OutOfFuel {A}.

Definition Async (A : Type) : Type := World -> Completion A * World.

Definition ret {A : Type} (a : A) : Async A := fun w => (Returned a, w).

Definition throw {A : Type} (e : Exn) : Async A := fun w => (Threw e, w).

Definition bind {A B : Type} (c : Async A) (k : A -> Async B) : Async B :=
  fun w =>
    match c w with
    | (Returned a, w') => k a w'
    | (Threw e, w') => (Threw e, w')
    | (Pending, w') => (Pending, w')
    | (OutOfFuel, w') => (OutOfFuel, w')
    end.

(** [try { body } catch (error) { handler }]. *)
Definition tryCatch {A : Type} (body : Async A) (handler : Exn -> Async A)
  : Async A :=
  fun w =>
    match body w with
    | (Threw e, w') => handler e w'
    | r => r
    end.

Declare Scope async_scope.
Delimit Scope async_scope with async.

Notation "'let*' x ':=' c1 'in' c2" := (bind c1 (fun x => c2))
  (at level 10, x name, c1 at level 100, c2 at level 200) : async_scope.

Notation "c1 '>>' c2" := (bind c1 (fun _ => c2))
  (at level 100, c2 at level 200, right associativity) : async_scope.

(** Lifting a synchronous result or exception. *)
Definition liftSum {A : Type} (r : Exn + A) : Async A :=
  match r with
  | inl e => throw e
  | inr a => ret a
  end.

Definition dateNow : Async Z := fun w => (Returned (clock w), w).

Definition withManager {A : Type} (f : BucketManager -> A) : Async A :=
  fun w => (Returned (f (manager w)), w).

Definition modifyManager (f : BucketManager -> BucketManager) : Async unit :=
  fun w =>
    (Returned tt,
     {| manager := f (manager w); clock := clock w;
        fetched := fetched w; log := log w |}).

(** [await Bun.sleep(ms)]: the clock moves on by [ms] (not at all when [ms]
    is negative). *)
Definition sleep (site : SleepSite) (ms : Z) : Async unit :=
  fun w =>
    (Returned tt,
     {| manager := manager w; clock := clock w + Z.max 0 ms;
        fetched := fetched w; log := log w ++ [Slept site ms] |}).

Local Open Scope async_scope.

(** [acquire].  After the delay, a bucket with a pending settle promise makes
    the caller await it and start over; nothing in this client ever stores
    such a promise or clears one, so for a call running on its own that wait
    has no end: the promise of [acquire] stays pending. *)
Definition acquire (key : string) : Async unit :=
  let* now := dateNow in
  let* delay := withManager (getDelay now key) in
  (if delay >? 0 then sleep AcquireDelay delay else ret tt) >>
  let* bucket := withManager (get key) in
  match bucket with
  | Some b =>
      match RateLimitBucket.processing b with
      | Some _ => fun w => (Pending, w)
      | None => ret tt
      end
  | None => ret tt
  end.

(** Modelled from the spec: [createFileAttachment] of [src/utils], which is
    not among the sources.  "Raised before transfer if an attachment exceeds
    a known size ceiling, carrying the file name, its size, and the
    ceiling." *)
Definition createFileAttachment (maxSize : Z) (index : nat) (name data : string)
    (contentType : option string) : Exn + FileAttachment.t :=
  let size := Z.of_nat (String.length data) in
  if size >? maxSize
  then inl (FileTooLargeError name size maxSize)
  else inr {| FileAttachment.index := index;
              FileAttachment.name := name;
              FileAttachment.data := data;
              FileAttachment.contentType := contentType |}.

(** [opts.files.map((file, i) => createFileAttachment(i, ...))], the files
    from index [i] on: the first exception ends the traversal. *)
Fixpoint mapFiles (maxSize : Z) (i : nat) (files : list FileData.t)
  : Exn + list FileAttachment.t :=
  match files with
  | [] => inr []
  | file :: files' =>
      match createFileAttachment maxSize i (FileData.name file)
              (FileData.data file) (FileData.contentType file) with
      | inl e => inl e
      | inr a =>
          match mapFiles maxSize (S i) files' with
          | inl e => inl e
          | inr l => inr (a :: l)
          end
      end
  end.

(** [opts.files?.length]: there is a non-empty array of files. *)
Definition hasFiles (files : option (list FileData.t)) : bool :=
  match files with
  | Some (_ :: _) => true
  | _ => false
  end.

(** Modelled from the spec: [buildMultipartBody] of [src/utils], which is
    not among the sources.  "Build a multipart body merging a JSON-encoded
    payload part with each file part": the form data of the payload and the
    files, kept symbolic. *)
Definition buildMultipartBody (payload : BodyValue)
    (files : list FileAttachment.t) : FetchBody :=
  FormData payload files.

(** [buildBody]. *)
Definition buildBody (env : Env.t) (opts : RequestOptions.t)
  : Exn + option FetchBody :=
  if hasFiles (RequestOptions.files opts) then
    match mapFiles (Env.maxSize env) 0 (nullish (RequestOptions.files opts) []) with
    | inl e => inl e
    | inr files =>
        let payload := nullish (RequestOptions.body opts) (BodyObject "{}") in
        inr (Some (buildMultipartBody payload files))
    end
  else
    match RequestOptions.body opts with
    | Some b => if truthyBody b then inr (Some (JsonText b)) else inr None
    | None => inr None
    end.

Definition parseRateLimitHeaders (headers : Headers.t) : option RateLimitData.t :=
  match Headers.X_RateLimit_Limit headers with
  | None => None
  | Some limit =>
      let scope := Headers.X_RateLimit_Scope headers in
      Some {| RateLimitData.limit := limit;
              RateLimitData.remaining :=
                nullish (Headers.X_RateLimit_Remaining headers) 0;
              RateLimitData.reset := nullish (Headers.X_RateLimit_Reset headers) 0;
              RateLimitData.resetAfter :=
                nullish (Headers.X_RateLimit_Reset_After headers) 0;
              RateLimitData.bucket := nullish (Headers.X_RateLimit_Bucket headers) "";
              RateLimitData.global :=
                match Headers.X_RateLimit_Global headers with
                | Some g => String.eqb g "true"
                | None => false
                end;
              RateLimitData.scope :=
                match scope with
                | Some s => if truthy s then Some s else None
                | None => None
                end |}
  end.

(** [await response.json()]. *)
Definition responseJson (response : Response.t) : Async Json.t :=
  match Response.json response with
  | Some j => ret j
  | None => throw SyntaxError
  end.

(** [handleRateLimit]: it always throws. *)
Definition handleRateLimit (response : Response.t) (routeKey : string)
  : Async unit :=
  let* data := responseJson response in
  let rateLimit := parseRateLimitHeaders (Response.headers response) in
  (if Json.global data
   then let* now := dateNow in
        modifyManager (setGlobalReset (now + Json.retry_after data * 1000))
   else ret tt) >>
  (match rateLimit with
   | Some rl => modifyManager (update routeKey rl)
   | None => ret tt
   end) >>
  throw (RateLimitError (Json.retry_after data) (Json.global data)
           (match rateLimit with
            | Some rl => RateLimitData.scope rl
            | None => None
            end)).

(** [RestError.fromResponse]. *)
Definition RestError_fromResponse (response : Json.t) (status : Z)
    (rateLimit : option RateLimitData.t) : Exn :=
  RestError status (Json.code response) (Json.message response)
    (Json.errors response) rateLimit.

(** The world once a transfer has been started and has taken [elapsed]
    milliseconds. *)
Definition transferStarted (w : World) (method route : string)
    (body : option FetchBody) (elapsed : Z) : World :=
  {| manager := manager w; clock := clock w + elapsed;
     fetched := S (fetched w);
     log := log w ++ [Fetched method route body] |}.

(** [await fetch(url, { method, headers, body, signal })] under the timer
    armed by [setTimeout(() => controller.abort(), config.timeout)]: an
    answer that has not come when the timer fires is lost, and the aborted
    transfer rejects with the abort error.  An answer is the whole response,
    headers and body: the timer that runs on while the body is read is not
    told apart from the one that runs while the headers are awaited. *)
Definition fetch (env : Env.t) (method route : string) (body : option FetchBody)
  : Async Response.t :=
  fun w =>
    match Env.server env (fetched w) with
    | Replies after response =>
        if after <? Env.timeout env
        then (Returned response, transferStarted w method route body (Z.max 0 after))
        else (Threw AbortError, transferStarted w method route body (Env.timeout env))
    | Silent =>
        (Threw AbortError, transferStarted w method route body (Env.timeout env))
    end.

(** The [try] block of [request]: the transfer and the classification of
    the response. *)
Definition attempt (env : Env.t) (method route routeKey : string)
    (body : option FetchBody) : Async RestResponse.t :=
  let* response := fetch env method route body in
  let rateLimit := parseRateLimitHeaders (Response.headers response) in
  (match rateLimit with
   | Some rl => modifyManager (update routeKey rl)
   | None => ret tt
   end) >>
  (if Response.status response =? 429
   then handleRateLimit response routeKey
   else ret tt) >>
  if Response.status response =? 204
  then ret {| RestResponse.data := None;
              RestResponse.status := Response.status response;
              RestResponse.headers := Response.headers response;
              RestResponse.rateLimit := rateLimit |}
  else
    let* responseData := responseJson response in
    if negb (Response.ok response)
    then throw (RestError_fromResponse responseData
                  (Response.status response) rateLimit)
    else ret {| RestResponse.data := Some responseData;
                RestResponse.status := Response.status response;
                RestResponse.headers := Response.headers response;
                RestResponse.rateLimit := rateLimit |}.

(** ** Request headers ([buildHeaders], [setToken]) *)

Definition LIB_VERSION : string := "0.0.1".

Definition LIB_URL : string := "https://github.com/cordbun/cordbun".

(** ASCII lower case, the way header names are compared. *)
Definition toLower (c : ascii) : ascii :=
  let n := nat_of_ascii c in
  if (65 <=? n)%nat && (n <=? 90)%nat then ascii_of_nat (n + 32) else c.

Fixpoint lowercase (s : string) : string :=
  match s with
  | EmptyString => EmptyString
  | String c rest => String (toLower c) (lowercase rest)
  end.

(** HTTP white space: TAB, LF, CR and SPACE. *)
Definition isHttpWhitespace (c : ascii) : bool :=
  let n := nat_of_ascii c in
  (n =? 9)%nat || (n =? 10)%nat || (n =? 13)%nat || (n =? 32)%nat.

Fixpoint stripStart (s : string) : string :=
  match s with
  | EmptyString => EmptyString
  | String c rest => if isHttpWhitespace c then stripStart rest else s
  end.

Fixpoint stripEnd (s : string) : string :=
  match s with
  | EmptyString => EmptyString
  | String c rest =>
      match stripEnd rest with
      | EmptyString =>
          if isHttpWhitespace c then EmptyString else String c EmptyString
      | rest' => String c rest'
      end
  end.

(** A header value as a [Headers] object keeps it: without leading and
    trailing HTTP white space. *)
Definition normalizeValue (value : string) : string :=
  stripEnd (stripStart value).

(** The characters of a header name (an HTTP token): letters, digits and
    [! # $ % & ' * + - . ^ _ ` | ~]. *)
Definition isTokenChar (c : ascii) : bool :=
  let n := nat_of_ascii c in
  ((65 <=? n)%nat && (n <=? 90)%nat) ||
  ((97 <=? n)%nat && (n <=? 122)%nat) ||
  ((48 <=? n)%nat && (n <=? 57)%nat) ||
  existsb (Nat.eqb n)
    [33; 35; 36; 37; 38; 39; 42; 43; 45; 46; 94; 95; 96; 124; 126]%nat.

Fixpoint allToken (s : string) : bool :=
  match s with
  | EmptyString => true
  | String c rest => isTokenChar c && allToken rest
  end.

(** A header name: a token that is not empty. *)
Definition validName (name : string) : bool :=
  match name with
  | EmptyString => false
  | String _ _ => allToken name
  end.

(** A header value (already normalised): no NUL, LF or CR inside. *)
Fixpoint validValue (value : string) : bool :=
  match value with
  | EmptyString => true
  | String c rest =>
      let n := nat_of_ascii c in
      negb ((n =? 0)%nat || (n =? 10)%nat || (n =? 13)%nat) && validValue rest
  end.

(** A [Headers] object is the map from lower-cased names to normalised
    values; [set] normalises the value, then refuses a name that is not a
    token or a value with NUL, LF or CR inside.  Names and values are
    strings of characters below 256. *)
Definition headersSet (name value : string) (h : gmap string string)
  : HeaderError + gmap string string :=
  let value := normalizeValue value in
  if negb (validName name) then inl (InvalidHeaderName name)
  else if negb (validValue value) then inl (InvalidHeaderValue value)
  else inr (<[lowercase name := value]> h).

Definition headersGet (name : string) (h : gmap string string) : option string :=
  h !! lowercase name.

(** Characters [encodeURIComponent] leaves alone: letters, digits and
    [- _ . ! ~ * ' ( )]. *)
Definition isUnreserved (c : ascii) : bool :=
  let n := nat_of_ascii c in
  ((65 <=? n)%nat && (n <=? 90)%nat) ||
  ((97 <=? n)%nat && (n <=? 122)%nat) ||
  ((48 <=? n)%nat && (n <=? 57)%nat) ||
  existsb (Nat.eqb n) [45; 95; 46; 33; 126; 42; 39; 40; 41]%nat.

(** An upper-case hexadecimal digit. *)
Definition hexDigit (n : nat) : ascii :=
  if (n <? 10)%nat then ascii_of_nat (48 + n) else ascii_of_nat (55 + n).

Definition percentEncode (c : ascii) : string :=
  let n := nat_of_ascii c in
  String "%" (String (hexDigit (n / 16)) (String (hexDigit (n mod 16)) EmptyString)).

(** [encodeURIComponent] on a string given by its UTF-8 bytes: every byte
    that is not unreserved becomes [%XX]. *)
Fixpoint encodeURIComponent (s : string) : string :=
  match s with
  | EmptyString => EmptyString
  | String c rest =>
      if isUnreserved c then String c (encodeURIComponent rest)
      else percentEncode c +:+ encodeURIComponent rest
  end.

(** The string a string-valued option of the configuration holds (what the
    template literal makes of it); the validation admits no other value for
    [authType] and [userAgent]. *)
Definition stringOf (v : JsValue) : string :=
  match v with
  | JsStr s => s
  | _ => EmptyString
  end.

(** [config.userAgent ?? `DiscordBot (${LIB_URL}, ${LIB_VERSION})`]. *)
Definition userAgentOf (rest : Rest) : string :=
  match Config.userAgent (config rest) with
  | Some v => stringOf v
  | None => "DiscordBot (" +:+ LIB_URL +:+ ", " +:+ LIB_VERSION +:+ ")"
  end.

(** [setToken]. *)
Definition setToken (newToken : string) (rest : Rest) : Rest :=
  {| config := config rest;
     currentToken := newToken;
     restBuckets := restBuckets rest |}.

(** The loop over [Object.entries(opts.headers)]: the first [set] that is
    refused ends it. *)
Fixpoint setAll (entries : list (string * string)) (h : gmap string string)
  : HeaderError + gmap string string :=
  match entries with
  | [] => inr h
  | (key, value) :: rest =>
      match headersSet key value h with
      | inl e => inl e
      | inr h' => setAll rest h'
      end
  end.

(** [buildHeaders]. *)
Definition buildHeaders (rest : Rest) (opts : RequestOptions.t)
  : HeaderError + gmap string string :=
  match headersSet "User-Agent" (userAgentOf rest) ∅ with
  | inl e => inl e
  | inr headers =>
      match
        match RequestOptions.auth opts with
        | Some false => inr headers
        | _ =>
            headersSet "Authorization"
              (stringOf (Config.authType (config rest)) +:+ " " +:+
               currentToken rest)
              headers
        end
      with
      | inl e => inl e
      | inr headers =>
          match
            match RequestOptions.reason opts with
            | Some reason =>
                if truthy reason
                then headersSet "X-Audit-Log-Reason"
                       (encodeURIComponent reason) headers
                else inr headers
            | None => inr headers
            end
          with
          | inl e => inl e
          | inr headers =>
              match RequestOptions.headers opts with
              | Some entries => setAll entries headers
              | None => inr headers
              end
          end
      end
  end.

(** The headers [request] hands to [fetch]: those of [buildHeaders], on
    which [buildBody] sets the content type when it serialises a JSON
    body. *)
Definition requestHeaders (rest : Rest) (opts : RequestOptions.t)
  : HeaderError + gmap string string :=
  match buildHeaders rest opts with
  | inl e => inl e
  | inr headers =>
      if hasFiles (RequestOptions.files opts) then inr headers
      else
        match RequestOptions.body opts with
        | Some b =>
            if truthyBody b
            then headersSet "Content-Type" "application/json" headers
            else inr headers
        | None => inr headers
        end
  end.

(** No entry of the list names the header [name]. *)
Definition unnamed (name : string) (entries : list (string * string)) : Prop :=
  Forall (fun kv => lowercase (fst kv) <> lowercase name) entries.

(** The characters of an encoded component: unreserved ones, the percent
    sign and upper-case hexadecimal digits. *)
Definition isEncoded (c : ascii) : bool :=
  isUnreserved c || Ascii.eqb c "%".

Fixpoint allEncoded (s : string) : bool :=
  match s with
  | EmptyString => true
  | String c rest => isEncoded c && allEncoded rest
  end.

(** The caller's own headers do not name the header [name]. *)
Definition notOverridden (name : string) (opts : RequestOptions.t) : Prop :=
  match RequestOptions.headers opts with
  | Some entries => unnamed name entries
  | None => True
  end.

(** [request].  The recursion of the source is on [retryCount], which only
    grows while it is below [config.retries]; here it is on [fuel], and
    [request] below supplies enough of it.  The [catch] clause sees what the
    [try] block threw; what the recursive call throws leaves the function.
    [buildHeaders] runs after [acquire] and before [buildBody], outside the
    [try] block: the [TypeError] of a refused header leaves the function.
    The headers themselves only feed [fetch], whose answer is the remote
    end's.  [buildUrl] is left out: the base address fixes the scheme and
    the host, and the platform's URL parser refuses no path and no query,
    so it cannot throw. *)
Fixpoint requestFrom (fuel : nat) (env : Env.t) (method route : string)
    (opts : RequestOptions.t) (retryCount : nat) : Async RestResponse.t :=
  match fuel with
  | O => fun w => (OutOfFuel, w)
  | S fuel' =>
      let routeKey := getRouteKey method route in
      acquire routeKey >>
      match buildHeaders (Env.client env) opts with
      | inl refused => throw (HeadersTypeError refused)
      | inr _ =>
          let* body := liftSum (buildBody env opts) in
          tryCatch
            (attempt env method route routeKey body)
            (fun error =>
               match error with
               | RateLimitError retryAfter _ _ =>
                   if (retryCount <? Env.retries env)%nat
                   then sleep RetryAfter (retryAfter * 1000) >>
                        requestFrom fuel' env method route opts (S retryCount)
                   else throw error
               | RestError status _ _ _ _ =>
                   if (status >=? 500) && (retryCount <? Env.retries env)%nat
                   then sleep Backoff (1000 * (Z.of_nat retryCount + 1)) >>
                        requestFrom fuel' env method route opts (S retryCount)
                   else throw error
               | _ => throw error
               end)
      end
  end.

(** [request(method, route, opts)] with [retryCount = 0]. *)
Definition request (env : Env.t) (method route : string)
    (opts : RequestOptions.t) : Async RestResponse.t :=
  requestFrom (S (Env.retries env)) env method route opts 0.

(** The backoff sleeps and the transfers of a record, in order. *)
Definition backoffs (l : list Event) : list Z :=
  flat_map (fun e => match e with Slept Backoff ms => [ms] | _ => [] end) l.

Definition transfers (l : list Event) : list Event :=
  List.filter (fun e => match e with Fetched _ _ _ => true | _ => false end) l.

(** From [w] to [w'] nothing was transferred, no backoff was waited and the
    bucket manager was left alone. *)
Definition quiet (w w' : World) : Prop :=
  manager w' = manager w /\
  fetched w' = fetched w /\
  transfers (log w') = transfers (log w) /\
  backoffs (log w') = backoffs (log w).

(** The errors the dispatcher constructs or lets through. *)
Definition raisable (e : Exn) : Prop :=
  match e with
  | RateLimitError _ _ _ | RestError _ _ _ _ _ | FileTooLargeError _ _ _
  | HeadersTypeError _ | AbortError | SyntaxError => True
  | CloudflareError _ | TimeoutError _ | TypeError _ => False
  end.

(** A call has settled by returning or by throwing one of these errors. *)
Definition settled {A : Type} (c : Completion A) : Prop :=
  match c with
  | Returned _ => True
  | Threw e => raisable e
  | Pending | OutOfFuel => False
  end.

(** The n-th transfer gets a server error with a JSON body before the timer
    fires. *)
Definition serverError (env : Env.t) (n : nat) (response : Response.t)
    (j : Json.t) : Prop :=
  exists after,
    Env.server env n = Replies after response /\
    after < Env.timeout env /\
    500 <= Response.status response /\
    Response.json response = Some j.

(** The n-th transfer outlasts the timer. *)
Definition outlasts (env : Env.t) (n : nat) : Prop :=
  match Env.server env n with
  | Replies after _ => Env.timeout env <= after
  | Silent => True
  end.

(** *** Normal form of a route *)

(** Some slash of the string is followed by a digit: [/\/\d+/] has a match. *)
Fixpoint hasSlashDigit (s : string) : bool :=
  match s with
  | EmptyString => false
  | String c rest => (isSlash c && startsWithDigit rest) || hasSlashDigit rest
  end.

(** *** Observations on answers and sleeps *)

(** The n-th transfer is answered by [response] before the timer fires. *)
Definition answersInTime (env : Env.t) (n : nat) (response : Response.t) : Prop :=
  exists after,
    Env.server env n = Replies after response /\ after < Env.timeout env.

(** The sleeps of the rate-limit retries of a record, in order. *)
Definition retryAfters (l : list Event) : list Z :=
  flat_map (fun e => match e with Slept RetryAfter ms => [ms] | _ => [] end) l.

(** The options object without its timeout. *)
Definition withoutTimeout (options : RestOptions) : RestOptions :=
  {| authType := authType options; version := version options;
     userAgent := userAgent options; retries := retries options;
     timeout := None |}.

(** What [request] does with a completion of its [try] block when the retry
    counter is [retryCount]: it is final when the [catch] clause has no
    retry for it. *)
Definition final (env : Env.t) (retryCount : nat)
    (c : Completion RestResponse.t) : Prop :=
  match c with
  | Threw (RateLimitError _ _ _) => (retryCount <? Env.retries env)%nat = false
  | Threw (RestError status _ _ _ _) =>
      (status >=? 500) && (retryCount <? Env.retries env)%nat = false
  | _ => True
  end.

(** The manager after the rate-limit headers of a response were recorded
    for a route key. *)
Definition recorded (routeKey : string) (response : Response.t)
    (m : BucketManager) : BucketManager :=
  match parseRateLimitHeaders (Response.headers response) with
  | Some rl => update routeKey rl m
  | None => m
  end.

(** ** Snowflakes ([src/utils/snowflake.ts]) and avatar indexes ([src/utils/cdn.ts]) *)

Definition DISCORD_EPOCH : Z := 1420070400000.

(** [`${bigint}`]: the decimal digits of an integer, after a minus sign when
    it is negative. *)
Definition showBigInt (z : Z) : string :=
  DecimalString.NilEmpty.string_of_int (Z.to_int z).

(** The number a string of decimal digits denotes. *)
Fixpoint digitsValueFrom (acc : Z) (s : string) : Z :=
  match s with
  | EmptyString => acc
  | String c rest =>
      digitsValueFrom (10 * acc + (Z.of_nat (nat_of_ascii c) - 48)) rest
  end.

Definition digitsValue (s : string) : Z := digitsValueFrom 0 s.

(** A snowflake as the functions take it: a string or a [bigint]. *)
Inductive SnowflakeLike : Type :=
| AsString (s : string)
| AsBigInt (z : Z).

Section Snowflake.

(** [BigInt(string)] of the platform, [None] when it throws. *)
Variable BigInt : string -> option Z.

Definition toBigInt (snowflake : SnowflakeLike) : option Z :=
  match snowflake with
  | AsBigInt z => Some z
  | AsString s => BigInt s
  end.

Definition getTimestamp (snowflake : SnowflakeLike) : option Z :=
  (fun z => Z.shiftr z 22 + DISCORD_EPOCH) <$> toBigInt snowflake.

Definition getWorkerId (snowflake : SnowflakeLike) : option Z :=
  (fun z => Z.shiftr (Z.land z 0x3e0000) 17) <$> toBigInt snowflake.

Definition getProcessId (snowflake : SnowflakeLike) : option Z :=
  (fun z => Z.shiftr (Z.land z 0x1f000) 12) <$> toBigInt snowflake.

Definition getIncrement (snowflake : SnowflakeLike) : option Z :=
  (fun z => Z.land z 0xfff) <$> toBigInt snowflake.

(** [fromTimestamp] on a number of milliseconds that is an integer. *)
Definition fromTimestamp (ms : Z) : string :=
  showBigInt (Z.shiftl (ms - DISCORD_EPOCH) 22).

(** [/^\d{17,20}$/.test(value)]. *)
Definition looksLikeSnowflake (value : string) : bool :=
  allDigits value &&
  (17 <=? String.length value)%nat && (String.length value <=? 20)%nat.

Definition isSnowflake (value : string) : bool :=
  if negb (looksLikeSnowflake value) then false
  else
    match BigInt value with
    | Some id => (id >=? 0) && (id <=? 0xffffffffffffffff)
    | None => false
    end.

Definition compare (a b : SnowflakeLike) : option Z :=
  match toBigInt a with
  | None => None
  | Some bigA =>
      match toBigInt b with
      | None => None
      | Some bigB =>
          if bigA <? bigB then Some (-1)
          else if bigA >? bigB then Some 1
          else Some 0
      end
  end.

Definition isOlderThan (snowflake other : SnowflakeLike) : option bool :=
  (fun c => c <? 0) <$> compare snowflake other.

Definition isNewerThan (snowflake other : SnowflakeLike) : option bool :=
  (fun c => c >? 0) <$> compare snowflake other.

(** [defaultAvatarIndex]: the remainder of [bigint] division has the sign of
    the dividend. *)
Definition defaultAvatarIndex (userId : string) : option Z :=
  (fun z => Z.rem (Z.shiftr z 22) 6) <$> BigInt userId.

End Snowflake.

(** [legacyDefaultAvatarIndex] on a discriminator that is an integer. *)
Definition legacyDefaultAvatarIndex (discriminator : Z) : Z :=
  Z.rem discriminator 5.

(** The platform's [BigInt] reads what [`${bigint}`] writes. *)
Definition readsBigInts (BigInt : string -> option Z) : Prop :=
  forall z, BigInt (showBigInt z) = Some z.

(** The platform's [BigInt] reads a string of decimal digits as the number
    it denotes. *)
Definition readsDigits (BigInt : string -> option Z) : Prop :=
  forall s, s <> "" -> allDigits s = true -> BigInt s = Some (digitsValue s).


(** * Properties *)

(** ** Bucket manager *)

Section BucketManagerFacts.

Implicit Types (m : BucketManager) (key : string) (data : RateLimitData.t).

Lemma update_buckets key data m :
  buckets (update key data m) =
  <[RateLimitData.bucket data :=
      written data (buckets m !! RateLimitData.bucket data
                      ≫= RateLimitBucket.processing)]> (buckets m).
Proof.
  unfold update, written; simpl.
  destruct (buckets m !! RateLimitData.bucket data); reflexivity.
Qed.

Lemma update_bucketKeys_hashed key data m :
  truthy (RateLimitData.bucket data) = true ->
  bucketKeys (update key data m) =
  <[key := RateLimitData.bucket data]> (bucketKeys m).
Proof. intros H. unfold update; simpl. now rewrite H. Qed.

Lemma update_bucketKeys_unhashed key data m :
  truthy (RateLimitData.bucket data) = false ->
  bucketKeys (update key data m) = bucketKeys m.
Proof. intros H. unfold update; simpl. now rewrite H. Qed.

Lemma update_globalReset key data m :
  globalReset (update key data m) = globalReset m.
Proof. reflexivity. Qed.

(** With a server bucket hash that is not empty, the bucket written by
    [update] is the one [get] finds for the same route key, and the hash is
    the one recorded for that key. *)
Lemma update_get_hashed key data m :
  truthy (RateLimitData.bucket data) = true ->
  bucketKeys (update key data m) !! key = Some (RateLimitData.bucket data) /\
  exists p,
    get key (update key data m) = Some (written data p).
Proof.
  intros H. split.
  - rewrite update_bucketKeys_hashed by assumption. apply lookup_insert_eq.
  - eexists. unfold get.
    rewrite update_bucketKeys_hashed by assumption.
    rewrite lookup_insert_eq; cbn [nullish].
    rewrite update_buckets. apply lookup_insert_eq.
Qed.

(** With an empty hash nothing is recorded for the route key and the bucket
    goes under the empty key: a route key that is not empty and has no
    hash yet finds what it found before. *)
Lemma update_get_unhashed key data m :
  RateLimitData.bucket data = "" ->
  key <> "" ->
  bucketKeys m !! key = None ->
  get key (update key data m) = get key m.
Proof.
  intros Hb Hk Hnone. unfold get.
  rewrite update_bucketKeys_unhashed by now rewrite Hb.
  rewrite Hnone; cbn [nullish]. rewrite update_buckets, Hb.
  now apply lookup_insert_ne.
Qed.

Lemma update_idle key data m : idle m -> idle (update key data m).
Proof.
  intros Hm k b. rewrite update_buckets.
  destruct (decide (RateLimitData.bucket data = k)) as [->|Hne].
  - rewrite lookup_insert_eq. intros [= <-]; simpl.
    destruct (buckets m !! k) as [b0|] eqn:E; simpl; [|reflexivity].
    exact (Hm _ _ E).
  - rewrite lookup_insert_ne by assumption. apply Hm.
Qed.

Lemma setGlobalReset_idle reset m : idle m -> idle (setGlobalReset reset m).
Proof. intros Hm k b. exact (Hm k b). Qed.

Lemma createBucketManager_idle : idle createBucketManager.
Proof. intros k b. simpl. now rewrite lookup_empty. Qed.

End BucketManagerFacts.

(** C1 (as the code behaves where it departs from the claim).  On a fresh
    manager, [update] with a snapshot whose bucket hash is the empty string
    records nothing that the route key can reach: [get], [getDelay] and
    [isLimited] for that key see no bucket, no hash is associated with the
    key, and the snapshot sits under the empty key instead. *)
Theorem update_empty_hash_unreachable :
  let key := "GET:/users/:id:" in
  let data :=
    {| RateLimitData.limit := 5; RateLimitData.remaining := 0;
       RateLimitData.reset := 1700000000; RateLimitData.resetAfter := 1;
       RateLimitData.bucket := ""; RateLimitData.global := false;
       RateLimitData.scope := None |} in
  let m := update key data createBucketManager in
  get key m = None /\
  bucketKeys m !! key = None /\
  getDelay 1699999999000 key m = 0 /\
  isLimited 1699999999000 key m = false /\
  get "" m = Some (written data None).
Proof. vm_compute. repeat split; reflexivity. Qed.

(** C2, the claim as stated fails: the setter can lower the deadline. *)
Lemma setGlobalReset_not_max :
  ~ (forall (m : BucketManager) (u : Z),
        globalReset (setGlobalReset u m) = Z.max (globalReset m) u).
Proof.
  intros H.
  specialize (H {| buckets := ∅; bucketKeys := ∅; globalReset := 10 |} 5).
  vm_compute in H. discriminate H.
Qed.

(** C2 (amended).  [setGlobalReset u] stores [u] as the global deadline,
    whatever the deadline was, and touches nothing else; the stored deadline
    is the maximum of the old one and [u] exactly when [u] is not below the
    old one. *)
Theorem setGlobalReset_overwrites (m : BucketManager) (u : Z) :
  globalReset (setGlobalReset u m) = u /\
  buckets (setGlobalReset u m) = buckets m /\
  bucketKeys (setGlobalReset u m) = bucketKeys m /\
  (globalReset (setGlobalReset u m) = Z.max (globalReset m) u <->
   globalReset m <= u).
Proof.
  repeat split; simpl; lia.
Qed.

(** C6.  [getDelay] by cases: the time left to the global deadline when that
    deadline is ahead, whatever the bucket says; otherwise nothing when the
    key has no bucket; otherwise the time left to the bucket's reset when
    the bucket is exhausted and its reset is ahead; otherwise nothing. *)
Theorem getDelay_cases (now : Z) (key : string) (m : BucketManager) :
  (globalReset m > now -> getDelay now key m = globalReset m - now) /\
  (globalReset m <= now -> get key m = None -> getDelay now key m = 0) /\
  (forall b,
      globalReset m <= now -> get key m = Some b ->
      RateLimitBucket.remaining b <= 0 -> RateLimitBucket.reset b > now ->
      getDelay now key m = RateLimitBucket.reset b - now) /\
  (forall b,
      globalReset m <= now -> get key m = Some b ->
      RateLimitBucket.remaining b > 0 \/ RateLimitBucket.reset b <= now ->
      getDelay now key m = 0).
Proof.
  unfold getDelay. repeat split.
  - intros Hg. destruct (Z.gtb_spec (globalReset m) now); [reflexivity | lia].
  - intros Hg Hb. rewrite Hb.
    destruct (Z.gtb_spec (globalReset m) now); [lia | reflexivity].
  - intros b Hg Hb Hrem Hreset. rewrite Hb.
    destruct (Z.gtb_spec (globalReset m) now); [lia |].
    destruct (Z.leb_spec (RateLimitBucket.remaining b) 0); [| lia].
    destruct (Z.gtb_spec (RateLimitBucket.reset b) now); [reflexivity | lia].
  - intros b Hg Hb Hor. rewrite Hb.
    destruct (Z.gtb_spec (globalReset m) now); [lia |].
    destruct (Z.leb_spec (RateLimitBucket.remaining b) 0);
      destruct (Z.gtb_spec (RateLimitBucket.reset b) now);
      simpl; try reflexivity; lia.
Qed.

Lemma getDelay_cases_witness :
  let exhausted :=
    {| RateLimitData.limit := 5; RateLimitData.remaining := 0;
       RateLimitData.reset := 2; RateLimitData.resetAfter := 1;
       RateLimitData.bucket := "abc"; RateLimitData.global := false;
       RateLimitData.scope := None |} in
  getDelay 100 "k" (setGlobalReset 150 createBucketManager) = 150 - 100 /\
  getDelay 100 "k" createBucketManager = 0 /\
  getDelay 1500 "k" (update "k" exhausted createBucketManager) = 2000 - 1500 /\
  getDelay 2500 "k" (update "k" exhausted createBucketManager) = 0.
Proof.
  intros exhausted. split; [| split; [| split]].
  - apply (proj1 (getDelay_cases 100 "k" (setGlobalReset 150 createBucketManager))).
    simpl. lia.
  - apply (proj1 (proj2 (getDelay_cases 100 "k" createBucketManager))).
    + simpl. lia.
    + reflexivity.
  - apply (proj1 (proj2 (proj2
             (getDelay_cases 1500 "k" (update "k" exhausted createBucketManager))))
             (written exhausted None)).
    + simpl. lia.
    + reflexivity.
    + simpl. lia.
    + simpl. lia.
  - apply (proj2 (proj2 (proj2
             (getDelay_cases 2500 "k" (update "k" exhausted createBucketManager))))
             (written exhausted None)).
    + simpl. lia.
    + reflexivity.
    + right. simpl. lia.
Defined.

(** C9.  Two [update]s in a row with the same key and snapshot leave the
    manager (buckets, recorded hashes, global deadline) as one does. *)
Theorem update_idempotent (key : string) (data : RateLimitData.t)
    (m : BucketManager) :
  update key data (update key data m) = update key data m.
Proof.
  unfold update at 1. rewrite update_buckets, update_globalReset.
  cbn [nullish]. rewrite lookup_insert_eq. cbn [fmap option_fmap option_map nullish written RateLimitBucket.processing].
  rewrite insert_insert_eq.
  destruct (truthy (RateLimitData.bucket data)) eqn:Ht.
  - rewrite update_bucketKeys_hashed by assumption.
    rewrite insert_insert_eq.
    unfold update. rewrite Ht. cbn [nullish].
    destruct (buckets m !! RateLimitData.bucket data); reflexivity.
  - rewrite update_bucketKeys_unhashed by assumption.
    unfold update. rewrite Ht. cbn [nullish].
    destruct (buckets m !! RateLimitData.bucket data); reflexivity.
Qed.

(** C10.  [getDelay] is never negative, wherever the global deadline and the
    bucket's reset lie with respect to the clock. *)
Theorem getDelay_nonneg (now : Z) (key : string) (m : BucketManager) :
  0 <= getDelay now key m.
Proof.
  unfold getDelay.
  destruct (Z.gtb_spec (globalReset m) now); [lia |].
  destruct (get key m) as [b|]; [| lia].
  destruct (Z.leb_spec (RateLimitBucket.remaining b) 0);
    destruct (Z.gtb_spec (RateLimitBucket.reset b) now); simpl; lia.
Qed.

(** ** Route keys *)

Section RouteKeyFacts.

Implicit Types (s t pre post d root : string) (c : ascii).

Local Arguments Ascii.eqb : simpl never.
Local Arguments isDigit : simpl never.
Local Arguments isSlash : simpl never.

Lemma append_nil t : "" +:+ t = t.
Proof. reflexivity. Qed.

Lemma append_cons c s t : String c s +:+ t = String c (s +:+ t).
Proof. reflexivity. Qed.

Lemma append_assoc s t u : (s +:+ t) +:+ u = s +:+ (t +:+ u).
Proof.
  induction s as [|c s IH]; [reflexivity|].
  rewrite !append_cons. f_equal. exact IH.
Qed.

Lemma append_inj_l s t u : s +:+ t = s +:+ u -> t = u.
Proof.
  induction s as [|c s IH]; [trivial|].
  rewrite !append_cons. intros [= H]. auto.
Qed.

Lemma isSlash_true c : isSlash c = true -> c = "/"%char.
Proof. unfold isSlash. apply Ascii.eqb_eq. Qed.

Lemma isDigit_slash : isDigit "/" = false.
Proof. reflexivity. Qed.

Lemma isDigit_not_slash c : isDigit c = true -> isSlash c = false.
Proof.
  intros Hd. destruct (isSlash c) eqn:E; [|reflexivity].
  apply isSlash_true in E. subst c. discriminate Hd.
Qed.

Lemma segmentEnds_no_digit post :
  segmentEnds post = true -> startsWithDigit post = false.
Proof.
  destruct post as [|c r]; simpl; [reflexivity|].
  intros H. apply isSlash_true in H. now subst c.
Qed.

Lemma startsWithDigit_app s t :
  s <> "" -> startsWithDigit (s +:+ t) = startsWithDigit s.
Proof. destruct s; [congruence | reflexivity]. Qed.

(** *** Greedy digits *)

Lemma takeDigits_app_stop s t :
  startsWithDigit t = false -> takeDigits (s +:+ t) = takeDigits s.
Proof.
  intros Ht. induction s as [|c s IH].
  - rewrite append_nil. destruct t as [|c t]; simpl in *; [reflexivity | now rewrite Ht].
  - rewrite append_cons. simpl.
    destruct (isDigit c); [now rewrite IH | reflexivity].
Qed.

Lemma takeDigits_allDigits d : allDigits d = true -> takeDigits d = d.
Proof.
  induction d as [|c d IH]; simpl; [reflexivity|].
  intros H. apply andb_prop in H as [Hc Hd]. rewrite Hc. now rewrite IH.
Qed.

Lemma takeDigits_numeric d post :
  allDigits d = true -> segmentEnds post = true ->
  takeDigits (d +:+ post) = d.
Proof.
  intros Hd Hp. rewrite takeDigits_app_stop by now apply segmentEnds_no_digit.
  now apply takeDigits_allDigits.
Qed.

Lemma isNumeric_inv d :
  isNumeric d = true ->
  exists c d', d = String c d' /\ isDigit c = true /\ allDigits d = true.
Proof.
  unfold isNumeric. intros H. apply andb_prop in H as [Hs Ha].
  destruct d as [|c d']; [discriminate|]. eauto.
Qed.

(** *** Literal prefixes *)

Lemma stripPrefix_app p s t :
  stripPrefix p (s +:+ t) =
  match stripPrefix p s with
  | Some r => Some (r +:+ t)
  | None =>
      match stripPrefix s p with
      | Some p' => stripPrefix p' t
      | None => None
      end
  end.
Proof.
  revert s. induction p as [|a p IH]; intros s.
  - reflexivity.
  - destruct s as [|b s]; [reflexivity|].
    rewrite append_cons. simpl.
    rewrite (Ascii.eqb_sym b a).
    destruct (Ascii.eqb a b); [apply IH | reflexivity].
Qed.

Lemma stripPrefix_refl p : stripPrefix p p = Some "".
Proof.
  induction p as [|a p IH]; simpl; [reflexivity|].
  now rewrite Ascii.eqb_refl.
Qed.

Lemma stripPrefix_empty_rest s p : stripPrefix s p = Some "" -> s = p.
Proof.
  revert p. induction s as [|a s IH]; intros p; simpl.
  - now intros [= ->].
  - destruct p as [|b p]; [discriminate|].
    destruct (Ascii.eqb a b) eqn:E; [|discriminate].
    apply Ascii.eqb_eq in E. subst b. intros H. now rewrite (IH _ H).
Qed.

(** A proper suffix of [root/] that starts with a slash is the final
    slash alone. *)
Lemma stripPrefix_root_slash root s p' :
  noSlash root = true ->
  stripPrefix s (root +:+ "/") = Some p' ->
  segmentEnds p' = true -> p' <> "" ->
  s = root /\ p' = "/".
Proof.
  revert s. induction root as [|a root IH]; intros s Hns Hs Hp Hne.
  - rewrite append_nil in Hs. destruct s as [|b s]; simpl in Hs.
    + now injection Hs as <-.
    + destruct (Ascii.eqb b "/"); [|discriminate].
      destruct s; simpl in Hs; [|discriminate].
      injection Hs as <-. congruence.
  - rewrite append_cons in Hs. simpl in Hns.
    apply andb_prop in Hns as [Ha Hns].
    destruct s as [|b s]; simpl in Hs.
    + injection Hs as <-. simpl in Hp. rewrite Hp in Ha. discriminate.
    + destruct (Ascii.eqb b a) eqn:E; [|discriminate].
      apply Ascii.eqb_eq in E. subst b.
      destruct (IH s Hns Hs Hp Hne) as [-> ->]. auto.
Qed.

(** *** The anchored match survives what follows a later slash *)

Lemma matchRootAt_extend root s t :
  noSlash root = true -> s <> "" ->
  s <> String "/" root \/ startsWithDigit t = false ->
  matchRootAt root (s +:+ String "/" t) = matchRootAt root s.
Proof.
  intros Hroot Hs Hside. unfold matchRootAt. rewrite stripPrefix_app.
  destruct (stripPrefix (String "/" root +:+ "/") s) as [r|] eqn:E.
  - destruct r as [|c r]; [reflexivity|].
    rewrite append_cons. simpl startsWithDigit.
    destruct (isDigit c); [|reflexivity].
    rewrite <- append_cons. now rewrite takeDigits_app_stop.
  - destruct (stripPrefix s (String "/" root +:+ "/")) as [p'|] eqn:E2;
      [|reflexivity].
    destruct p' as [|a p'].
    + apply stripPrefix_empty_rest in E2. subst s.
      rewrite stripPrefix_refl in E. discriminate.
    + simpl. destruct (Ascii.eqb a "/") eqn:Ea; [|reflexivity].
      apply Ascii.eqb_eq in Ea. subst a.
      destruct s as [|b s]; [congruence|].
      rewrite append_cons in E2. simpl in E2.
      destruct (Ascii.eqb b "/") eqn:Eb; [|discriminate].
      apply Ascii.eqb_eq in Eb. subst b.
      destruct (stripPrefix_root_slash root s (String "/" p') Hroot E2)
        as [-> Hp']; [reflexivity | discriminate |].
      injection Hp' as ->. simpl.
      destruct Hside as [Hne | Hd]; [congruence | now rewrite Hd].
Qed.

Lemma isSlashRoot_inv s :
  isSlashRoot s = true ->
  s = "/channels" \/ s = "/guilds" \/ s = "/webhooks".
Proof.
  unfold isSlashRoot, majorRoots. simpl. rewrite !orb_true_iff.
  rewrite !String.eqb_eq. intuition discriminate.
Qed.

Lemma isSlashRoot_false s root :
  isSlashRoot s = false -> In root majorRoots -> s <> String "/" root.
Proof.
  intros H Hin ->. unfold isSlashRoot in H.
  assert (existsb (fun r => String.eqb (String "/" root) (String "/" r))
            majorRoots = true) as Ht; [|congruence].
  apply existsb_exists. exists root. split; [assumption|].
  apply String.eqb_refl.
Qed.

Lemma matchAnyRootAt_extend s t :
  s <> "" ->
  isSlashRoot s = false \/ startsWithDigit t = false ->
  matchAnyRootAt majorRoots (s +:+ String "/" t) = matchAnyRootAt majorRoots s.
Proof.
  intros Hs Hside.
  assert (forall root, In root majorRoots ->
            matchRootAt root (s +:+ String "/" t) = matchRootAt root s) as H.
  { intros root Hin. apply matchRootAt_extend; [| assumption |].
    - simpl in Hin. destruct Hin as [<-|[<-|[<-|[]]]]; reflexivity.
    - destruct Hside as [Hr|Hd]; [left | now right].
      now apply isSlashRoot_false. }
  unfold majorRoots in *. simpl.
  rewrite !H by (simpl; auto). reflexivity.
Qed.

(** *** The leftmost match *)

Lemma majorParams_cons c s :
  majorParams (String c s) =
  match matchAnyRootAt majorRoots (String c s) with
  | Some g => Some g
  | None => majorParams s
  end.
Proof. reflexivity. Qed.

Lemma majorParams_after_root c s :
  isSlashRoot (String c s) = true ->
  matchAnyRootAt majorRoots (String c s) = None /\ majorParams s = None.
Proof.
  intros H. apply isSlashRoot_inv in H.
  destruct H as [H|[H|H]]; injection H as -> ->; split; reflexivity.
Qed.

(** A match found in a prefix that is followed by a slash is the match of
    the whole route. *)
Lemma majorParams_extend_found pre t g :
  majorParams pre = Some g ->
  majorParams (pre +:+ String "/" t) = Some g.
Proof.
  induction pre as [|c pre IH]; [discriminate|].
  rewrite append_cons, !majorParams_cons, <- append_cons.
  destruct (isSlashRoot (String c pre)) eqn:Er.
  - destruct (majorParams_after_root _ _ Er) as [-> ->]. discriminate.
  - rewrite matchAnyRootAt_extend by (auto; discriminate).
    destruct (matchAnyRootAt majorRoots (String c pre)); auto.
Qed.

(** A prefix without a match adds nothing, unless it ends with a root that
    the next segment completes. *)
Lemma majorParams_extend_none pre t :
  majorParams pre = None ->
  endsWithRoot pre = false \/ startsWithDigit t = false ->
  majorParams (pre +:+ String "/" t) = majorParams (String "/" t).
Proof.
  induction pre as [|c pre IH]; [reflexivity|].
  rewrite majorParams_cons. intros Hnone Hside.
  destruct (matchAnyRootAt majorRoots (String c pre)) eqn:EM; [discriminate|].
  rewrite append_cons, majorParams_cons, <- append_cons.
  rewrite matchAnyRootAt_extend, EM.
  - apply IH; [assumption|].
    destruct Hside as [He|Hd]; [left | now right].
    simpl in He. now apply orb_false_elim in He.
  - discriminate.
  - destruct Hside as [He|Hd]; [left | now right].
    simpl in He. now apply orb_false_elim in He.
Qed.

Lemma stripPrefix_cons a p b s :
  stripPrefix (String a p) (String b s) =
  if Ascii.eqb a b then stripPrefix p s else None.
Proof. reflexivity. Qed.

Lemma matchRootAt_cons root c s :
  matchRootAt root (String c s) =
  if Ascii.eqb "/" c
  then match stripPrefix (root +:+ "/") s with
       | Some rest =>
           if startsWithDigit rest then Some (root, takeDigits rest) else None
       | None => None
       end
  else None.
Proof.
  unfold matchRootAt. rewrite append_cons, stripPrefix_cons.
  destruct (Ascii.eqb "/" c); reflexivity.
Qed.

Lemma matchAnyRootAt_not_slash c s :
  isSlash c = false -> matchAnyRootAt majorRoots (String c s) = None.
Proof.
  intros Hc. unfold isSlash in Hc. rewrite Ascii.eqb_sym in Hc.
  unfold matchAnyRootAt, majorRoots. now rewrite !matchRootAt_cons, !Hc.
Qed.

Lemma majorParams_skip_digits d post :
  allDigits d = true -> majorParams (d +:+ post) = majorParams post.
Proof.
  induction d as [|c d IH]; [reflexivity|].
  intros H. simpl in H. apply andb_prop in H as [Hc Hd].
  rewrite append_cons, majorParams_cons.
  rewrite matchAnyRootAt_not_slash by now apply isDigit_not_slash.
  auto.
Qed.

Lemma isDigit_not_letter c a :
  isDigit c = true -> isDigit a = false -> Ascii.eqb a c = false.
Proof.
  intros Hc Ha. destruct (Ascii.eqb a c) eqn:E; [|reflexivity].
  apply Ascii.eqb_eq in E. congruence.
Qed.

(** No root starts with a digit. *)
Lemma root_head root :
  In root majorRoots ->
  exists a p, root = String a p /\ isDigit a = false.
Proof.
  simpl. intros [<-|[<-|[<-|[]]]]; do 2 eexists; split; reflexivity.
Qed.

Lemma matchRootAt_head a p c s :
  Ascii.eqb a c = false ->
  matchRootAt (String a p) (String "/" (String c s)) = None.
Proof.
  intros Hac.
  rewrite matchRootAt_cons, append_cons, stripPrefix_cons, Hac.
  now rewrite Ascii.eqb_refl.
Qed.

Lemma matchRootAt_slash_digit root c s :
  In root majorRoots -> isDigit c = true ->
  matchRootAt root (String "/" (String c s)) = None.
Proof.
  intros Hin Hc. destruct (root_head _ Hin) as (a & p & -> & Ha).
  apply matchRootAt_head. now apply isDigit_not_letter.
Qed.

Lemma stripPrefix_append p s : stripPrefix p (p +:+ s) = Some s.
Proof.
  induction p as [|a p IH]; [reflexivity|].
  now rewrite append_cons, stripPrefix_cons, Ascii.eqb_refl.
Qed.

Lemma matchRootAt_self root t :
  matchRootAt root (String "/" (root +:+ String "/" t)) =
  if startsWithDigit t then Some (root, takeDigits t) else None.
Proof.
  unfold matchRootAt.
  replace (String "/" (root +:+ String "/" t))
    with ((String "/" root +:+ "/") +:+ t)
    by (rewrite append_assoc; reflexivity).
  now rewrite stripPrefix_append.
Qed.

Lemma matchAnyRootAt_slash_digit c s :
  isDigit c = true ->
  matchAnyRootAt majorRoots (String "/" (String c s)) = None.
Proof.
  intros Hc. unfold matchAnyRootAt, majorRoots.
  rewrite !matchRootAt_slash_digit by (assumption || (simpl; auto)).
  reflexivity.
Qed.

(** A numeric segment that is not major leaves no trace in the match. *)
Lemma majorParams_numeric_segment d post :
  isNumeric d = true ->
  majorParams (String "/" (d +:+ post)) = majorParams post.
Proof.
  intros Hd. destruct (isNumeric_inv _ Hd) as (c & d' & -> & Hc & Hall).
  rewrite append_cons, majorParams_cons, matchAnyRootAt_slash_digit by assumption.
  rewrite <- append_cons. now apply majorParams_skip_digits.
Qed.

(** The match at a root followed by a numeric segment. *)
Lemma majorParams_at_root root d post :
  In root majorRoots -> isNumeric d = true -> segmentEnds post = true ->
  majorParams (String "/" (root +:+ String "/" (d +:+ post))) = Some (root, d).
Proof.
  intros Hin Hd Hpost.
  destruct (isNumeric_inv _ Hd) as (c & d' & -> & Hc & Hall).
  rewrite <- (takeDigits_numeric (String c d') post Hall Hpost) at 2.
  assert (startsWithDigit (String c d' +:+ post) = true) as Hs by exact Hc.
  rewrite majorParams_cons. unfold matchAnyRootAt, majorRoots.
  simpl in Hin. destruct Hin as [<-|[<-|[<-|[]]]].
  - now rewrite matchRootAt_self, Hs.
  - rewrite (append_cons "g") at 1.
    rewrite (matchRootAt_head "c" _ "g") by reflexivity.
    now rewrite matchRootAt_self, Hs.
  - rewrite (append_cons "w") at 1.
    rewrite (matchRootAt_head "c" _ "w") by reflexivity.
    rewrite (append_cons "w") at 1.
    rewrite (matchRootAt_head "g" _ "w") by reflexivity.
    now rewrite matchRootAt_self, Hs.
Qed.

(** *** The replacement *)

Lemma replaceIds_app_slash b pre t :
  replaceIds b (pre +:+ String "/" t) =
  replaceIds b pre +:+ replaceIds false (String "/" t).
Proof.
  revert b. induction pre as [|c pre IH]; intros b.
  - rewrite !append_nil. simpl. now rewrite andb_false_r.
  - rewrite append_cons. simpl.
    assert (startsWithDigit (pre +:+ String "/" t) = startsWithDigit pre) as ->.
    { destruct pre; reflexivity. }
    destruct (b && isDigit c); [apply IH|].
    destruct (isSlash c && startsWithDigit pre).
    + rewrite IH. now rewrite append_assoc.
    + rewrite IH. now rewrite append_cons.
Qed.

Lemma replaceIds_skip_digits d post :
  allDigits d = true -> replaceIds true (d +:+ post) = replaceIds true post.
Proof.
  induction d as [|c d IH]; [reflexivity|].
  intros H. simpl in H. apply andb_prop in H as [Hc Hd].
  rewrite append_cons. simpl. rewrite Hc. auto.
Qed.

Lemma replaceIds_segmentEnds post :
  segmentEnds post = true -> replaceIds true post = replaceIds false post.
Proof.
  destruct post as [|c post]; [reflexivity|].
  simpl. intros H. apply isSlash_true in H. now subst c.
Qed.

(** A numeric segment becomes the placeholder, whatever its digits. *)
Lemma replaceIds_numeric_segment d post :
  isNumeric d = true -> segmentEnds post = true ->
  replaceIds false (String "/" (d +:+ post)) = "/:id" +:+ replaceIds false post.
Proof.
  intros Hd Hpost. destruct (isNumeric_inv _ Hd) as (c & d' & -> & Hc & Hall).
  rewrite append_cons. simpl replaceIds at 1. rewrite Hc. f_equal.
  simpl in Hall. rewrite Hc in Hall. simpl in Hall.
  rewrite replaceIds_skip_digits by assumption.
  now apply replaceIds_segmentEnds.
Qed.

(** *** The major identifier is the last field of the key *)

Lemma allDigits_takeDigits s : allDigits (takeDigits s) = true.
Proof.
  induction s as [|c s IH]; [reflexivity|].
  simpl. destruct (isDigit c) eqn:Hc; [|reflexivity].
  simpl. now rewrite Hc.
Qed.

Lemma matchAnyRootAt_digits roots s root id :
  matchAnyRootAt roots s = Some (root, id) -> allDigits id = true.
Proof.
  induction roots as [|r roots IH]; [discriminate|].
  simpl. unfold matchRootAt at 1.
  destruct (stripPrefix (String "/" r +:+ "/") s) as [rest|]; [|exact IH].
  destruct (startsWithDigit rest); [|exact IH].
  intros [= _ <-]. apply allDigits_takeDigits.
Qed.

Lemma majorParams_digits route root id :
  majorParams route = Some (root, id) -> allDigits id = true.
Proof.
  induction route as [|c route IH].
  - discriminate.
  - rewrite majorParams_cons.
    destruct (matchAnyRootAt majorRoots (String c route)) as [[root' id']|] eqn:E.
    + intros [= _ <-]. eapply matchAnyRootAt_digits. exact E.
    + exact IH.
Qed.

Lemma majorIdOf_digits route : allDigits (majorIdOf route) = true.
Proof.
  unfold majorIdOf.
  destruct (majorParams route) as [[root id]|] eqn:E; [|reflexivity].
  simpl. eapply majorParams_digits. exact E.
Qed.

Lemma allDigits_no_colon d : allDigits d = true -> hasColon d = false.
Proof.
  induction d as [|c d IH]; [reflexivity|].
  simpl. intros H. apply andb_prop in H as [Hc Hd].
  rewrite (IH Hd), orb_false_r. unfold isColon.
  destruct (Ascii.eqb c ":") eqn:E; [|reflexivity].
  apply Ascii.eqb_eq in E. subst c. discriminate Hc.
Qed.

Lemma hasColon_app_colon s t : hasColon (s +:+ String ":" t) = true.
Proof.
  induction s as [|c s IH]; [reflexivity|].
  rewrite append_cons. simpl. now rewrite IH, orb_true_r.
Qed.

Lemma lastField_app_colon s d :
  hasColon d = false -> lastField (s +:+ String ":" d) = d.
Proof.
  intros Hd. induction s as [|c s IH].
  - rewrite append_nil. simpl. now rewrite Hd.
  - rewrite append_cons. simpl. now rewrite hasColon_app_colon.
Qed.

Lemma getRouteKey_lastField method route :
  lastField (getRouteKey method route) = majorIdOf route.
Proof.
  unfold getRouteKey. fold (majorIdOf route).
  replace (method +:+ ":" +:+ replaceIds false route +:+ ":" +:+ majorIdOf route)
    with ((method +:+ ":" +:+ replaceIds false route)
            +:+ String ":" (majorIdOf route))
    by (rewrite !append_assoc; reflexivity).
  apply lastField_app_colon, allDigits_no_colon, majorIdOf_digits.
Qed.

(** Whatever else differs, the verb included, routes whose major
    identifiers differ have distinct keys. *)
Lemma getRouteKey_major_separates method1 route1 method2 route2 :
  majorIdOf route1 <> majorIdOf route2 ->
  getRouteKey method1 route1 <> getRouteKey method2 route2.
Proof.
  intros Hne Hkey. apply Hne.
  rewrite <- (getRouteKey_lastField method1 route1).
  rewrite <- (getRouteKey_lastField method2 route2).
  now rewrite Hkey.
Qed.

End RouteKeyFacts.

(** C5.  Two routes that differ only in a numeric segment which is not the
    major identifier get the same key under the same verb; two routes that
    differ only in the major identifier (the numeric segment right after the
    first [channels], [guilds] or [webhooks] root that has one) get distinct
    keys. *)
Theorem getRouteKey_collapses_and_separates :
  (forall method pre d1 d2 post,
      isNumeric d1 = true -> isNumeric d2 = true ->
      segmentEnds post = true ->
      nonMajorAfter pre ->
      getRouteKey method (pre +:+ "/" +:+ d1 +:+ post) =
      getRouteKey method (pre +:+ "/" +:+ d2 +:+ post)) /\
  (forall method pre root d1 d2 post,
      In root majorRoots ->
      isNumeric d1 = true -> isNumeric d2 = true ->
      segmentEnds post = true ->
      majorParams pre = None ->
      d1 <> d2 ->
      getRouteKey method (pre +:+ "/" +:+ root +:+ "/" +:+ d1 +:+ post) <>
      getRouteKey method (pre +:+ "/" +:+ root +:+ "/" +:+ d2 +:+ post)).
Proof.
  split.
  - intros method pre d1 d2 post Hd1 Hd2 Hpost Hnon.
    rewrite !(append_cons "/" ""), !append_nil.
    assert (majorParams (pre +:+ String "/" (d1 +:+ post)) =
            majorParams (pre +:+ String "/" (d2 +:+ post))) as Hmajor.
    { destruct (majorParams pre) as [g|] eqn:E.
      - now rewrite !(majorParams_extend_found pre _ g E).
      - destruct Hnon as [Hnon|Hnon]; [congruence|].
        rewrite !majorParams_extend_none by auto.
        now rewrite !majorParams_numeric_segment. }
    unfold getRouteKey. rewrite Hmajor.
    rewrite !replaceIds_app_slash.
    now rewrite !replaceIds_numeric_segment.
  - intros method pre root d1 d2 post Hroot Hd1 Hd2 Hpost Hpre Hne Hkey.
    apply Hne. clear Hne.
    rewrite !(append_cons "/" ""), !append_nil in Hkey.
    assert (forall d, isNumeric d = true ->
              getRouteKey method
                (pre +:+ String "/" (root +:+ String "/" (d +:+ post))) =
              method +:+ ":" +:+
                ((replaceIds false pre +:+ replaceIds false (String "/" root))
                   +:+ "/:id" +:+ replaceIds false post) +:+ ":" +:+ d) as Hshape.
    { intros d Hd. unfold getRouteKey.
      rewrite majorParams_extend_none, majorParams_at_root; try assumption.
      - rewrite replaceIds_app_slash.
        rewrite <- (append_cons "/" root), replaceIds_app_slash.
        rewrite replaceIds_numeric_segment by assumption.
        rewrite !append_assoc. reflexivity.
      - right. destruct (root_head _ Hroot) as (a & p & -> & Ha). exact Ha. }
    rewrite !Hshape in Hkey by assumption.
    rewrite <- !(append_assoc method) in Hkey.
    repeat match type of Hkey with
           | _ +:+ _ = _ +:+ _ =>
               first [ apply append_inj_l in Hkey ]
           end.
    exact Hkey.
Qed.

Lemma getRouteKey_collapses_and_separates_witness :
  getRouteKey "GET" "/channels/111/messages/222" =
  getRouteKey "GET" "/channels/111/messages/333" /\
  getRouteKey "GET" "/channels/111/messages/222" <>
  getRouteKey "GET" "/channels/999/messages/222".
Proof.
  split.
  - refine (proj1 getRouteKey_collapses_and_separates
              "GET" "/channels/111/messages" "222" "333" "" _ _ _ _).
    + reflexivity.
    + reflexivity.
    + reflexivity.
    + left. vm_compute. discriminate.
  - refine (proj2 getRouteKey_collapses_and_separates
              "GET" "" "channels" "111" "999" "/messages/222" _ _ _ _ _ _).
    + simpl. auto.
    + reflexivity.
    + reflexivity.
    + reflexivity.
    + reflexivity.
    + discriminate.
Defined.


(** ** Client options *)

Section OptionFacts.

Implicit Types (v : JsValue) (q : Q) (o : option JsValue).

Lemma Number_isInteger_iff q :
  Number_isInteger (JsNum (Finite q)) = true <-> exists k, (q == inject_Z k)%Q.
Proof.
  unfold Number_isInteger. rewrite Z.eqb_eq.
  rewrite Z.mod_divide by discriminate. unfold Z.divide, Qeq. simpl.
  split; intros [k Hk]; exists k; lia.
Qed.

Lemma badAuthType_false v : badAuthType v = false <-> validAuthType v.
Proof.
  unfold badAuthType, validAuthType, includesAuthType.
  rewrite negb_false_iff.
  destruct v as [n|s|]; simpl;
    [split; [discriminate | intros [H|H]; discriminate] | |
     split; [discriminate | intros [H|H]; discriminate]].
  rewrite !orb_true_iff, !String.eqb_eq.
  split.
  - intros [->|[->|H]]; [now left | now right | discriminate].
  - intros [[= ->]|[= ->]]; auto.
Qed.

Lemma includesVersion_iff q :
  includesVersion (JsNum (Finite q)) = true <->
  exists k, In k VALID_API_VERSIONS /\ (q == inject_Z k)%Q.
Proof.
  unfold includesVersion. rewrite existsb_exists.
  split; intros (k & Hin & Hk); exists k; (split; [assumption|]).
  - now apply Qeq_bool_iff.
  - now apply Qeq_bool_iff.
Qed.

Lemma badVersion_false v : badVersion v = false <-> validVersion v.
Proof.
  unfold badVersion, validVersion.
  rewrite orb_false_iff, !negb_false_iff.
  split.
  - intros [Hint Hinc].
    destruct v as [[| | |q]|s|]; try discriminate.
    apply includesVersion_iff in Hinc as (k & Hin & Hk). eauto.
  - intros (q & k & -> & Hin & Hk). split.
    + apply Number_isInteger_iff. eauto.
    + apply includesVersion_iff. eauto.
Qed.

Lemma badRetries_false v : badRetries v = false <-> validRetries v.
Proof.
  unfold badRetries, validRetries.
  rewrite orb_false_iff, negb_false_iff.
  split.
  - intros [Hint Hlt].
    destruct v as [[| | |q]|s|]; try discriminate.
    apply Number_isInteger_iff in Hint as [k Hk].
    exists q, k. repeat split; [assumption|].
    change (negb (Qle_bool (inject_Z 0) q) = false) in Hlt.
    apply negb_false_iff, Qle_bool_iff in Hlt.
    rewrite Hk in Hlt. now rewrite <- Zle_Qle in Hlt.
  - intros (q & k & -> & Hk & Hpos). split.
    + apply Number_isInteger_iff. eauto.
    + change (negb (Qle_bool (inject_Z 0) q) = false).
      apply negb_false_iff, Qle_bool_iff.
      rewrite Hk. now rewrite <- Zle_Qle.
Qed.

Lemma badTimeout_false v :
  badTimeout v = false <-> validTimeout v \/ v = JsNum NaN.
Proof.
  unfold badTimeout, validTimeout.
  rewrite orb_false_iff, negb_false_iff.
  split.
  - intros [Hnum Hle].
    destruct v as [[| | |q]|s|]; try discriminate; auto.
    left. left. exists q. split; [reflexivity|].
    change (Qle_bool q (inject_Z 0) = false) in Hle.
    apply Qnot_le_lt. intros H.
    pose proof (proj2 (Qle_bool_iff q (inject_Z 0)) H) as H'.
    rewrite H' in Hle. discriminate.
  - intros [[(q & -> & Hq)| ->]| ->]; split; try reflexivity.
    change (Qle_bool q (inject_Z 0) = false).
    destruct (Qle_bool q (inject_Z 0)) eqn:E; [|reflexivity].
    apply Qle_bool_iff in E. exfalso. exact (Qlt_not_le _ _ Hq E).
Qed.

Lemma badUserAgent_false v : badUserAgent v = false <-> validUserAgent v.
Proof.
  unfold badUserAgent, validUserAgent.
  destruct v as [n|s|];
    [split; [discriminate | intros (s & [=] & _)] | |
     split; [discriminate | intros (s & [=] & _)]].
  rewrite <- not_true_iff_false, String.eqb_eq.
  split.
  - intros H. eauto.
  - intros (s' & [= <-] & H). exact H.
Qed.

(** A check fires exactly on a property that is present and not well
    formed, once the code's test is known to decide well-formedness. *)
Lemma rejects_iff (bad : JsValue -> bool) (valid : JsValue -> Prop) o :
  (forall v, o = Some v -> (bad v = false <-> valid v)) ->
  rejects bad o = true <-> invalidField valid o.
Proof.
  intros Hdec. unfold rejects, invalidField. destruct o as [v|].
  - specialize (Hdec v eq_refl). split.
    + intros Hb. exists v. split; [reflexivity|].
      intros Hv. apply Hdec in Hv. congruence.
    + intros (v' & [= <-] & Hv). destruct (bad v) eqn:E; [reflexivity|].
      exfalso. apply Hv. now apply Hdec.
  - split; [discriminate | intros (v & [=] & _)].
Qed.

Lemma validateOptions_throws_iff (options : RestOptions) :
  (exists e, validateOptions options = Some e) <->
  rejects badAuthType (authType options) = true \/
  rejects badVersion (version options) = true \/
  rejects badRetries (retries options) = true \/
  rejects badTimeout (timeout options) = true \/
  rejects badUserAgent (userAgent options) = true.
Proof.
  unfold validateOptions.
  destruct (rejects badAuthType _), (rejects badVersion _),
    (rejects badRetries _), (rejects badTimeout _), (rejects badUserAgent _);
    split; intros H; eauto 6;
    try (destruct H as [e He]; discriminate);
    intuition discriminate.
Qed.

(** Every exception of [validateOptions] is a [TypeError]. *)
Lemma validateOptions_TypeError (options : RestOptions) e :
  validateOptions options = Some e -> exists what, e = TypeError what.
Proof.
  unfold validateOptions.
  repeat match goal with
         | |- context [if ?b then _ else _] => destruct b
         end; intros [= <-]; eauto.
Qed.

End OptionFacts.

(** C8, the claim as stated fails: construction also fails on options that
    are malformed in none of the four listed ways, here a user agent made
    of white space. *)
Lemma createRest_rejects_unlisted :
  ~ (forall (token : string) (options : RestOptions),
        (exists e, createRest token options = inl e) <-> listedMalformed options).
Proof.
  intros H.
  destruct (proj1 (H "token"
                     {| authType := None; version := None;
                        userAgent := Some (JsStr "  ");
                        retries := None; timeout := None |}))
    as [(v & [=] & _)|[(v & [=] & _)|[(v & [=] & _)|(v & [=] & _)]]].
  eexists. reflexivity.
Qed.

(** The validator lets a NaN timeout through: [NaN <= 0] is false. *)
Lemma createRest_accepts_NaN_timeout :
  exists rest,
    createRest "token"
      {| authType := None; version := None; userAgent := None;
         retries := None; timeout := Some (JsNum NaN) |} = inr rest.
Proof. eexists. reflexivity. Qed.

(** C8 (amended).  For options whose timeout is not NaN, [createRest] fails
    if and only if a property that is present is malformed: an
    authentication scheme outside the two variants, a version outside the
    enumerated set, retries that are not a non-negative integer, a timeout
    that is not a positive number, or a user agent that is not a string with
    something else than white space in it.  The failure is a [TypeError]
    raised by the validation, which is the first thing construction does;
    when construction succeeds the configuration holds every supplied value
    as it was given. *)
Theorem createRest_fails_iff (token : string) (options : RestOptions) :
  timeout options <> Some (JsNum NaN) ->
  ((exists e, createRest token options = inl e) <->
   listedMalformed options \/
   invalidField validUserAgent (userAgent options)) /\
  (forall e, createRest token options = inl e -> exists what, e = TypeError what) /\
  (forall rest,
      createRest token options = inr rest ->
      (forall v, authType options = Some v -> Config.authType (config rest) = v) /\
      (forall v, version options = Some v -> Config.version (config rest) = v) /\
      (forall v, retries options = Some v -> Config.retries (config rest) = v) /\
      (forall v, timeout options = Some v -> Config.timeout (config rest) = v) /\
      (forall v, userAgent options = Some v ->
                 Config.userAgent (config rest) = Some v)).
Proof.
  intros HNaN. split; [|split].
  - transitivity (exists e, validateOptions options = Some e).
    { unfold createRest. destruct (validateOptions options) as [e|].
      - split; intros _; eauto.
      - split; intros [e He]; discriminate. }
    rewrite validateOptions_throws_iff. unfold listedMalformed.
    rewrite (rejects_iff badAuthType validAuthType)
      by (intros; apply badAuthType_false).
    rewrite (rejects_iff badVersion validVersion)
      by (intros; apply badVersion_false).
    rewrite (rejects_iff badRetries validRetries)
      by (intros; apply badRetries_false).
    rewrite (rejects_iff badUserAgent validUserAgent)
      by (intros; apply badUserAgent_false).
    rewrite (rejects_iff badTimeout validTimeout).
    + tauto.
    + intros v Hv. rewrite badTimeout_false. split; [|auto].
      intros [H| ->]; [assumption | contradiction].
  - unfold createRest. intros e.
    destruct (validateOptions options) as [e'|] eqn:E; [|discriminate].
    intros [= <-]. now apply validateOptions_TypeError in E.
  - unfold createRest. intros rest.
    destruct (validateOptions options); [discriminate|].
    intros [= <-]; simpl.
    repeat split; intros v ->; reflexivity.
Qed.

Lemma createRest_fails_iff_witness :
  (exists e,
      createRest "token"
        {| authType := None; version := None; userAgent := None;
           retries := Some (jsInt (-1)); timeout := None |} = inl e) /\
  (forall rest,
      createRest "token"
        {| authType := None; version := None; userAgent := None;
           retries := Some (jsInt 5); timeout := Some (jsInt 250) |} = inr rest ->
      Config.retries (config rest) = jsInt 5 /\
      Config.timeout (config rest) = jsInt 250).
Proof.
  split.
  - apply (proj2 (proj1 (createRest_fails_iff "token"
             {| authType := None; version := None; userAgent := None;
                retries := Some (jsInt (-1)); timeout := None |}
             ltac:(discriminate)))).
    left. right. right. left.
    exists (jsInt (-1)). split; [reflexivity|].
    intros (q & k & Hq & Hk & Hpos). injection Hq as <-.
    unfold Qeq in Hk. simpl in Hk. lia.
  - intros rest Hrest.
    destruct (proj2 (proj2 (createRest_fails_iff "token"
                {| authType := None; version := None; userAgent := None;
                   retries := Some (jsInt 5); timeout := Some (jsInt 250) |}
                ltac:(discriminate))) rest Hrest)
      as (_ & _ & Hretries & Htimeout & _).
    split; [apply Hretries | apply Htimeout]; reflexivity.
Defined.

(** ** Dispatcher *)

Section DispatcherFacts.

Variable env : Env.t.

Implicit Types (w : World) (method route key : string)
  (opts : RequestOptions.t) (body : option FetchBody)
  (headers : gmap string string).

Lemma backoffs_app (l1 l2 : list Event) :
  backoffs (l1 ++ l2) = backoffs l1 ++ backoffs l2.
Proof. apply List.flat_map_app. Qed.

Lemma transfers_app (l1 l2 : list Event) :
  transfers (l1 ++ l2) = transfers l1 ++ transfers l2.
Proof. apply List.filter_app. Qed.

Lemma quiet_refl w : quiet w w.
Proof. repeat split. Qed.

Lemma quiet_sleep_acquire w ms : quiet w (snd (sleep AcquireDelay ms w)).
Proof.
  unfold quiet; simpl. rewrite transfers_app, backoffs_app; simpl.
  now rewrite !app_nil_r.
Qed.

(** On a manager without pending settle promises [acquire] returns, after
    at most a sleep of its own. *)
Lemma acquire_idle key w :
  idle (manager w) ->
  exists w', acquire key w = (Returned tt, w') /\ quiet w w'.
Proof.
  intros Hidle. unfold acquire, bind, dateNow, withManager.
  destruct (getDelay (clock w) key (manager w) >? 0).
  - exists (snd (sleep AcquireDelay (getDelay (clock w) key (manager w)) w)).
    split; [|apply quiet_sleep_acquire].
    simpl. destruct (get key (manager w)) as [b|] eqn:E; [|reflexivity].
    now rewrite (Hidle _ _ E).
  - exists w. split; [|apply quiet_refl].
    simpl. destruct (get key (manager w)) as [b|] eqn:E; [|reflexivity].
    now rewrite (Hidle _ _ E).
Qed.

(** *** Attachments *)

Lemma mapFiles_too_large maxSize i (files : list FileData.t) file :
  In file files -> FileData.size file > maxSize ->
  exists f,
    In f files /\ FileData.size f > maxSize /\
    mapFiles maxSize i files =
    inl (FileTooLargeError (FileData.name f) (FileData.size f) maxSize).
Proof.
  revert i. induction files as [|f0 files IH]; intros i Hin Hbig; [destruct Hin|].
  simpl. unfold createFileAttachment.
  destruct (Z.gtb_spec (Z.of_nat (String.length (FileData.data f0))) maxSize)
    as [Hf0|Hf0].
  - exists f0. unfold FileData.size. repeat split; auto. lia.
  - destruct Hin as [<-|Hin]; [unfold FileData.size in Hbig; lia|].
    destruct (IH (S i) Hin Hbig) as (f & Hf & Hsize & ->).
    exists f. auto.
Qed.

Lemma mapFiles_throws maxSize i (files : list FileData.t) e :
  mapFiles maxSize i files = inl e ->
  exists name size, e = FileTooLargeError name size maxSize.
Proof.
  revert i. induction files as [|f0 files IH]; intros i; simpl; [discriminate|].
  unfold createFileAttachment.
  destruct (_ >? maxSize); [intros [= <-]; eauto|].
  destruct (mapFiles maxSize (S i) files) eqn:E; [|discriminate].
  intros [= <-]. eauto.
Qed.

Lemma buildBody_throws opts e :
  buildBody env opts = inl e -> raisable e.
Proof.
  unfold buildBody. destruct (hasFiles _).
  - destruct (mapFiles _ _ _) eqn:E; [|discriminate].
    intros [= <-]. apply mapFiles_throws in E as (name & size & ->). exact I.
  - destruct (RequestOptions.body opts) as [b|]; [destruct (truthyBody b)|];
      discriminate.
Qed.

(** *** One attempt *)

Lemma attempt_outlasts method route key body w :
  outlasts env (fetched w) ->
  attempt env method route key body w =
  (Threw AbortError, transferStarted w method route body (Env.timeout env)).
Proof.
  unfold outlasts, attempt, bind, fetch.
  destruct (Env.server env (fetched w)) as [after response|]; [|reflexivity].
  intros Hlate. destruct (Z.ltb_spec after (Env.timeout env)); [lia | reflexivity].
Qed.

Lemma modifyManager_update_idle key rl w :
  idle (manager w) -> idle (manager (snd (modifyManager (update key rl) w))).
Proof. simpl. apply update_idle. Qed.

Lemma attempt_serverError method route key body w response j :
  serverError env (fetched w) response j ->
  exists w',
    attempt env method route key body w =
    (Threw (RestError_fromResponse j (Response.status response)
              (parseRateLimitHeaders (Response.headers response))), w') /\
    fetched w' = S (fetched w) /\
    log w' = log w ++ [Fetched method route body] /\
    (idle (manager w) -> idle (manager w')).
Proof.
  intros (after & Hreply & Hlt & H500 & Hjson).
  assert ((Response.status response =? 429) = false) as E429
      by (apply Z.eqb_neq; lia).
  assert ((Response.status response =? 204) = false) as E204
      by (apply Z.eqb_neq; lia).
  assert (Response.ok response = false) as Eok.
  { unfold Response.ok. apply andb_false_iff. right. apply Z.leb_gt. lia. }
  apply Z.ltb_lt in Hlt.
  unfold attempt, bind, fetch, responseJson.
  rewrite Hreply, Hlt, E429, E204, Hjson, Eok.
  destruct (parseRateLimitHeaders (Response.headers response)) as [rl|];
    simpl; eexists; (split; [reflexivity|]); simpl; repeat split; auto.
  apply update_idle.
Qed.

(** [handleRateLimit] always throws, a rate-limit error or the parse error
    of the body, and starts no transfer. *)
Lemma handleRateLimit_throws response key w :
  exists e w',
    handleRateLimit response key w = (Threw e, w') /\
    raisable e /\
    fetched w' = fetched w /\
    (idle (manager w) -> idle (manager w')).
Proof.
  cbv beta iota zeta delta
    [handleRateLimit responseJson bind ret throw modifyManager dateNow].
  destruct (Response.json response) as [data|].
  - destruct (Json.global data),
      (parseRateLimitHeaders (Response.headers response));
      do 2 eexists; (split; [reflexivity|]); simpl; repeat split;
      auto using update_idle, setGlobalReset_idle.
  - do 2 eexists. split; [reflexivity|]. simpl. auto.
Qed.

(** Whatever the remote end does, an attempt starts one transfer, keeps the
    manager free of settle promises and ends by returning or by throwing
    one of the errors of [raisable]. *)
Lemma attempt_sound method route key body w c w' :
  attempt env method route key body w = (c, w') ->
  fetched w' = S (fetched w) /\
  (idle (manager w) -> idle (manager w')) /\
  settled c.
Proof.
  unfold attempt, fetch. unfold bind at 1.
  destruct (Env.server env (fetched w)) as [after response|];
    [destruct (after <? Env.timeout env)|];
    try (intros [= <- <-]; simpl; auto).
  set (w1 := transferStarted w method route body (Z.max 0 after)).
  assert (exists w2, forall k : unit -> Async RestResponse.t,
            ((match parseRateLimitHeaders (Response.headers response) with
              | Some rl => modifyManager (update key rl)
              | None => ret tt
              end) >> k tt)%async w1 = k tt w2 /\
            fetched w2 = S (fetched w) /\
            (idle (manager w) -> idle (manager w2))) as (w2 & Hw2).
  { destruct (parseRateLimitHeaders (Response.headers response)) as [rl|].
    - eexists. intros k. split; [reflexivity|]. simpl. auto using update_idle.
    - exists w1. intros k. split; [reflexivity|]. simpl. auto. }
  destruct (Hw2 (fun _ =>
     ((if Response.status response =? 429
       then handleRateLimit response key else ret tt) >>
      (if Response.status response =? 204
       then ret {| RestResponse.data := None;
                   RestResponse.status := Response.status response;
                   RestResponse.headers := Response.headers response;
                   RestResponse.rateLimit :=
                     parseRateLimitHeaders (Response.headers response) |}
       else
         let* responseData := responseJson response in
         if negb (Response.ok response)
         then throw (RestError_fromResponse responseData
                       (Response.status response)
                       (parseRateLimitHeaders (Response.headers response)))
         else ret {| RestResponse.data := Some responseData;
                     RestResponse.status := Response.status response;
                     RestResponse.headers := Response.headers response;
                     RestResponse.rateLimit :=
                       parseRateLimitHeaders (Response.headers response) |}))%async))
    as (-> & Hf2 & Hidle2).
  clear Hw2. unfold bind at 1.
  destruct (Response.status response =? 429).
  - destruct (handleRateLimit_throws response key w2)
      as (e & w3 & -> & He & Hf3 & Hidle3).
    intros [= <- <-]. repeat split; [congruence | auto | exact He].
  - unfold ret at 1, responseJson, bind, ret, throw.
    destruct (Response.status response =? 204);
      [|destruct (Response.json response);
        [destruct (negb (Response.ok response))|]];
      intros [= <- <-]; simpl; auto.
Qed.

(** *** The retry loop *)

Lemma requestFrom_unfold fuel method route opts retryCount :
  requestFrom (S fuel) env method route opts retryCount =
  (acquire (getRouteKey method route) >>
   match buildHeaders (Env.client env) opts with
   | inl refused => throw (HeadersTypeError refused)
   | inr _ =>
       let* body := liftSum (buildBody env opts) in
       tryCatch
         (attempt env method route (getRouteKey method route) body)
         (fun error =>
            match error with
            | RateLimitError retryAfter _ _ =>
                if (retryCount <? Env.retries env)%nat
                then sleep RetryAfter (retryAfter * 1000) >>
                     requestFrom fuel env method route opts (S retryCount)
                else throw error
            | RestError status _ _ _ _ =>
                if (status >=? 500) && (retryCount <? Env.retries env)%nat
                then sleep Backoff (1000 * (Z.of_nat retryCount + 1)) >>
                     requestFrom fuel env method route opts (S retryCount)
                else throw error
            | _ => throw error
            end)
   end)%async.
Proof. reflexivity. Qed.

(** When the headers are accepted, their assembly leaves no trace. *)
Lemma requestFrom_S fuel method route opts retryCount
    (headers : gmap string string) :
  buildHeaders (Env.client env) opts = inr headers ->
  requestFrom (S fuel) env method route opts retryCount =
  (acquire (getRouteKey method route) >>
   let* body := liftSum (buildBody env opts) in
   tryCatch
     (attempt env method route (getRouteKey method route) body)
     (fun error =>
        match error with
        | RateLimitError retryAfter _ _ =>
            if (retryCount <? Env.retries env)%nat
            then sleep RetryAfter (retryAfter * 1000) >>
                 requestFrom fuel env method route opts (S retryCount)
            else throw error
        | RestError status _ _ _ _ =>
            if (status >=? 500) && (retryCount <? Env.retries env)%nat
            then sleep Backoff (1000 * (Z.of_nat retryCount + 1)) >>
                 requestFrom fuel env method route opts (S retryCount)
            else throw error
        | _ => throw error
        end))%async.
Proof.
  intros Hheaders. rewrite requestFrom_unfold, Hheaders. reflexivity.
Qed.

(** With fuel beyond the retries that remain, a call on a manager without
    settle promises settles: it returns or throws one of the errors of
    [raisable], and the manager is still without settle promises. *)
Lemma requestFrom_settles fuel :
  forall method route opts retryCount w,
    idle (manager w) ->
    (Env.retries env - retryCount < fuel)%nat ->
    exists c w',
      requestFrom fuel env method route opts retryCount w = (c, w') /\
      settled c /\ idle (manager w').
Proof.
  induction fuel as [|fuel IH]; intros method route opts rc w Hidle Hfuel; [lia|].
  destruct (acquire_idle (getRouteKey method route) w Hidle)
    as (w1 & Hacq & Hm1 & _).
  assert (idle (manager w1)) as Hidle1 by now rewrite Hm1.
  destruct (buildHeaders (Env.client env) opts) as [refused|headers]
    eqn:Hheaders.
  { rewrite requestFrom_unfold. unfold bind. rewrite Hacq, Hheaders.
    exists (Threw (HeadersTypeError refused)), w1.
    split; [reflexivity|]. split; [exact I | exact Hidle1]. }
  rewrite (requestFrom_S _ _ _ _ _ _ Hheaders).
  unfold bind at 1. rewrite Hacq.
  destruct (buildBody env opts) as [e|body] eqn:Ebody.
  { exists (Threw e), w1. repeat split; [|assumption].
    now apply buildBody_throws in Ebody. }
  unfold liftSum, bind at 1, ret, tryCatch.
  destruct (attempt env method route (getRouteKey method route) body w1)
    as [c w2] eqn:Eatt.
  apply attempt_sound in Eatt as (_ & Hidle2 & Hc).
  specialize (Hidle2 Hidle1).
  assert ((rc < Env.retries env)%nat ->
          forall ms site,
            exists c' w',
              (sleep site ms >>
               requestFrom fuel env method route opts (S rc))%async w2 = (c', w') /\
              settled c' /\ idle (manager w')) as Hretry.
  { intros Hlt ms site. unfold bind, sleep.
    apply IH; [exact Hidle2 | lia]. }
  destruct c as [a|e| |]; try contradiction.
  - exists (Returned a), w2. auto.
  - destruct e; simpl in Hc; try contradiction;
      try (eexists _, w2; split; [reflexivity | now auto]).
    + destruct (Nat.ltb_spec rc (Env.retries env)); [now apply Hretry|].
      eexists _, w2. split; [reflexivity | auto].
    + destruct (Nat.ltb_spec rc (Env.retries env)) as [Hlt|Hge].
      * destruct (status >=? 500); [now apply Hretry|].
        eexists _, w2. split; [reflexivity | auto].
      * rewrite andb_false_r.
        eexists _, w2. split; [reflexivity | auto].
Qed.

End DispatcherFacts.

Section RetryFacts.

Variable env : Env.t.

Implicit Types (w : World) (method route : string)
  (opts : RequestOptions.t) (body : option FetchBody)
  (headers : gmap string string).

(** A transfer that outlasts the timer ends the call at once with the abort
    error of [fetch]: the [catch] clause has no case for it. *)
Lemma requestFrom_outlasts fuel method route opts headers body retryCount w :
  idle (manager w) ->
  buildHeaders (Env.client env) opts = inr headers ->
  buildBody env opts = inr body ->
  outlasts env (fetched w) ->
  exists w',
    requestFrom (S fuel) env method route opts retryCount w =
      (Threw AbortError, w') /\
    fetched w' = S (fetched w) /\
    transfers (log w') = transfers (log w) ++ [Fetched method route body] /\
    backoffs (log w') = backoffs (log w).
Proof.
  intros Hidle Hheaders Hbody Hlate.
  rewrite (requestFrom_S _ _ _ _ _ _ _ Hheaders).
  destruct (acquire_idle (getRouteKey method route) w Hidle)
    as (w1 & Hacq & Hm1 & Hf1 & Ht1 & Hb1).
  unfold bind at 1. rewrite Hacq, Hbody.
  unfold liftSum, bind at 1, ret, tryCatch.
  rewrite attempt_outlasts by now rewrite Hf1.
  eexists. split; [reflexivity|]. simpl.
  rewrite transfers_app, backoffs_app, Hf1, Ht1, Hb1. simpl.
  now rewrite app_nil_r.
Qed.

(** As long as the answers are server errors the call goes through the whole
    retry budget: with [n] retries left it makes [n + 1] transfers, sleeps
    [1000 * (retryCount + 1)] before each retry, and then throws the error
    built from the last answer. *)
Lemma requestFrom_serverErrors method route opts headers body n :
  buildHeaders (Env.client env) opts = inr headers ->
  buildBody env opts = inr body ->
  forall fuel retryCount w,
    (retryCount + n = Env.retries env)%nat ->
    (n < fuel)%nat ->
    idle (manager w) ->
    (forall i, (i <= n)%nat ->
               exists r j, serverError env (fetched w + i) r j) ->
    exists w' last j,
      requestFrom fuel env method route opts retryCount w =
        (Threw (RestError_fromResponse j (Response.status last)
                  (parseRateLimitHeaders (Response.headers last))), w') /\
      serverError env (fetched w + n) last j /\
      fetched w' = (fetched w + S n)%nat /\
      backoffs (log w') =
        backoffs (log w) ++
        map (fun k => 1000 * Z.of_nat k) (seq (S retryCount) n) /\
      transfers (log w') =
        transfers (log w) ++ repeat (Fetched method route body) (S n).
Proof.
  intros Hheaders Hbody.
  induction n as [|n IH]; intros fuel rc w Hrc Hfuel Hidle Hserver;
    (destruct fuel as [|fuel]; [lia|]);
    rewrite (requestFrom_S _ _ _ _ _ _ _ Hheaders);
    destruct (acquire_idle (getRouteKey method route) w Hidle)
      as (w1 & Hacq & Hm1 & Hf1 & Ht1 & Hb1);
    unfold bind at 1; rewrite Hacq, Hbody;
    unfold liftSum, bind at 1, ret, tryCatch;
    destruct (Hserver 0%nat ltac:(lia)) as (r & j & Hse);
    rewrite Nat.add_0_r, <- Hf1 in Hse;
    destruct (attempt_serverError env method route (getRouteKey method route)
                body w1 r j Hse) as (w2 & -> & Hf2 & Hlog2 & Hidle2);
    assert (idle (manager w2)) as Hidle2' by (apply Hidle2; now rewrite Hm1);
    assert ((Response.status r >=? 500) = true) as H500
      by (destruct Hse as (? & _ & _ & H & _); apply Z.geb_le; lia);
    unfold RestError_fromResponse at 1; rewrite H500.
  - (* no retry left *)
    assert ((rc <? Env.retries env)%nat = false) as ->
      by (apply Nat.ltb_ge; lia).
    change (true && false) with false. cbv beta iota.
    exists w2, r, j.
    split; [reflexivity|].
    rewrite Nat.add_0_r, <- Hf1. split; [exact Hse|].
    rewrite Hf2, Hlog2, transfers_app, backoffs_app, Hf1, Ht1, Hb1. simpl.
    rewrite !app_nil_r. repeat split. lia.
  - (* one more retry *)
    assert ((rc <? Env.retries env)%nat = true) as ->
      by (apply Nat.ltb_lt; lia).
    change (true && true) with true. unfold bind, sleep. cbv beta iota.
    match goal with
    | |- context [requestFrom fuel env method route opts (S rc) ?w3] =>
        destruct (IH fuel (S rc) w3) as (w' & last & j' & -> & Hlast & Hf & Hb & Ht)
    end.
    + lia.
    + lia.
    + exact Hidle2'.
    + intros i Hi. simpl fetched. rewrite Hf2, Hf1.
      replace (S (fetched w) + i)%nat with (fetched w + S i)%nat by lia.
      apply Hserver. lia.
    + exists w', last, j'. split; [reflexivity|].
      simpl fetched in Hlast, Hf. simpl log in Hb, Ht.
      rewrite Hf2, Hf1 in Hlast, Hf.
      replace (S (fetched w) + n)%nat with (fetched w + S n)%nat in Hlast by lia.
      split; [exact Hlast|]. split; [lia|].
      rewrite Hlog2 in Hb, Ht.
      rewrite !backoffs_app, Hb1 in Hb. rewrite !transfers_app, Ht1 in Ht.
      simpl in Hb, Ht. rewrite !app_nil_r in Hb, Ht.
      split.
      * rewrite Hb, <- app_assoc. f_equal. simpl. f_equal. f_equal. lia.
      * rewrite Ht, <- app_assoc. reflexivity.
Qed.

(** The backoffs [1000 * 1, 1000 * 2, ...] grow strictly. *)
Lemma backoff_schedule_increasing (n a b : nat) (x y : Z) :
  (a < b)%nat ->
  nth_error (map (fun k => 1000 * Z.of_nat k) (seq 1 n)) a = Some x ->
  nth_error (map (fun k => 1000 * Z.of_nat k) (seq 1 n)) b = Some y ->
  x < y.
Proof.
  intros Hab Ha Hb.
  rewrite nth_error_map in Ha, Hb.
  destruct (nth_error (seq 1 n) a) as [ka|] eqn:Eka; [|discriminate].
  destruct (nth_error (seq 1 n) b) as [kb|] eqn:Ekb; [|discriminate].
  injection Ha as <-. injection Hb as <-.
  assert (a < length (seq 1 n))%nat as Hla
      by (apply nth_error_Some; congruence).
  assert (b < length (seq 1 n))%nat as Hlb
      by (apply nth_error_Some; congruence).
  rewrite length_seq in Hla, Hlb.
  rewrite (nth_error_nth' _ 0%nat) in Eka by now rewrite length_seq.
  rewrite (nth_error_nth' _ 0%nat) in Ekb by now rewrite length_seq.
  rewrite seq_nth in Eka, Ekb by assumption.
  injection Eka as <-. injection Ekb as <-. lia.
Qed.

End RetryFacts.

(** A call on a manager without settle promises settles, whatever the remote
    end does, and what it throws is never a [TimeoutError]. *)
Lemma request_settles (env : Env.t) (method route : string)
    (opts : RequestOptions.t) (w : World) :
  idle (manager w) ->
  exists c w',
    request env method route opts w = (c, w') /\
    settled c /\ idle (manager w') /\
    forall t, c <> Threw (TimeoutError t).
Proof.
  intros Hidle. unfold request.
  destruct (requestFrom_settles env (S (Env.retries env)) method route opts 0 w
              Hidle ltac:(lia)) as (c & w' & Hreq & Hc & Hidle').
  exists c, w'. repeat split; try assumption.
  intros t ->. exact Hc.
Qed.

(** C3, the claim as stated fails: [buildHeaders] runs before [buildBody],
    so a request with an oversized file and a header name the [Headers]
    object refuses ends with the [TypeError] of the header, not with the
    size error. *)
Lemma request_large_file_refused_header :
  ~ (forall (env : Env.t) (method route : string) (opts : RequestOptions.t)
            (w : World) (files : list FileData.t) (file : FileData.t),
        idle (manager w) ->
        RequestOptions.files opts = Some files ->
        In file files ->
        FileData.size file > Env.maxSize env ->
        exists f w',
          request env method route opts w =
            (Threw (FileTooLargeError (FileData.name f) (FileData.size f)
                      (Env.maxSize env)), w')).
Proof.
  intros H.
  pose (large := {| FileData.name := "b.png"; FileData.data := "0123456789";
                    FileData.contentType := Some "image/png" |}).
  destruct (H {| Env.retries := 3; Env.timeout := 15000; Env.maxSize := 5;
                 Env.server := fun _ => Silent;
                 Env.client :=
                   mkRest (mergeOptions DEFAULT_OPTIONS
                             (mkRestOptions None None None None None))
                     "token" createBucketManager |}
              "POST" "/channels/1/messages"
              {| RequestOptions.body := None;
                 RequestOptions.files := Some [large];
                 RequestOptions.query := None; RequestOptions.reason := None;
                 RequestOptions.auth := None;
                 RequestOptions.headers := Some [("bad name", "x")] |}
              {| manager := createBucketManager; clock := 0; fetched := 0;
                 log := [] |}
              [large] large)
    as (f & w' & Hreq).
  - apply createBucketManager_idle.
  - reflexivity.
  - simpl. auto.
  - vm_compute. reflexivity.
  - vm_compute in Hreq. discriminate Hreq.
Qed.

(** C3.  Spec-modelled attachment check.  When the headers of the request
    are accepted and one of the attached files is larger than the ceiling,
    the call fails with the size error of an oversized attached file (its
    name, its size, the ceiling), and no transfer was started. *)
Theorem request_rejects_large_file (env : Env.t) (method route : string)
    (opts : RequestOptions.t) (headers : gmap string string) (w : World)
    (files : list FileData.t) (file : FileData.t) :
  idle (manager w) ->
  buildHeaders (Env.client env) opts = inr headers ->
  RequestOptions.files opts = Some files ->
  In file files ->
  FileData.size file > Env.maxSize env ->
  exists f w',
    request env method route opts w =
      (Threw (FileTooLargeError (FileData.name f) (FileData.size f)
                (Env.maxSize env)), w') /\
    In f files /\
    FileData.size f > Env.maxSize env /\
    fetched w' = fetched w /\
    transfers (log w') = transfers (log w).
Proof.
  intros Hidle Hheaders Hfiles Hin Hbig.
  destruct (mapFiles_too_large (Env.maxSize env) 0 files file Hin Hbig)
    as (f & Hf & Hfbig & Hmap).
  unfold request. rewrite (requestFrom_S _ _ _ _ _ _ _ Hheaders).
  destruct (acquire_idle (getRouteKey method route) w Hidle)
    as (w1 & Hacq & Hm1 & Hf1 & Ht1 & Hb1).
  unfold bind at 1. rewrite Hacq.
  assert (buildBody env opts =
          inl (FileTooLargeError (FileData.name f) (FileData.size f)
                 (Env.maxSize env))) as ->.
  { unfold buildBody. rewrite Hfiles.
    destruct files as [|f0 files']; [destruct Hin|].
    cbn [hasFiles nullish]. now rewrite Hmap. }
  exists f, w1. repeat split; assumption.
Qed.

Lemma request_rejects_large_file_witness :
  let env := {| Env.retries := 3; Env.timeout := 15000; Env.maxSize := 5;
                Env.server := fun _ => Silent;
                Env.client :=
                  mkRest (mergeOptions DEFAULT_OPTIONS
                            (mkRestOptions None None None None None))
                    "token" createBucketManager |} in
  let small := {| FileData.name := "a.txt"; FileData.data := "abc";
                  FileData.contentType := None |} in
  let large := {| FileData.name := "b.png"; FileData.data := "0123456789";
                  FileData.contentType := Some "image/png" |} in
  let opts := {| RequestOptions.body := None;
                 RequestOptions.files := Some [small; large];
                 RequestOptions.query := None; RequestOptions.reason := None;
                 RequestOptions.auth := None; RequestOptions.headers := None |} in
  let w := {| manager := createBucketManager; clock := 0; fetched := 0;
              log := [] |} in
  exists f w',
    request env "POST" "/channels/1/messages" opts w =
      (Threw (FileTooLargeError (FileData.name f) (FileData.size f) 5), w') /\
    In f [small; large] /\
    FileData.size f > 5 /\
    fetched w' = 0%nat /\
    transfers (log w') = [].
Proof.
  intros env small large opts w.
  assert (exists headers, buildHeaders (Env.client env) opts = inr headers)
    as [headers Hheaders] by (eexists; reflexivity).
  apply (request_rejects_large_file env "POST" "/channels/1/messages" opts
           headers w [small; large] large).
  - apply createBucketManager_idle.
  - exact Hheaders.
  - reflexivity.
  - simpl. auto.
  - vm_compute. reflexivity.
Defined.

(** C4 (as the code behaves where it departs from the claim).  A transfer
    the remote end never answers, under a timeout of 15000 ms and a retry
    budget of 3: the call throws the abort error of [fetch] after one
    transfer and no retry, and this is not a [TimeoutError] carrying the
    configured timeout. *)
Theorem request_timeout_throws_abort_error :
  let env := {| Env.retries := 3; Env.timeout := 15000; Env.maxSize := 26214400;
                Env.server := fun _ => Silent;
                Env.client :=
                  mkRest (mergeOptions DEFAULT_OPTIONS
                            (mkRestOptions None None None None None))
                    "token" createBucketManager |} in
  let opts := {| RequestOptions.body := None; RequestOptions.files := None;
                 RequestOptions.query := None; RequestOptions.reason := None;
                 RequestOptions.auth := None; RequestOptions.headers := None |} in
  let w := {| manager := createBucketManager; clock := 1700000000000;
              fetched := 0; log := [] |} in
  request env "GET" "/users/1" opts w =
    (Threw AbortError,
     {| manager := createBucketManager; clock := 1700000015000;
        fetched := 1; log := [Fetched "GET" "/users/1" None] |}) /\
  AbortError <> TimeoutError (Env.timeout env).
Proof.
  split; [vm_compute; reflexivity | discriminate].
Qed.

(** C7.  For a request whose headers and body are assembled:
    when every answer is a server error (status 500 or more, JSON
    body), the call makes one transfer more than the retry budget, sleeps
    [1000 * k] milliseconds before the k-th retry, a strictly growing
    sequence, and then throws the API error built from the last answer,
    with that answer's status. *)
Theorem request_retries_server_errors (env : Env.t) (method route : string)
    (opts : RequestOptions.t) (headers : gmap string string)
    (body : option FetchBody) (w : World) :
  idle (manager w) ->
  buildHeaders (Env.client env) opts = inr headers ->
  buildBody env opts = inr body ->
  (forall i, (i <= Env.retries env)%nat ->
             exists r j, serverError env (fetched w + i) r j) ->
  exists w' last j,
    request env method route opts w =
      (Threw (RestError (Response.status last) (Json.code j) (Json.message j)
                (Json.errors j)
                (parseRateLimitHeaders (Response.headers last))), w') /\
    serverError env (fetched w + Env.retries env) last j /\
    fetched w' = (fetched w + S (Env.retries env))%nat /\
    backoffs (log w') =
      backoffs (log w) ++
      map (fun k => 1000 * Z.of_nat k) (seq 1 (Env.retries env)) /\
    (forall a b x y,
        (a < b)%nat ->
        nth_error (map (fun k => 1000 * Z.of_nat k) (seq 1 (Env.retries env))) a
          = Some x ->
        nth_error (map (fun k => 1000 * Z.of_nat k) (seq 1 (Env.retries env))) b
          = Some y ->
        x < y).
Proof.
  intros Hidle Hheaders Hbody Hserver. unfold request.
  destruct (requestFrom_serverErrors env method route opts headers body
              (Env.retries env) Hheaders Hbody (S (Env.retries env)) 0 w
              eq_refl ltac:(lia) Hidle Hserver)
    as (w' & last & j & Hreq & Hlast & Hf & Hb & _).
  exists w', last, j. repeat split; try assumption.
  intros a b x y. apply backoff_schedule_increasing.
Qed.

Lemma request_retries_server_errors_witness :
  let failure :=
    {| Response.status := 503;
       Response.headers :=
         {| Headers.X_RateLimit_Limit := None;
            Headers.X_RateLimit_Remaining := None;
            Headers.X_RateLimit_Reset := None;
            Headers.X_RateLimit_Reset_After := None;
            Headers.X_RateLimit_Bucket := None;
            Headers.X_RateLimit_Global := None;
            Headers.X_RateLimit_Scope := None |};
       Response.json :=
         Some {| Json.message := "Service Unavailable"; Json.retry_after := 0;
                 Json.global := false; Json.code := 0; Json.errors := None |} |} in
  let env := {| Env.retries := 2; Env.timeout := 15000; Env.maxSize := 26214400;
                Env.server := fun _ => Replies 20 failure;
                Env.client :=
                  mkRest (mergeOptions DEFAULT_OPTIONS
                            (mkRestOptions None None None None None))
                    "token" createBucketManager |} in
  let opts := {| RequestOptions.body := None; RequestOptions.files := None;
                 RequestOptions.query := None; RequestOptions.reason := None;
                 RequestOptions.auth := None; RequestOptions.headers := None |} in
  let w := {| manager := createBucketManager; clock := 0; fetched := 0;
              log := [] |} in
  exists w',
    fst (request env "GET" "/guilds/1" opts w) =
      Threw (RestError 503 0 "Service Unavailable" None None) /\
    snd (request env "GET" "/guilds/1" opts w) = w' /\
    fetched w' = 3%nat /\
    backoffs (log w') = [1000; 2000].
Proof.
  intros failure env opts w.
  assert (exists headers, buildHeaders (Env.client env) opts = inr headers)
    as [headers Hheaders] by (eexists; reflexivity).
  destruct (request_retries_server_errors env "GET" "/guilds/1" opts headers None
              w)
    as (w' & last & j & Hreq & Hlast & Hf & Hb & _).
  - apply createBucketManager_idle.
  - exact Hheaders.
  - reflexivity.
  - intros i _. exists failure. eexists. exists 20.
    repeat split; simpl; lia.
  - exists w'. rewrite Hreq. simpl fst. simpl snd.
    destruct Hlast as (after & Hsrv & _ & _ & Hj).
    injection Hsrv as _ <-. injection Hj as <-.
    repeat split; assumption.
Defined.

(** * Further properties *)

(** ** Bucket manager: sharing, framing, waiting *)

Lemma getDelay_lower_bound (now : Z) (key : string) (m : BucketManager) :
  0 <= getDelay now key m /\ globalReset m <= now + getDelay now key m.
Proof.
  unfold getDelay.
  destruct (Z.gtb_spec (globalReset m) now); [lia|].
  destruct (get key m) as [b|]; [|lia].
  destruct (Z.leb_spec (RateLimitBucket.remaining b) 0);
    destruct (Z.gtb_spec (RateLimitBucket.reset b) now); simpl; lia.
Qed.

(** X1.  Routes that resolve to the same server bucket hash share one
    bucket: after [update] through one route key with a hash that is not
    empty, [get] through any route key already associated with that hash
    yields the snapshot just written, and the settle promise of the bucket
    that was there before is carried over. *)
Theorem update_shared_bucket (key1 key2 : string) (data : RateLimitData.t)
    (m : BucketManager) :
  truthy (RateLimitData.bucket data) = true ->
  bucketKeys m !! key2 = Some (RateLimitData.bucket data) ->
  get key2 (update key1 data m) =
  Some (written data (buckets m !! RateLimitData.bucket data
                        ≫= RateLimitBucket.processing)) /\
  get key1 (update key1 data m) = get key2 (update key1 data m).
Proof.
  intros Hhash Hkey2.
  assert (forall k, bucketKeys (update key1 data m) !! k
                    = Some (RateLimitData.bucket data) ->
                    get k (update key1 data m) =
                    Some (written data (buckets m !! RateLimitData.bucket data
                                          ≫= RateLimitBucket.processing))) as Hget.
  { intros k Hk. unfold get. rewrite Hk. cbn [nullish].
    rewrite update_buckets. apply lookup_insert_eq. }
  assert (forall k, k = key1 \/ k = key2 ->
                    bucketKeys (update key1 data m) !! k
                    = Some (RateLimitData.bucket data)) as Hassoc.
  { intros k Hk. rewrite update_bucketKeys_hashed by assumption.
    destruct (decide (key1 = k)) as [->|Hne].
    - apply lookup_insert_eq.
    - rewrite lookup_insert_ne by assumption.
      destruct Hk as [->| ->]; [congruence | assumption]. }
  rewrite !Hget by auto. split; reflexivity.
Qed.

Lemma update_shared_bucket_witness :
  let data :=
    {| RateLimitData.limit := 5; RateLimitData.remaining := 4;
       RateLimitData.reset := 170; RateLimitData.resetAfter := 1;
       RateLimitData.bucket := "abcd"; RateLimitData.global := false;
       RateLimitData.scope := None |} in
  let m := update "GET:/channels/:id/messages:1" data createBucketManager in
  get "GET:/channels/:id/messages:1"
      (update "POST:/channels/:id/messages:1" data m) =
  Some (written data None).
Proof.
  intros data m.
  exact (proj1 (update_shared_bucket "POST:/channels/:id/messages:1"
                  "GET:/channels/:id/messages:1" data m eq_refl eq_refl)).
Defined.

(** X2.  [update] leaves every other route alone: a route key other than
    the updated one, which does not resolve to the bucket key written,
    finds what it found before. *)
Theorem update_other_route (key key' : string) (data : RateLimitData.t)
    (m : BucketManager) :
  key' <> key ->
  nullish (bucketKeys m !! key') key' <> RateLimitData.bucket data ->
  get key' (update key data m) = get key' m.
Proof.
  intros Hkey Hbucket. unfold get.
  assert (bucketKeys (update key data m) !! key' = bucketKeys m !! key') as ->.
  { destruct (truthy (RateLimitData.bucket data)) eqn:Ht.
    - rewrite update_bucketKeys_hashed by assumption.
      now rewrite lookup_insert_ne by congruence.
    - now rewrite update_bucketKeys_unhashed. }
  rewrite update_buckets. now rewrite lookup_insert_ne by congruence.
Qed.

Lemma update_other_route_witness :
  let data :=
    {| RateLimitData.limit := 5; RateLimitData.remaining := 0;
       RateLimitData.reset := 170; RateLimitData.resetAfter := 1;
       RateLimitData.bucket := "abcd"; RateLimitData.global := false;
       RateLimitData.scope := None |} in
  get "GET:/guilds/:id:2" (update "GET:/guilds/:id:1" data createBucketManager) =
  get "GET:/guilds/:id:2" createBucketManager.
Proof.
  intros data.
  apply (update_other_route "GET:/guilds/:id:1" "GET:/guilds/:id:2" data
           createBucketManager).
  - discriminate.
  - vm_compute. discriminate.
Defined.

(** X3.  [set] stores a bucket under the key itself.  [get] finds it as long
    as no server hash is recorded for the key; once a hash other than the
    key is recorded, [get] follows the hash and what [set] stored under the
    key is not seen. *)
Theorem set_get (key : string) (b : RateLimitBucket.t) (m : BucketManager) :
  (bucketKeys m !! key = None -> get key (set key b m) = Some b) /\
  (forall hash, bucketKeys m !! key = Some hash -> hash <> key ->
                get key (set key b m) = get key m).
Proof.
  unfold get, set; simpl. split.
  - intros ->. apply lookup_insert_eq.
  - intros hash -> Hne. cbn [nullish]. now apply lookup_insert_ne.
Qed.

Lemma set_get_witness :
  let b := {| RateLimitBucket.limit := 1; RateLimitBucket.remaining := 0;
              RateLimitBucket.reset := 9000; RateLimitBucket.processing := None |} in
  let data :=
    {| RateLimitData.limit := 5; RateLimitData.remaining := 4;
       RateLimitData.reset := 170; RateLimitData.resetAfter := 1;
       RateLimitData.bucket := "abcd"; RateLimitData.global := false;
       RateLimitData.scope := None |} in
  get "k" (set "k" b createBucketManager) = Some b /\
  get "k" (set "k" b (update "k" data createBucketManager)) =
  Some (written data None).
Proof.
  intros b data. split.
  - apply (proj1 (set_get "k" b createBucketManager)). reflexivity.
  - rewrite (proj2 (set_get "k" b (update "k" data createBucketManager)) "abcd").
    + reflexivity.
    + reflexivity.
    + discriminate.
Defined.

(** X4.  Waiting out the delay [getDelay] reports ends the global
    suspension; when no global suspension was running, it also ends the
    limit of the route: asked again at that instant, [getDelay] is 0. *)
Theorem getDelay_after_wait (now : Z) (key : string) (m : BucketManager) :
  globalReset m <= now + getDelay now key m /\
  (globalReset m <= now ->
   getDelay (now + getDelay now key m) key m = 0).
Proof.
  split; [apply getDelay_lower_bound|].
  intros Hg. unfold getDelay.
  destruct (Z.gtb_spec (globalReset m) now) as [?|_]; [lia|].
  destruct (get key m) as [b|].
  - destruct (Z.leb_spec (RateLimitBucket.remaining b) 0);
      destruct (Z.gtb_spec (RateLimitBucket.reset b) now); simpl;
      repeat match goal with
             | |- context [?x >? ?y] => destruct (Z.gtb_spec x y)
             | |- context [?x <=? ?y] => destruct (Z.leb_spec x y)
             end; simpl; lia.
  - destruct (Z.gtb_spec (globalReset m) (now + 0)); lia.
Qed.

Lemma getDelay_after_wait_witness :
  let data :=
    {| RateLimitData.limit := 5; RateLimitData.remaining := 0;
       RateLimitData.reset := 2; RateLimitData.resetAfter := 1;
       RateLimitData.bucket := "abcd"; RateLimitData.global := false;
       RateLimitData.scope := None |} in
  let m := update "k" data createBucketManager in
  getDelay (1500 + getDelay 1500 "k" m) "k" m = 0.
Proof.
  intros data m.
  apply (proj2 (getDelay_after_wait 1500 "k" m)). simpl. lia.
Defined.

(** X5.  On a manager without pending settle promises [acquire] returns
    after sleeping exactly the delay [getDelay] reported, without touching
    the manager or the network.  The global suspension is over when it
    returns, and if none was running the route is no longer limited.  When
    the reported delay is 0 it does not sleep at all and leaves the world
    as it was; otherwise it sleeps once, for that delay. *)
Theorem acquire_waits_reported_delay (key : string) (w : World) :
  idle (manager w) ->
  exists w',
    acquire key w = (Returned tt, w') /\
    manager w' = manager w /\
    fetched w' = fetched w /\
    clock w' = clock w + getDelay (clock w) key (manager w) /\
    globalReset (manager w') <= clock w' /\
    (globalReset (manager w) <= clock w ->
     isLimited (clock w') key (manager w') = false) /\
    (getDelay (clock w) key (manager w) = 0 -> w' = w) /\
    (0 < getDelay (clock w) key (manager w) ->
     log w' =
       log w ++ [Slept AcquireDelay (getDelay (clock w) key (manager w))]).
Proof.
  intros Hidle.
  destruct (getDelay_lower_bound (clock w) key (manager w)) as [Hpos Hglobal].
  assert (globalReset (manager w) <= clock w ->
          isLimited (clock w + getDelay (clock w) key (manager w)) key
            (manager w) = false) as Hfree.
  { intros Hg. unfold isLimited.
    assert (getDelay (clock w + getDelay (clock w) key (manager w)) key
              (manager w) = 0) as ->; [|reflexivity].
    unfold getDelay.
    destruct (Z.gtb_spec (globalReset (manager w)) (clock w)) as [?|_]; [lia|].
    destruct (get key (manager w)) as [b|].
    - destruct (Z.leb_spec (RateLimitBucket.remaining b) 0);
        destruct (Z.gtb_spec (RateLimitBucket.reset b) (clock w)); simpl;
        repeat match goal with
               | |- context [?x >? ?y] => destruct (Z.gtb_spec x y)
               | |- context [?x <=? ?y] => destruct (Z.leb_spec x y)
               end; simpl; lia.
    - destruct (Z.gtb_spec (globalReset (manager w)) (clock w + 0)); lia. }
  unfold acquire, bind, dateNow, withManager.
  destruct (Z.gtb_spec (getDelay (clock w) key (manager w)) 0) as [Hd|Hd].
  - eexists. split.
    + simpl. destruct (get key (manager w)) as [b|] eqn:E; [|reflexivity].
      now rewrite (Hidle _ _ E).
    + simpl. rewrite Z.max_r by lia.
      do 4 (split; [auto|]). split; [auto|].
      split; [intros H0; lia | intros _; reflexivity].
  - exists w. split.
    + simpl. destruct (get key (manager w)) as [b|] eqn:E; [|reflexivity].
      now rewrite (Hidle _ _ E).
    + assert (getDelay (clock w) key (manager w) = 0) as H0 by lia.
      rewrite H0 in *. rewrite Z.add_0_r in *.
      do 4 (split; [auto|]). split; [auto|].
      split; [intros _; reflexivity | intros H1; lia].
Qed.

Lemma acquire_waits_reported_delay_witness :
  let data :=
    {| RateLimitData.limit := 5; RateLimitData.remaining := 0;
       RateLimitData.reset := 2; RateLimitData.resetAfter := 1;
       RateLimitData.bucket := "abcd"; RateLimitData.global := false;
       RateLimitData.scope := None |} in
  let w := {| manager := update "k" data createBucketManager;
              clock := 1500; fetched := 0; log := [] |} in
  exists w',
    acquire "k" w = (Returned tt, w') /\
    clock w' = 2000 /\
    log w' = [Slept AcquireDelay 500].
Proof.
  intros data w.
  destruct (acquire_waits_reported_delay "k" w)
    as (w' & Hacq & _ & _ & Hclock & _ & _ & _ & Hslept).
  - apply update_idle, createBucketManager_idle.
  - exists w'. split; [exact Hacq|]. split; [exact Hclock|].
    apply Hslept. vm_compute. reflexivity.
Defined.

(** X6.  [acquire] waits once and does not look again: when a global
    suspension is running and the route's bucket is exhausted until a later
    instant, [acquire] returns when the global suspension ends, while
    [isLimited] still holds for the route and [getDelay] reports the rest of
    the bucket's wait. *)
Theorem acquire_returns_while_limited (key : string) (w : World)
    (b : RateLimitBucket.t) :
  idle (manager w) ->
  clock w < globalReset (manager w) ->
  get key (manager w) = Some b ->
  RateLimitBucket.remaining b <= 0 ->
  globalReset (manager w) < RateLimitBucket.reset b ->
  exists w',
    acquire key w = (Returned tt, w') /\
    clock w' = globalReset (manager w) /\
    isLimited (clock w') key (manager w') = true /\
    getDelay (clock w') key (manager w') =
      RateLimitBucket.reset b - globalReset (manager w).
Proof.
  intros Hidle Hglobal Hget Hrem Hreset.
  assert (getDelay (clock w) key (manager w) = globalReset (manager w) - clock w)
    as Hdelay.
  { unfold getDelay.
    destruct (Z.gtb_spec (globalReset (manager w)) (clock w)); [reflexivity | lia]. }
  assert (getDelay (globalReset (manager w)) key (manager w) =
          RateLimitBucket.reset b - globalReset (manager w)) as Hafter.
  { unfold getDelay. rewrite Hget.
    destruct (Z.gtb_spec (globalReset (manager w)) (globalReset (manager w)));
      [lia|].
    destruct (Z.leb_spec (RateLimitBucket.remaining b) 0); [|lia].
    destruct (Z.gtb_spec (RateLimitBucket.reset b) (globalReset (manager w)));
      [reflexivity | lia]. }
  unfold acquire, bind, dateNow, withManager. rewrite Hdelay.
  destruct (Z.gtb_spec (globalReset (manager w) - clock w) 0); [|lia].
  eexists. split.
  - simpl. rewrite Hget. now rewrite (Hidle _ _ Hget).
  - simpl. rewrite Z.max_r by lia.
    replace (clock w + (globalReset (manager w) - clock w))
      with (globalReset (manager w)) by lia.
    unfold isLimited. rewrite Hafter. repeat split.
    apply Z.gtb_lt. lia.
Qed.

Lemma acquire_returns_while_limited_witness :
  let data :=
    {| RateLimitData.limit := 5; RateLimitData.remaining := 0;
       RateLimitData.reset := 9; RateLimitData.resetAfter := 1;
       RateLimitData.bucket := "abcd"; RateLimitData.global := false;
       RateLimitData.scope := None |} in
  let w := {| manager := setGlobalReset 5000 (update "k" data createBucketManager);
              clock := 1000; fetched := 0; log := [] |} in
  exists w',
    acquire "k" w = (Returned tt, w') /\
    clock w' = 5000 /\
    isLimited (clock w') "k" (manager w') = true.
Proof.
  intros data w.
  destruct (acquire_returns_while_limited "k" w (written data None))
    as (w' & Hacq & Hclock & Hlim & _).
  - apply setGlobalReset_idle, update_idle, createBucketManager_idle.
  - simpl. lia.
  - reflexivity.
  - simpl. lia.
  - simpl. lia.
  - exists w'. repeat split; assumption.
Defined.

(** ** Route keys: verbs, normal form, routes of the resource wrappers *)

Section RouteKeyMore.

Implicit Types (s t pre post d root name : string) (c : ascii).

Local Arguments Ascii.eqb : simpl never.
Local Arguments isDigit : simpl never.
Local Arguments isSlash : simpl never.

Lemma colon_free_prefix_inj s1 s2 t1 t2 :
  hasColon s1 = false -> hasColon s2 = false ->
  s1 +:+ String ":" t1 = s2 +:+ String ":" t2 -> s1 = s2.
Proof.
  revert s2. induction s1 as [|a s1 IH]; intros [|b s2] H1 H2;
    rewrite ?append_nil, ?append_cons; intros Heq.
  - reflexivity.
  - injection Heq as Hc _. subst b. simpl in H2. discriminate.
  - injection Heq as Hc _. subst a. simpl in H1. discriminate.
  - injection Heq as Hc Ht. subst b. simpl in H1, H2.
    apply orb_false_elim in H1 as [_ H1]. apply orb_false_elim in H2 as [_ H2].
    f_equal. now apply (IH s2).
Qed.

Lemma replaceIds_no_digit_head b t :
  startsWithDigit t = false -> replaceIds b t = replaceIds false t.
Proof.
  destruct t as [|c t]; [reflexivity|]. simpl. intros ->.
  now rewrite andb_false_r.
Qed.

Lemma startsWithDigit_replaceIds b s :
  startsWithDigit (replaceIds b s) = true ->
  b = false /\ startsWithDigit s = true.
Proof.
  revert b. induction s as [|c s IH]; intros b; [discriminate|].
  simpl. destruct (isDigit c) eqn:Hc.
  - destruct b; simpl.
    + intros H. now apply IH in H as [[=] _].
    + rewrite (isDigit_not_slash c Hc). simpl. rewrite Hc. auto.
  - rewrite andb_false_r.
    destruct (isSlash c && startsWithDigit s); [discriminate|].
    simpl. rewrite Hc. discriminate.
Qed.

Lemma hasSlashDigit_replaceIds b s : hasSlashDigit (replaceIds b s) = false.
Proof.
  revert b. induction s as [|c s IH]; intros b; [reflexivity|].
  simpl. destruct (b && isDigit c); [apply IH|].
  destruct (isSlash c && startsWithDigit s) eqn:E.
  - change ("/:id" +:+ replaceIds true s)
      with (String "/" (String ":" (String "i" (String "d" (replaceIds true s))))).
    simpl. rewrite IH. reflexivity.
  - simpl. rewrite IH, orb_false_r.
    destruct (isSlash c); [|reflexivity]. simpl in *.
    destruct (startsWithDigit (replaceIds false s)) eqn:E'; [|reflexivity].
    apply startsWithDigit_replaceIds in E' as [_ E']. congruence.
Qed.

Lemma replaceIds_normal s : hasSlashDigit s = false -> replaceIds false s = s.
Proof.
  induction s as [|c s IH]; [reflexivity|].
  simpl. intros H. apply orb_false_elim in H as [H1 H2].
  rewrite H1. f_equal. auto.
Qed.

Lemma noSlash_no_slash_digit s : noSlash s = true -> hasSlashDigit s = false.
Proof.
  induction s as [|c s IH]; [reflexivity|].
  simpl. intros H. apply andb_prop in H as [Hc Hs].
  apply negb_true_iff in Hc. rewrite Hc, (IH Hs). reflexivity.
Qed.

Lemma replaceIds_plain_segment name :
  noSlash name = true -> startsWithDigit name = false ->
  replaceIds false (String "/" name) = String "/" name.
Proof.
  intros Hn Hd. apply replaceIds_normal. simpl.
  rewrite Hd, ?andb_false_r. now apply noSlash_no_slash_digit.
Qed.

Lemma root_plain root :
  In root majorRoots -> noSlash root = true /\ startsWithDigit root = false.
Proof. simpl. intros [<-|[<-|[<-|[]]]]; split; reflexivity. Qed.

Lemma append_nil_r s : s +:+ "" = s.
Proof.
  induction s as [|c s IH]; [reflexivity|]. rewrite append_cons. now f_equal.
Qed.

Lemma replaceIds_last_segment id :
  isNumeric id = true -> replaceIds false (String "/" id) = "/:id".
Proof.
  intros Hid. rewrite <- (append_nil_r id) at 1.
  now rewrite replaceIds_numeric_segment.
Qed.

End RouteKeyMore.

(** X7.  Requests with different verbs never share a key: for verbs without
    a colon (all five HTTP methods of the client), different verbs give
    different keys whatever the routes are. *)
Theorem getRouteKey_method_separates (method1 method2 route1 route2 : string) :
  hasColon method1 = false -> hasColon method2 = false ->
  method1 <> method2 ->
  getRouteKey method1 route1 <> getRouteKey method2 route2.
Proof.
  intros H1 H2 Hne Hkey. apply Hne. unfold getRouteKey in Hkey.
  exact (colon_free_prefix_inj _ _ _ _ H1 H2 Hkey).
Qed.

Lemma getRouteKey_method_separates_witness :
  getRouteKey "PATCH" "/guilds/1/stickers/2" <>
  getRouteKey "DELETE" "/guilds/1/stickers/2".
Proof.
  apply getRouteKey_method_separates; [reflexivity | reflexivity | discriminate].
Defined.

(** X8.  The normalised route has no slash followed by a digit left in it,
    and normalising twice changes nothing more. *)
Theorem replaceIds_normal_form (route : string) :
  hasSlashDigit (replaceIds false route) = false /\
  replaceIds false (replaceIds false route) = replaceIds false route.
Proof.
  split; [apply hasSlashDigit_replaceIds|].
  apply replaceIds_normal, hasSlashDigit_replaceIds.
Qed.

(** X9.  Only the leading digits of a segment are replaced: a segment that
    starts with digits and goes on with something else (an invite code such
    as [123abc]) keeps its tail in the key, so that such segments are not
    collapsed. *)
Theorem replaceIds_partial_segment (pre d t : string) :
  isNumeric d = true -> startsWithDigit t = false ->
  replaceIds false (pre +:+ "/" +:+ d +:+ t) =
  replaceIds false pre +:+ "/:id" +:+ replaceIds false t.
Proof.
  intros Hd Ht.
  rewrite (append_cons "/" ""), append_nil, replaceIds_app_slash.
  f_equal.
  destruct (isNumeric_inv _ Hd) as (c & d' & -> & Hc & Hall).
  rewrite append_cons. simpl replaceIds at 1. rewrite Hc. f_equal.
  simpl in Hall. rewrite Hc in Hall. simpl in Hall.
  rewrite replaceIds_skip_digits by assumption.
  now apply replaceIds_no_digit_head.
Qed.

Lemma replaceIds_partial_segment_witness :
  replaceIds false "/invites/123abc" = "/invites/:idabc".
Proof.
  exact (replaceIds_partial_segment "/invites" "123" "abc" eq_refl eq_refl).
Defined.

(** X10.  Routes of the resource wrappers that address a resource inside a
    guild, channel or webhook, [/{root}/{id}/{name}/{id}] (for example
    [/guilds/{guildId}/stickers/{stickerId}]): the key is the verb, the
    route with both identifiers replaced, and the identifier of the guild,
    channel or webhook. *)
Theorem getRouteKey_scoped_resource (method root major name id : string) :
  In root majorRoots ->
  isNumeric major = true -> isNumeric id = true ->
  noSlash name = true -> startsWithDigit name = false ->
  getRouteKey method ("/" +:+ root +:+ "/" +:+ major +:+ "/" +:+ name +:+ "/" +:+ id) =
  method +:+ ":" +:+ ("/" +:+ root +:+ "/:id/" +:+ name +:+ "/:id") +:+ ":" +:+ major.
Proof.
  intros Hroot Hmajor Hid Hname Hdigit.
  destruct (root_plain _ Hroot) as [Hrs Hrd].
  rewrite !(append_cons "/" ""), !append_nil.
  unfold getRouteKey.
  rewrite (majorParams_at_root root major (String "/" (name +:+ String "/" id)))
    by (assumption || reflexivity).
  cbn [fmap option_fmap option_map snd nullish].
  rewrite <- (append_cons "/" root), replaceIds_app_slash.
  rewrite replaceIds_plain_segment by assumption.
  rewrite replaceIds_numeric_segment by (assumption || reflexivity).
  rewrite <- (append_cons "/" name), replaceIds_app_slash.
  rewrite replaceIds_plain_segment by assumption.
  rewrite replaceIds_last_segment by assumption.
  apply (f_equal (fun x => method +:+ ":" +:+ x +:+ ":" +:+ major)).
  rewrite append_cons. reflexivity.
Qed.

Lemma getRouteKey_scoped_resource_witness :
  getRouteKey "GET" "/guilds/613425648685547541/stickers/749054660769218631" =
  "GET:/guilds/:id/stickers/:id:613425648685547541".
Proof.
  exact (getRouteKey_scoped_resource "GET" "guilds" "613425648685547541"
           "stickers" "749054660769218631"
           ltac:(simpl; auto) eq_refl eq_refl eq_refl eq_refl).
Defined.

(** ** Client options: defaults and the NaN timeout *)

(** X11.  A property that is absent takes its default: scheme [Bot],
    version 10, three retries, a timeout of 15000 ms, and no user agent of
    the caller's; the client starts with the given token and a bucket
    manager that holds nothing. *)
Theorem createRest_defaults (token : string) (options : RestOptions) (rest : Rest) :
  createRest token options = inr rest ->
  (authType options = None -> Config.authType (config rest) = JsStr "Bot") /\
  (version options = None -> Config.version (config rest) = jsInt 10) /\
  (retries options = None -> Config.retries (config rest) = jsInt 3) /\
  (timeout options = None -> Config.timeout (config rest) = jsInt 15000) /\
  (userAgent options = None -> Config.userAgent (config rest) = None) /\
  currentToken rest = token /\
  restBuckets rest = createBucketManager.
Proof.
  unfold createRest. destruct (validateOptions options); [discriminate|].
  intros [= <-]. simpl.
  repeat split; intros ->; reflexivity.
Qed.

Lemma createRest_defaults_witness :
  let options :=
    {| authType := Some (JsStr "Bearer"); version := None; userAgent := None;
       retries := None; timeout := None |} in
  exists rest,
    createRest "token" options = inr rest /\
    Config.retries (config rest) = jsInt 3 /\
    Config.timeout (config rest) = jsInt 15000.
Proof.
  intros options.
  exists {| config := mergeOptions DEFAULT_OPTIONS options;
            currentToken := "token";
            restBuckets := createBucketManager |}.
  split; [reflexivity|].
  destruct (createRest_defaults "token" options _ eq_refl)
    as (_ & _ & Hretries & Htimeout & _).
  split; [apply Hretries | apply Htimeout]; reflexivity.
Defined.

(** X12.  A timeout of NaN passes the validation as if no timeout had been
    given ([NaN <= 0] is false): construction fails with the same error or
    succeeds as it does without the timeout, and on success the configured
    timeout is NaN, not the default. *)
Theorem createRest_NaN_timeout (token : string) (options : RestOptions) :
  timeout options = Some (JsNum NaN) ->
  (forall e, createRest token options = inl e <->
             createRest token (withoutTimeout options) = inl e) /\
  (forall rest, createRest token options = inr rest ->
                Config.timeout (config rest) = JsNum NaN).
Proof.
  intros HNaN.
  assert (validateOptions options = validateOptions (withoutTimeout options)) as Hv.
  { unfold validateOptions, withoutTimeout. simpl. now rewrite HNaN. }
  unfold createRest. rewrite <- Hv.
  destruct (validateOptions options) as [e'|]; split.
  - intros e. reflexivity.
  - discriminate.
  - intros e. split; discriminate.
  - intros rest [= <-]. simpl. now rewrite HNaN.
Qed.

Lemma createRest_NaN_timeout_witness :
  let options :=
    {| authType := None; version := None; userAgent := None;
       retries := None; timeout := Some (JsNum NaN) |} in
  exists rest,
    createRest "token" options = inr rest /\
    Config.timeout (config rest) = JsNum NaN.
Proof.
  intros options.
  exists {| config := mergeOptions DEFAULT_OPTIONS options;
            currentToken := "token";
            restBuckets := createBucketManager |}.
  split; [reflexivity|].
  exact (proj2 (createRest_NaN_timeout "token" options eq_refl) _ eq_refl).
Defined.

(** ** Dispatcher: classification of answers, rate-limit retries, bounds *)

Section DispatcherMore.

Variable env : Env.t.

Implicit Types (w : World) (method route key : string)
  (opts : RequestOptions.t) (body : option FetchBody)
  (headers : gmap string string).

Lemma retryAfters_app (l1 l2 : list Event) :
  retryAfters (l1 ++ l2) = retryAfters l1 ++ retryAfters l2.
Proof. apply List.flat_map_app. Qed.

(** [acquire] sleeps at most once, at its own site, and touches nothing
    else, whether it returns or stays pending. *)
Lemma acquire_effects key w :
  manager (snd (acquire key w)) = manager w /\
  fetched (snd (acquire key w)) = fetched w /\
  (log (snd (acquire key w)) = log w \/
   exists ms, log (snd (acquire key w)) = log w ++ [Slept AcquireDelay ms]).
Proof.
  unfold acquire, bind, dateNow, withManager.
  destruct (getDelay (clock w) key (manager w) >? 0); simpl;
    destruct (get key (manager w)) as [b|];
    try destruct (RateLimitBucket.processing b); simpl; eauto.
Qed.

Lemma acquire_retryAfters key w :
  retryAfters (log (snd (acquire key w))) = retryAfters (log w).
Proof.
  destruct (acquire_effects key w) as (_ & _ & [-> | [ms ->]]); [reflexivity|].
  rewrite retryAfters_app. simpl. now rewrite app_nil_r.
Qed.

Lemma recorded_idle key response (m : BucketManager) :
  idle m -> idle (recorded key response m).
Proof.
  unfold recorded. destruct (parseRateLimitHeaders _); auto using update_idle.
Qed.

(** An answer that is not a 429: the headers are recorded, and then the
    status and the body decide. *)
Lemma attempt_answered method route key body w response :
  answersInTime env (fetched w) response ->
  Response.status response <> 429 ->
  exists w2,
    fetched w2 = S (fetched w) /\
    log w2 = log w ++ [Fetched method route body] /\
    manager w2 = recorded key response (manager w) /\
    attempt env method route key body w =
    (if Response.status response =? 204
     then Returned {| RestResponse.data := None;
                      RestResponse.status := Response.status response;
                      RestResponse.headers := Response.headers response;
                      RestResponse.rateLimit :=
                        parseRateLimitHeaders (Response.headers response) |}
     else
       match Response.json response with
       | None => Threw SyntaxError
       | Some j =>
           if Response.ok response
           then Returned {| RestResponse.data := Some j;
                            RestResponse.status := Response.status response;
                            RestResponse.headers := Response.headers response;
                            RestResponse.rateLimit :=
                              parseRateLimitHeaders (Response.headers response) |}
           else Threw (RestError_fromResponse j (Response.status response)
                         (parseRateLimitHeaders (Response.headers response)))
       end, w2).
Proof.
  intros (after & Hreply & Hlt) H429.
  apply Z.ltb_lt in Hlt. apply Z.eqb_neq in H429.
  unfold attempt, bind, fetch, responseJson, recorded.
  rewrite Hreply, Hlt, H429.
  destruct (parseRateLimitHeaders (Response.headers response)) as [rl|].
  - exists {| manager := update key rl (manager w);
              clock := clock w + Z.max 0 after;
              fetched := S (fetched w);
              log := log w ++ [Fetched method route body] |}.
    repeat split. simpl.
    destruct (Response.status response =? 204); [reflexivity|].
    destruct (Response.json response); [|reflexivity].
    destruct (Response.ok response); reflexivity.
  - exists (transferStarted w method route body (Z.max 0 after)).
    repeat split. simpl.
    destruct (Response.status response =? 204); [reflexivity|].
    destruct (Response.json response); [|reflexivity].
    destruct (Response.ok response); reflexivity.
Qed.

(** A 429 with a JSON body. *)
Lemma attempt_rateLimited method route key body w response j :
  answersInTime env (fetched w) response ->
  Response.status response = 429 ->
  Response.json response = Some j ->
  exists w2,
    attempt env method route key body w =
    (Threw (RateLimitError (Json.retry_after j) (Json.global j)
              (match parseRateLimitHeaders (Response.headers response) with
               | Some rl => RateLimitData.scope rl
               | None => None
               end)), w2) /\
    fetched w2 = S (fetched w) /\
    log w2 = log w ++ [Fetched method route body] /\
    (idle (manager w) -> idle (manager w2)).
Proof.
  intros (after & Hreply & Hlt) H429 Hjson.
  apply Z.ltb_lt in Hlt.
  unfold attempt, fetch. unfold bind at 1. rewrite Hreply, Hlt, H429.
  change (429 =? 429) with true.
  cbv beta iota zeta delta
    [handleRateLimit responseJson bind ret throw modifyManager dateNow].
  rewrite Hjson.
  destruct (parseRateLimitHeaders (Response.headers response)) as [rl|],
    (Json.global j);
    eexists; (split; [reflexivity|]); simpl; repeat split;
    auto using update_idle, setGlobalReset_idle.
Qed.

(** A 429 whose body is not JSON. *)
Lemma attempt_rateLimited_unparsed method route key body w response :
  answersInTime env (fetched w) response ->
  Response.status response = 429 ->
  Response.json response = None ->
  exists w2,
    attempt env method route key body w = (Threw SyntaxError, w2) /\
    fetched w2 = S (fetched w) /\
    log w2 = log w ++ [Fetched method route body] /\
    manager w2 = recorded key response (manager w).
Proof.
  intros (after & Hreply & Hlt) H429 Hjson.
  apply Z.ltb_lt in Hlt.
  unfold attempt, fetch, recorded. unfold bind at 1. rewrite Hreply, Hlt, H429.
  change (429 =? 429) with true.
  cbv beta iota zeta delta
    [handleRateLimit responseJson bind ret throw modifyManager dateNow].
  rewrite Hjson.
  destruct (parseRateLimitHeaders (Response.headers response)) as [rl|].
  - exists {| manager := update key rl (manager w);
              clock := clock w + Z.max 0 after;
              fetched := S (fetched w);
              log := log w ++ [Fetched method route body] |}.
    repeat split.
  - exists (transferStarted w method route body (Z.max 0 after)).
    repeat split.
Qed.

(** When the [catch] clause has no retry for the completion of the [try]
    block, that completion is the completion of the call. *)
Lemma requestFrom_final fuel method route opts headers body retryCount w :
  idle (manager w) ->
  buildHeaders (Env.client env) opts = inr headers ->
  buildBody env opts = inr body ->
  exists w1,
    acquire (getRouteKey method route) w = (Returned tt, w1) /\
    forall c w2,
      attempt env method route (getRouteKey method route) body w1 = (c, w2) ->
      final env retryCount c ->
      requestFrom (S fuel) env method route opts retryCount w = (c, w2).
Proof.
  intros Hidle Hheaders Hbody.
  destruct (acquire_idle (getRouteKey method route) w Hidle) as (w1 & Hacq & _).
  exists w1. split; [exact Hacq|].
  intros c w2 Hatt Hfinal. rewrite (requestFrom_S _ _ _ _ _ _ _ Hheaders).
  unfold bind at 1. rewrite Hacq, Hbody.
  unfold liftSum, bind at 1, ret, tryCatch. rewrite Hatt.
  destruct c as [a|e| |]; try reflexivity.
  destruct e; try reflexivity; simpl in Hfinal; now rewrite Hfinal.
Qed.

(** The state in which the transfer of a call on an idle manager starts,
    and what a final attempt leaves behind. *)
Lemma requestFrom_once fuel method route opts headers body retryCount w
    response :
  idle (manager w) ->
  buildHeaders (Env.client env) opts = inr headers ->
  buildBody env opts = inr body ->
  answersInTime env (fetched w) response ->
  Response.status response <> 429 ->
  forall c,
    c = (if Response.status response =? 204
         then Returned {| RestResponse.data := None;
                          RestResponse.status := Response.status response;
                          RestResponse.headers := Response.headers response;
                          RestResponse.rateLimit :=
                            parseRateLimitHeaders (Response.headers response) |}
         else
           match Response.json response with
           | None => Threw SyntaxError
           | Some j =>
               if Response.ok response
               then Returned {| RestResponse.data := Some j;
                                RestResponse.status := Response.status response;
                                RestResponse.headers := Response.headers response;
                                RestResponse.rateLimit :=
                                  parseRateLimitHeaders (Response.headers response) |}
               else Threw (RestError_fromResponse j (Response.status response)
                             (parseRateLimitHeaders (Response.headers response)))
           end) ->
    final env retryCount c ->
    exists w',
      requestFrom (S fuel) env method route opts retryCount w = (c, w') /\
      fetched w' = S (fetched w) /\
      manager w' = recorded (getRouteKey method route) response (manager w) /\
      transfers (log w') = transfers (log w) ++ [Fetched method route body] /\
      backoffs (log w') = backoffs (log w) /\
      retryAfters (log w') = retryAfters (log w).
Proof.
  intros Hidle Hheaders Hbody Hans H429 c Hc Hfinal.
  destruct (requestFrom_final fuel method route opts headers body retryCount w
              Hidle Hheaders Hbody) as (w1 & Hacq & Hreq).
  pose proof (acquire_effects (getRouteKey method route) w) as (Hm1 & Hf1 & _).
  pose proof (acquire_retryAfters (getRouteKey method route) w) as Hr1.
  destruct (acquire_idle (getRouteKey method route) w Hidle)
    as (w1' & Hacq' & _ & _ & Ht1 & Hb1).
  rewrite Hacq in Hacq'. injection Hacq' as <-.
  rewrite Hacq in Hm1, Hf1, Hr1. simpl in Hm1, Hf1, Hr1.
  rewrite <- Hf1 in Hans.
  destruct (attempt_answered method route (getRouteKey method route) body w1
              response Hans H429) as (w2 & Hf2 & Hlog2 & Hm2 & Hatt).
  rewrite <- Hc in Hatt.
  exists w2. split; [now apply Hreq|].
  rewrite Hf2, Hm2, Hlog2, Hf1, Hm1.
  rewrite transfers_app, backoffs_app, retryAfters_app, Ht1, Hb1, Hr1. simpl.
  now rewrite !app_nil_r.
Qed.

End DispatcherMore.

Section RateLimitRetries.

Variable env : Env.t.

Implicit Types (w : World) (method route : string)
  (opts : RequestOptions.t) (body : option FetchBody)
  (headers : gmap string string).

(** As long as the answers are 429s with a JSON body the call goes through
    the whole retry budget, sleeping the [retry_after] of each answer before
    the next transfer, and then throws the rate-limit error of the last
    answer. *)
Lemma requestFrom_rateLimits method route opts headers body
    (answer : nat -> Response.t) (data : nat -> Json.t) n :
  buildHeaders (Env.client env) opts = inr headers ->
  buildBody env opts = inr body ->
  forall fuel retryCount w,
    (retryCount + n = Env.retries env)%nat ->
    (n < fuel)%nat ->
    idle (manager w) ->
    (forall i, (i <= n)%nat ->
               answersInTime env (fetched w + i) (answer (retryCount + i)%nat) /\
               Response.status (answer (retryCount + i)%nat) = 429 /\
               Response.json (answer (retryCount + i)%nat)
                 = Some (data (retryCount + i)%nat)) ->
    exists w',
      requestFrom fuel env method route opts retryCount w =
        (Threw (RateLimitError
                  (Json.retry_after (data (Env.retries env)))
                  (Json.global (data (Env.retries env)))
                  (match parseRateLimitHeaders
                           (Response.headers (answer (Env.retries env))) with
                   | Some rl => RateLimitData.scope rl
                   | None => None
                   end)), w') /\
      fetched w' = (fetched w + S n)%nat /\
      retryAfters (log w') =
        retryAfters (log w) ++
        map (fun i => Json.retry_after (data i) * 1000) (seq retryCount n) /\
      backoffs (log w') = backoffs (log w) /\
      transfers (log w') =
        transfers (log w) ++ repeat (Fetched method route body) (S n).
Proof.
  intros Hheaders Hbody.
  induction n as [|n IH]; intros fuel rc w Hrc Hfuel Hidle Hserver;
    (destruct fuel as [|fuel]; [lia|]);
    rewrite (requestFrom_S _ _ _ _ _ _ _ Hheaders);
    destruct (acquire_idle (getRouteKey method route) w Hidle)
      as (w1 & Hacq & Hm1 & Hf1 & Ht1 & Hb1);
    pose proof (acquire_retryAfters (getRouteKey method route) w) as Hr1;
    rewrite Hacq in Hr1; simpl in Hr1;
    unfold bind at 1; rewrite Hacq, Hbody;
    unfold liftSum, bind at 1, ret, tryCatch;
    destruct (Hserver 0%nat ltac:(lia)) as (Hans & H429 & Hjson);
    replace (rc + 0)%nat with rc in Hans, H429, Hjson by lia;
    replace (fetched w + 0)%nat with (fetched w1) in Hans by lia;
    destruct (attempt_rateLimited env method route (getRouteKey method route)
                body w1 _ _ Hans H429 Hjson) as (w2 & -> & Hf2 & Hlog2 & Hidle2);
    assert (idle (manager w2)) as Hidle2' by (apply Hidle2; now rewrite Hm1).
  - (* no retry left *)
    assert (rc = Env.retries env) as -> by lia.
    rewrite Nat.ltb_irrefl.
    exists w2. split; [reflexivity|].
    rewrite Hf2, Hlog2, transfers_app, backoffs_app, retryAfters_app,
      Hf1, Ht1, Hb1, Hr1.
    simpl. rewrite !app_nil_r. repeat split. lia.
  - (* one more retry *)
    assert ((rc <? Env.retries env)%nat = true) as ->
      by (apply Nat.ltb_lt; lia).
    unfold bind, sleep. cbv beta iota.
    match goal with
    | |- context [requestFrom fuel env method route opts (S rc) ?w3] =>
        destruct (IH fuel (S rc) w3) as (w' & -> & Hf & Hr & Hb & Ht)
    end.
    + lia.
    + lia.
    + exact Hidle2'.
    + intros i Hi. simpl fetched. rewrite Hf2, Hf1.
      replace (S (fetched w) + i)%nat with (fetched w + S i)%nat by lia.
      replace (S rc + i)%nat with (rc + S i)%nat by lia.
      apply Hserver. lia.
    + exists w'. split; [reflexivity|].
      simpl fetched in Hf. simpl log in Hr, Hb, Ht.
      rewrite Hf2, Hf1 in Hf. split; [lia|].
      rewrite Hlog2 in Hr, Hb, Ht.
      rewrite !retryAfters_app, Hr1 in Hr.
      rewrite !backoffs_app, Hb1 in Hb.
      rewrite !transfers_app, Ht1 in Ht.
      simpl in Hr, Hb, Ht.
      rewrite ?app_nil_r in Hr. rewrite ?app_nil_r in Hb.
      rewrite ?app_nil_r in Ht.
      repeat split.
      * rewrite Hr, <- app_assoc. reflexivity.
      * exact Hb.
      * rewrite Ht, <- app_assoc. reflexivity.
Qed.

(** Whatever the remote end does and whatever the state of the manager, a
    call started with [retryCount] retries used makes no more transfers than
    the retries that remain, plus one. *)
Lemma requestFrom_transfers_bound fuel :
  forall method route opts retryCount w,
    (fetched (snd (requestFrom fuel env method route opts retryCount w))
     <= fetched w + S (Env.retries env - retryCount))%nat.
Proof.
  induction fuel as [|fuel IH]; intros method route opts rc w; [simpl; lia|].
  rewrite requestFrom_unfold.
  pose proof (acquire_effects (getRouteKey method route) w) as (_ & Hf1 & _).
  unfold bind at 1.
  destruct (acquire (getRouteKey method route) w) as [[[]| | |] w1];
    simpl in Hf1; try (simpl; lia).
  destruct (buildHeaders (Env.client env) opts) as [refused|headers];
    [simpl; lia|].
  destruct (buildBody env opts) as [e|body]; [simpl; lia|].
  unfold liftSum, bind at 1, ret, tryCatch.
  destruct (attempt env method route (getRouteKey method route) body w1)
    as [c w2] eqn:Eatt.
  apply attempt_sound in Eatt as (Hf2 & _ & _).
  assert ((rc < Env.retries env)%nat ->
          forall site ms,
            (fetched (snd ((sleep site ms >>
               requestFrom fuel env method route opts (S rc))%async w2))
             <= fetched w + S (Env.retries env - rc))%nat) as Hretry.
  { intros Hlt site ms. unfold bind, sleep.
    match goal with
    | |- context [requestFrom fuel env method route opts (S rc) ?w3] =>
        specialize (IH method route opts (S rc) w3)
    end.
    eapply Nat.le_trans; [exact IH|]. cbn [fetched]. lia. }
  destruct c as [a|e| |]; try (simpl; lia).
  destruct e; try (simpl; lia).
  - destruct (Nat.ltb_spec rc (Env.retries env)); [now apply Hretry | simpl; lia].
  - destruct (Nat.ltb_spec rc (Env.retries env)).
    + destruct (status >=? 500); [now apply Hretry | simpl; lia].
    + rewrite andb_false_r. simpl. lia.
Qed.

End RateLimitRetries.

(** X13.  For a request whose headers and body are assembled:
    a 204 answer ends the call with a result without data; the body
    is not read, so it does not matter whether it is JSON.  One transfer, no
    retry, and the rate-limit headers of the answer are recorded. *)
Theorem request_no_content (env : Env.t) (method route : string)
    (opts : RequestOptions.t) (headers : gmap string string)
    (body : option FetchBody) (w : World)
    (response : Response.t) :
  idle (manager w) ->
  buildHeaders (Env.client env) opts = inr headers ->
  buildBody env opts = inr body ->
  answersInTime env (fetched w) response ->
  Response.status response = 204 ->
  exists w',
    request env method route opts w =
      (Returned {| RestResponse.data := None;
                   RestResponse.status := 204;
                   RestResponse.headers := Response.headers response;
                   RestResponse.rateLimit :=
                     parseRateLimitHeaders (Response.headers response) |}, w') /\
    fetched w' = S (fetched w) /\
    manager w' = recorded (getRouteKey method route) response (manager w).
Proof.
  intros Hidle Hheaders Hbody Hans H204.
  destruct (requestFrom_once env (Env.retries env) method route opts headers body 0
              w
              response Hidle Hheaders Hbody Hans ltac:(lia) _ eq_refl)
    as (w' & Hreq & Hf & Hm & _).
  - rewrite H204. exact I.
  - exists w'. unfold request. rewrite Hreq, H204. auto.
Qed.

Lemma request_no_content_witness :
  let deleted :=
    {| Response.status := 204;
       Response.headers :=
         {| Headers.X_RateLimit_Limit := None;
            Headers.X_RateLimit_Remaining := None;
            Headers.X_RateLimit_Reset := None;
            Headers.X_RateLimit_Reset_After := None;
            Headers.X_RateLimit_Bucket := None;
            Headers.X_RateLimit_Global := None;
            Headers.X_RateLimit_Scope := None |};
       Response.json := None |} in
  let env := {| Env.retries := 3; Env.timeout := 15000; Env.maxSize := 26214400;
                Env.server := fun _ => Replies 20 deleted;
                Env.client :=
                  mkRest (mergeOptions DEFAULT_OPTIONS
                            (mkRestOptions None None None None None))
                    "token" createBucketManager |} in
  let opts := {| RequestOptions.body := None; RequestOptions.files := None;
                 RequestOptions.query := None; RequestOptions.reason := None;
                 RequestOptions.auth := None; RequestOptions.headers := None |} in
  let w := {| manager := createBucketManager; clock := 0; fetched := 0;
              log := [] |} in
  exists r w',
    request env "DELETE" "/guilds/1/emojis/2" opts w = (Returned r, w') /\
    RestResponse.data r = None /\ fetched w' = 1%nat.
Proof.
  intros deleted env opts w.
  assert (exists headers, buildHeaders (Env.client env) opts = inr headers)
    as [headers Hheaders] by (eexists; reflexivity).
  destruct (request_no_content env "DELETE" "/guilds/1/emojis/2" opts headers None
              w
              deleted) as (w' & Hreq & Hf & _).
  - apply createBucketManager_idle.
  - exact Hheaders.
  - reflexivity.
  - exists 20. split; [reflexivity | simpl; lia].
  - reflexivity.
  - eexists _, w'. repeat split; [exact Hreq | reflexivity | exact Hf].
Defined.

(** X14.  For a request whose headers and body are assembled:
    a successful answer other than 204 with a JSON body ends the call
    with that body as data, after one transfer and without any retry sleep;
    the rate-limit headers of the answer are recorded for the route key. *)
Theorem request_success (env : Env.t) (method route : string)
    (opts : RequestOptions.t) (headers : gmap string string)
    (body : option FetchBody) (w : World)
    (response : Response.t) (j : Json.t) :
  idle (manager w) ->
  buildHeaders (Env.client env) opts = inr headers ->
  buildBody env opts = inr body ->
  answersInTime env (fetched w) response ->
  Response.ok response = true ->
  Response.status response <> 204 ->
  Response.json response = Some j ->
  exists w',
    request env method route opts w =
      (Returned {| RestResponse.data := Some j;
                   RestResponse.status := Response.status response;
                   RestResponse.headers := Response.headers response;
                   RestResponse.rateLimit :=
                     parseRateLimitHeaders (Response.headers response) |}, w') /\
    fetched w' = S (fetched w) /\
    manager w' = recorded (getRouteKey method route) response (manager w) /\
    backoffs (log w') = backoffs (log w) /\
    retryAfters (log w') = retryAfters (log w).
Proof.
  intros Hidle Hheaders Hbody Hans Hok H204 Hjson.
  assert (Response.status response <> 429) as H429.
  { unfold Response.ok in Hok. apply andb_prop in Hok as [_ Hok].
    apply Z.leb_le in Hok. lia. }
  apply Z.eqb_neq in H204.
  destruct (requestFrom_once env (Env.retries env) method route opts headers body 0
              w
              response Hidle Hheaders Hbody Hans H429 _ eq_refl)
    as (w' & Hreq & Hf & Hm & _ & Hb & Hr).
  - rewrite H204, Hjson, Hok. exact I.
  - exists w'. unfold request. rewrite Hreq, H204, Hjson, Hok. auto.
Qed.

Lemma request_success_witness :
  let j := {| Json.message := ""; Json.retry_after := 0; Json.global := false;
              Json.code := 0; Json.errors := None |} in
  let found :=
    {| Response.status := 200;
       Response.headers :=
         {| Headers.X_RateLimit_Limit := Some 5;
            Headers.X_RateLimit_Remaining := Some 4;
            Headers.X_RateLimit_Reset := Some 1700000001;
            Headers.X_RateLimit_Reset_After := Some 1;
            Headers.X_RateLimit_Bucket := Some "abcd";
            Headers.X_RateLimit_Global := None;
            Headers.X_RateLimit_Scope := None |};
       Response.json := Some j |} in
  let env := {| Env.retries := 3; Env.timeout := 15000; Env.maxSize := 26214400;
                Env.server := fun _ => Replies 20 found;
                Env.client :=
                  mkRest (mergeOptions DEFAULT_OPTIONS
                            (mkRestOptions None None None None None))
                    "token" createBucketManager |} in
  let opts := {| RequestOptions.body := None; RequestOptions.files := None;
                 RequestOptions.query := None; RequestOptions.reason := None;
                 RequestOptions.auth := None; RequestOptions.headers := None |} in
  let w := {| manager := createBucketManager; clock := 0; fetched := 0;
              log := [] |} in
  exists r w',
    request env "GET" "/guilds/1" opts w = (Returned r, w') /\
    RestResponse.data r = Some j /\ fetched w' = 1%nat.
Proof.
  intros j found env opts w.
  assert (exists headers, buildHeaders (Env.client env) opts = inr headers)
    as [headers Hheaders] by (eexists; reflexivity).
  destruct (request_success env "GET" "/guilds/1" opts headers None
              w found j)
    as (w' & Hreq & Hf & _).
  - apply createBucketManager_idle.
  - exact Hheaders.
  - reflexivity.
  - exists 20. split; [reflexivity | simpl; lia].
  - reflexivity.
  - simpl. lia.
  - reflexivity.
  - eexists _, w'. repeat split; [exact Hreq | reflexivity | exact Hf].
Defined.

(** X15.  For a request whose headers and body are assembled:
    a failure status below 500 other than 429, with a JSON body, is
    never retried, whatever the retry budget: the call throws the API error
    of that answer after one transfer, without any retry sleep. *)
Theorem request_client_error_not_retried (env : Env.t) (method route : string)
    (opts : RequestOptions.t) (headers : gmap string string)
    (body : option FetchBody) (w : World)
    (response : Response.t) (j : Json.t) :
  idle (manager w) ->
  buildHeaders (Env.client env) opts = inr headers ->
  buildBody env opts = inr body ->
  answersInTime env (fetched w) response ->
  Response.ok response = false ->
  Response.status response < 500 ->
  Response.status response <> 429 ->
  Response.json response = Some j ->
  exists w',
    request env method route opts w =
      (Threw (RestError (Response.status response) (Json.code j)
                (Json.message j) (Json.errors j)
                (parseRateLimitHeaders (Response.headers response))), w') /\
    fetched w' = S (fetched w) /\
    backoffs (log w') = backoffs (log w) /\
    retryAfters (log w') = retryAfters (log w).
Proof.
  intros Hidle Hheaders Hbody Hans Hok H500 H429 Hjson.
  assert ((Response.status response =? 204) = false) as H204.
  { apply Z.eqb_neq. intros H. unfold Response.ok in Hok. rewrite H in Hok.
    discriminate. }
  destruct (requestFrom_once env (Env.retries env) method route opts headers body 0
              w
              response Hidle Hheaders Hbody Hans H429 _ eq_refl)
    as (w' & Hreq & Hf & _ & _ & Hb & Hr).
  - rewrite H204, Hjson, Hok. unfold RestError_fromResponse. simpl.
    apply andb_false_iff. left. destruct (Z.geb_spec (Response.status response) 500);
      [lia | reflexivity].
  - exists w'. unfold request. rewrite Hreq, H204, Hjson, Hok. auto.
Qed.

Lemma request_client_error_not_retried_witness :
  let j := {| Json.message := "Unknown Guild"; Json.retry_after := 0;
              Json.global := false; Json.code := 10004; Json.errors := None |} in
  let missing :=
    {| Response.status := 404;
       Response.headers :=
         {| Headers.X_RateLimit_Limit := None;
            Headers.X_RateLimit_Remaining := None;
            Headers.X_RateLimit_Reset := None;
            Headers.X_RateLimit_Reset_After := None;
            Headers.X_RateLimit_Bucket := None;
            Headers.X_RateLimit_Global := None;
            Headers.X_RateLimit_Scope := None |};
       Response.json := Some j |} in
  let env := {| Env.retries := 3; Env.timeout := 15000; Env.maxSize := 26214400;
                Env.server := fun _ => Replies 20 missing;
                Env.client :=
                  mkRest (mergeOptions DEFAULT_OPTIONS
                            (mkRestOptions None None None None None))
                    "token" createBucketManager |} in
  let opts := {| RequestOptions.body := None; RequestOptions.files := None;
                 RequestOptions.query := None; RequestOptions.reason := None;
                 RequestOptions.auth := None; RequestOptions.headers := None |} in
  let w := {| manager := createBucketManager; clock := 0; fetched := 0;
              log := [] |} in
  exists w',
    request env "GET" "/guilds/1" opts w =
      (Threw (RestError 404 10004 "Unknown Guild" None None), w') /\
    fetched w' = 1%nat.
Proof.
  intros j missing env opts w.
  assert (exists headers, buildHeaders (Env.client env) opts = inr headers)
    as [headers Hheaders] by (eexists; reflexivity).
  destruct (request_client_error_not_retried env "GET" "/guilds/1" opts headers None
              w
              missing j) as (w' & Hreq & Hf & _).
  - apply createBucketManager_idle.
  - exact Hheaders.
  - reflexivity.
  - exists 20. split; [reflexivity | simpl; lia].
  - reflexivity.
  - simpl. lia.
  - simpl. lia.
  - reflexivity.
  - exists w'. split; [exact Hreq | exact Hf].
Defined.

(** X16.  For a request whose headers and body are assembled:
    an answer other than 204 whose body is not JSON ends the call with
    the parse error of the body, after one transfer and without any retry
    sleep: also when the status is 429 or a server error, which are retried
    only when their body parses. *)
Theorem request_unparsed_body_not_retried (env : Env.t) (method route : string)
    (opts : RequestOptions.t) (headers : gmap string string)
    (body : option FetchBody) (w : World)
    (response : Response.t) :
  idle (manager w) ->
  buildHeaders (Env.client env) opts = inr headers ->
  buildBody env opts = inr body ->
  answersInTime env (fetched w) response ->
  Response.status response <> 204 ->
  Response.json response = None ->
  exists w',
    request env method route opts w = (Threw SyntaxError, w') /\
    fetched w' = S (fetched w) /\
    backoffs (log w') = backoffs (log w) /\
    retryAfters (log w') = retryAfters (log w).
Proof.
  intros Hidle Hheaders Hbody Hans H204 Hjson. unfold request.
  destruct (Z.eq_dec (Response.status response) 429) as [H429|H429].
  - destruct (requestFrom_final env (Env.retries env) method route opts headers
                body 0 w Hidle Hheaders Hbody) as (w1 & Hacq & Hreq).
    pose proof (acquire_effects (getRouteKey method route) w) as (_ & Hf1 & _).
    pose proof (acquire_retryAfters (getRouteKey method route) w) as Hr1.
    destruct (acquire_idle (getRouteKey method route) w Hidle)
      as (w1' & Hacq' & _ & _ & _ & Hb1).
    rewrite Hacq in Hacq'. injection Hacq' as <-.
    rewrite Hacq in Hf1, Hr1. simpl in Hf1, Hr1.
    rewrite <- Hf1 in Hans.
    destruct (attempt_rateLimited_unparsed env method route
                (getRouteKey method route) body w1 response Hans H429 Hjson)
      as (w2 & Hatt & Hf2 & Hlog2 & _).
    exists w2. split; [apply Hreq; [exact Hatt | exact I]|].
    rewrite Hf2, Hlog2, backoffs_app, retryAfters_app, Hf1, Hb1, Hr1. simpl.
    now rewrite !app_nil_r.
  - apply Z.eqb_neq in H204.
    destruct (requestFrom_once env (Env.retries env) method route opts headers body 0
              w
                response Hidle Hheaders Hbody Hans H429 _ eq_refl)
      as (w' & Hreq & Hf & _ & _ & Hb & Hr).
    + rewrite H204, Hjson. exact I.
    + exists w'. rewrite Hreq, H204, Hjson. auto.
Qed.

Lemma request_unparsed_body_not_retried_witness :
  let gateway :=
    {| Response.status := 502;
       Response.headers :=
         {| Headers.X_RateLimit_Limit := None;
            Headers.X_RateLimit_Remaining := None;
            Headers.X_RateLimit_Reset := None;
            Headers.X_RateLimit_Reset_After := None;
            Headers.X_RateLimit_Bucket := None;
            Headers.X_RateLimit_Global := None;
            Headers.X_RateLimit_Scope := None |};
       Response.json := None |} in
  let env := {| Env.retries := 3; Env.timeout := 15000; Env.maxSize := 26214400;
                Env.server := fun _ => Replies 20 gateway;
                Env.client :=
                  mkRest (mergeOptions DEFAULT_OPTIONS
                            (mkRestOptions None None None None None))
                    "token" createBucketManager |} in
  let opts := {| RequestOptions.body := None; RequestOptions.files := None;
                 RequestOptions.query := None; RequestOptions.reason := None;
                 RequestOptions.auth := None; RequestOptions.headers := None |} in
  let w := {| manager := createBucketManager; clock := 0; fetched := 0;
              log := [] |} in
  exists w',
    request env "GET" "/guilds/1" opts w = (Threw SyntaxError, w') /\
    fetched w' = 1%nat.
Proof.
  intros gateway env opts w.
  assert (exists headers, buildHeaders (Env.client env) opts = inr headers)
    as [headers Hheaders] by (eexists; reflexivity).
  destruct (request_unparsed_body_not_retried env "GET" "/guilds/1" opts headers None
              w
              gateway) as (w' & Hreq & Hf & _).
  - apply createBucketManager_idle.
  - exact Hheaders.
  - reflexivity.
  - exists 20. split; [reflexivity | simpl; lia].
  - simpl. lia.
  - reflexivity.
  - exists w'. split; [exact Hreq | exact Hf].
Defined.

(** X17.  For a request whose headers and body are assembled:
    when every answer is a 429 with a JSON body, the call makes one
    transfer more than the retry budget, sleeps [retry_after * 1000]
    milliseconds of each answer before the next transfer, never a backoff of
    the server-error kind, and then throws the rate-limit error of the last
    answer: its [retry_after], its global flag and the scope header. *)
Theorem request_retries_rate_limits (env : Env.t) (method route : string)
    (opts : RequestOptions.t) (headers : gmap string string)
    (body : option FetchBody) (w : World)
    (answer : nat -> Response.t) (data : nat -> Json.t) :
  idle (manager w) ->
  buildHeaders (Env.client env) opts = inr headers ->
  buildBody env opts = inr body ->
  (forall i, (i <= Env.retries env)%nat ->
             answersInTime env (fetched w + i) (answer i) /\
             Response.status (answer i) = 429 /\
             Response.json (answer i) = Some (data i)) ->
  exists w',
    request env method route opts w =
      (Threw (RateLimitError
                (Json.retry_after (data (Env.retries env)))
                (Json.global (data (Env.retries env)))
                (match parseRateLimitHeaders
                         (Response.headers (answer (Env.retries env))) with
                 | Some rl => RateLimitData.scope rl
                 | None => None
                 end)), w') /\
    fetched w' = (fetched w + S (Env.retries env))%nat /\
    retryAfters (log w') =
      retryAfters (log w) ++
      map (fun i => Json.retry_after (data i) * 1000) (seq 0 (Env.retries env)) /\
    backoffs (log w') = backoffs (log w).
Proof.
  intros Hidle Hheaders Hbody Hserver. unfold request.
  destruct (requestFrom_rateLimits env method route opts headers body answer
              data (Env.retries env) Hheaders Hbody (S (Env.retries env)) 0 w
              eq_refl ltac:(lia) Hidle Hserver)
    as (w' & Hreq & Hf & Hr & Hb & _).
  exists w'. auto.
Qed.

Lemma request_retries_rate_limits_witness :
  let j := {| Json.message := "You are being rate limited.";
              Json.retry_after := 2; Json.global := false;
              Json.code := 0; Json.errors := None |} in
  let limited :=
    {| Response.status := 429;
       Response.headers :=
         {| Headers.X_RateLimit_Limit := None;
            Headers.X_RateLimit_Remaining := None;
            Headers.X_RateLimit_Reset := None;
            Headers.X_RateLimit_Reset_After := None;
            Headers.X_RateLimit_Bucket := None;
            Headers.X_RateLimit_Global := None;
            Headers.X_RateLimit_Scope := None |};
       Response.json := Some j |} in
  let env := {| Env.retries := 2; Env.timeout := 15000; Env.maxSize := 26214400;
                Env.server := fun _ => Replies 20 limited;
                Env.client :=
                  mkRest (mergeOptions DEFAULT_OPTIONS
                            (mkRestOptions None None None None None))
                    "token" createBucketManager |} in
  let opts := {| RequestOptions.body := None; RequestOptions.files := None;
                 RequestOptions.query := None; RequestOptions.reason := None;
                 RequestOptions.auth := None; RequestOptions.headers := None |} in
  let w := {| manager := createBucketManager; clock := 0; fetched := 0;
              log := [] |} in
  exists w',
    request env "GET" "/guilds/1" opts w =
      (Threw (RateLimitError 2 false None), w') /\
    fetched w' = 3%nat /\
    retryAfters (log w') = [2000; 2000].
Proof.
  intros j limited env opts w.
  assert (exists headers, buildHeaders (Env.client env) opts = inr headers)
    as [headers Hheaders] by (eexists; reflexivity).
  destruct (request_retries_rate_limits env "GET" "/guilds/1" opts headers None
              w
              (fun _ => limited) (fun _ => j)) as (w' & Hreq & Hf & Hr & _).
  - apply createBucketManager_idle.
  - exact Hheaders.
  - reflexivity.
  - intros i _. split; [|split; reflexivity].
    exists 20. split; [reflexivity | simpl; lia].
  - exists w'. repeat split; assumption.
Defined.

(** X18.  [handleRateLimit] on a 429 with a JSON body throws the rate-limit
    error of that body.  When the body says the limit is global, the global
    deadline becomes the current instant plus [retry_after] seconds, and
    until that instant [getDelay] makes every route wait for it; otherwise
    the global deadline is left as it was. *)
Theorem handleRateLimit_global (response : Response.t) (key : string)
    (w : World) (data : Json.t) :
  Response.json response = Some data ->
  exists scope w',
    handleRateLimit response key w =
      (Threw (RateLimitError (Json.retry_after data) (Json.global data) scope),
       w') /\
    clock w' = clock w /\
    fetched w' = fetched w /\
    (Json.global data = true ->
     globalReset (manager w') = clock w + Json.retry_after data * 1000 /\
     forall key' now,
       now < clock w + Json.retry_after data * 1000 ->
       getDelay now key' (manager w') =
         clock w + Json.retry_after data * 1000 - now) /\
    (Json.global data = false ->
     globalReset (manager w') = globalReset (manager w)).
Proof.
  intros Hjson.
  cbv beta iota zeta delta
    [handleRateLimit responseJson bind ret throw modifyManager dateNow].
  rewrite Hjson.
  assert (forall (m : BucketManager) deadline,
            globalReset m = deadline ->
            forall key' now, now < deadline ->
                             getDelay now key' m = deadline - now) as Hwait.
  { intros m deadline <- key' now Hnow. unfold getDelay.
    destruct (Z.gtb_spec (globalReset m) now); [reflexivity | lia]. }
  destruct (Json.global data),
    (parseRateLimitHeaders (Response.headers response)) as [rl|];
    do 2 eexists; (split; [reflexivity|]); simpl;
    (split; [reflexivity|]); (split; [reflexivity|]);
    (split; [intros Hg | intros Hg]); try discriminate; try reflexivity;
    (split; [reflexivity|]); intros key' now Hnow; now apply Hwait.
Qed.

Lemma handleRateLimit_global_witness :
  let j := {| Json.message := "You are being rate limited.";
              Json.retry_after := 5; Json.global := true;
              Json.code := 0; Json.errors := None |} in
  let limited :=
    {| Response.status := 429;
       Response.headers :=
         {| Headers.X_RateLimit_Limit := None;
            Headers.X_RateLimit_Remaining := None;
            Headers.X_RateLimit_Reset := None;
            Headers.X_RateLimit_Reset_After := None;
            Headers.X_RateLimit_Bucket := None;
            Headers.X_RateLimit_Global := Some "true";
            Headers.X_RateLimit_Scope := Some "global" |};
       Response.json := Some j |} in
  let w := {| manager := createBucketManager; clock := 1000; fetched := 1;
              log := [] |} in
  exists e w',
    handleRateLimit limited "GET:/guilds/:id:1" w = (Threw e, w') /\
    getDelay 2500 "POST:/channels/:id/messages:7" (manager w') = 3500.
Proof.
  intros j limited w.
  destruct (handleRateLimit_global limited "GET:/guilds/:id:1" w j eq_refl)
    as (scope & w' & Hthrow & _ & _ & Hglobal & _).
  exists (RateLimitError (Json.retry_after j) (Json.global j) scope), w'.
  split; [exact Hthrow|].
  destruct (Hglobal eq_refl) as [_ Hwait].
  rewrite (Hwait "POST:/channels/:id/messages:7" 2500) by (simpl; lia).
  reflexivity.
Defined.

(** X19.  Whatever the remote end answers and whatever the state of the
    bucket manager, one call makes at most one transfer more than the retry
    budget. *)
Theorem request_transfers_bound (env : Env.t) (method route : string)
    (opts : RequestOptions.t) (w : World) :
  (fetched (snd (request env method route opts w))
   <= fetched w + S (Env.retries env))%nat.
Proof.
  unfold request.
  pose proof (requestFrom_transfers_bound env (S (Env.retries env))
                method route opts 0 w) as H.
  rewrite Nat.sub_0_r in H. exact H.
Qed.

(** X20.  For a request whose headers and body are assembled:
    a successful answer that reports an exhausted quota under a bucket
    hash makes the route wait: once the call has returned, and as long as no
    global suspension is running, [getDelay] for the same verb and route is
    the time left to the reset instant the answer gave (in seconds, kept in
    milliseconds). *)
Theorem request_records_exhaustion (env : Env.t) (method route : string)
    (opts : RequestOptions.t) (headers : gmap string string)
    (body : option FetchBody) (w : World)
    (response : Response.t) (j : Json.t) (rl : RateLimitData.t) :
  idle (manager w) ->
  buildHeaders (Env.client env) opts = inr headers ->
  buildBody env opts = inr body ->
  answersInTime env (fetched w) response ->
  Response.ok response = true ->
  Response.json response = Some j ->
  parseRateLimitHeaders (Response.headers response) = Some rl ->
  truthy (RateLimitData.bucket rl) = true ->
  RateLimitData.remaining rl <= 0 ->
  exists r w',
    request env method route opts w = (Returned r, w') /\
    forall now,
      globalReset (manager w) <= now ->
      now < RateLimitData.reset rl * 1000 ->
      getDelay now (getRouteKey method route) (manager w') =
        RateLimitData.reset rl * 1000 - now.
Proof.
  intros Hidle Hheaders Hbody Hans Hok Hjson Hparse Hhash Hrem.
  assert (Response.status response <> 429) as H429.
  { unfold Response.ok in Hok. apply andb_prop in Hok as [_ Hok].
    apply Z.leb_le in Hok. lia. }
  destruct (requestFrom_once env (Env.retries env) method route opts headers body 0
              w
              response Hidle Hheaders Hbody Hans H429 _ eq_refl)
    as (w' & Hreq & _ & Hm & _).
  { rewrite Hjson, Hok. destruct (Response.status response =? 204); exact I. }
  rewrite Hjson, Hok in Hreq. unfold request.
  assert (forall now,
             globalReset (manager w) <= now ->
             now < RateLimitData.reset rl * 1000 ->
             getDelay now (getRouteKey method route) (manager w') =
               RateLimitData.reset rl * 1000 - now) as Hdelay.
  { intros now Hglobal Hnow. rewrite Hm. unfold recorded. rewrite Hparse.
    unfold getDelay. rewrite update_globalReset.
    destruct (Z.gtb_spec (globalReset (manager w)) now); [lia|].
    destruct (update_get_hashed (getRouteKey method route) rl (manager w) Hhash)
      as (_ & p & ->).
    simpl.
    destruct (Z.leb_spec (RateLimitData.remaining rl) 0); [|lia].
    destruct (Z.gtb_spec (RateLimitData.reset rl * 1000) now);
      [reflexivity | lia]. }
  destruct (Response.status response =? 204); eexists _, w';
    (split; [exact Hreq | exact Hdelay]).
Qed.

Lemma request_records_exhaustion_witness :
  let j := {| Json.message := ""; Json.retry_after := 0; Json.global := false;
              Json.code := 0; Json.errors := None |} in
  let found :=
    {| Response.status := 200;
       Response.headers :=
         {| Headers.X_RateLimit_Limit := Some 5;
            Headers.X_RateLimit_Remaining := Some 0;
            Headers.X_RateLimit_Reset := Some 9;
            Headers.X_RateLimit_Reset_After := Some 1;
            Headers.X_RateLimit_Bucket := Some "abcd";
            Headers.X_RateLimit_Global := None;
            Headers.X_RateLimit_Scope := None |};
       Response.json := Some j |} in
  let env := {| Env.retries := 3; Env.timeout := 15000; Env.maxSize := 26214400;
                Env.server := fun _ => Replies 20 found;
                Env.client :=
                  mkRest (mergeOptions DEFAULT_OPTIONS
                            (mkRestOptions None None None None None))
                    "token" createBucketManager |} in
  let opts := {| RequestOptions.body := None; RequestOptions.files := None;
                 RequestOptions.query := None; RequestOptions.reason := None;
                 RequestOptions.auth := None; RequestOptions.headers := None |} in
  let w := {| manager := createBucketManager; clock := 0; fetched := 0;
              log := [] |} in
  exists r w',
    request env "GET" "/guilds/1" opts w = (Returned r, w') /\
    getDelay 8000 (getRouteKey "GET" "/guilds/1") (manager w') = 1000.
Proof.
  intros j found env opts w.
  assert (exists headers, buildHeaders (Env.client env) opts = inr headers)
    as [headers Hheaders] by (eexists; reflexivity).
  destruct (request_records_exhaustion env "GET" "/guilds/1" opts headers None
              w found j
              {| RateLimitData.limit := 5; RateLimitData.remaining := 0;
                 RateLimitData.reset := 9; RateLimitData.resetAfter := 1;
                 RateLimitData.bucket := "abcd"; RateLimitData.global := false;
                 RateLimitData.scope := None |})
    as (r & w' & Hreq & Hdelay).
  - apply createBucketManager_idle.
  - exact Hheaders.
  - reflexivity.
  - exists 20. split; [reflexivity | simpl; lia].
  - reflexivity.
  - reflexivity.
  - reflexivity.
  - reflexivity.
  - simpl. lia.
  - exists r, w'. split; [exact Hreq|].
    rewrite (Hdelay 8000) by (simpl; lia). reflexivity.
Defined.
(** X30.  A request one of whose headers the [Headers] object refuses ends
    with the [TypeError] of that header as soon as [acquire] has returned:
    the body is not built, so not even an oversized file is reported, no
    transfer is started and nothing is retried, whatever the remote end
    would answer. *)
Theorem request_refused_header (env : Env.t) (method route : string)
    (opts : RequestOptions.t) (refused : HeaderError) (w : World) :
  idle (manager w) ->
  buildHeaders (Env.client env) opts = inl refused ->
  exists w',
    request env method route opts w = (Threw (HeadersTypeError refused), w') /\
    manager w' = manager w /\
    fetched w' = fetched w /\
    transfers (log w') = transfers (log w) /\
    backoffs (log w') = backoffs (log w) /\
    retryAfters (log w') = retryAfters (log w).
Proof.
  intros Hidle Hrefused. unfold request. rewrite requestFrom_unfold.
  destruct (acquire_idle (getRouteKey method route) w Hidle)
    as (w1 & Hacq & Hm & Hf & Ht & Hb).
  pose proof (acquire_retryAfters (getRouteKey method route) w) as Hr.
  rewrite Hacq in Hr. simpl in Hr.
  unfold bind. rewrite Hacq, Hrefused.
  exists w1. split; [reflexivity|]. repeat split; assumption.
Qed.

Lemma request_refused_header_witness :
  let env := {| Env.retries := 3; Env.timeout := 15000; Env.maxSize := 5;
                Env.server := fun _ => Silent;
                Env.client :=
                  mkRest (mergeOptions DEFAULT_OPTIONS
                            (mkRestOptions None None None None None))
                    "token" createBucketManager |} in
  let large := {| FileData.name := "b.png"; FileData.data := "0123456789";
                  FileData.contentType := Some "image/png" |} in
  let opts := {| RequestOptions.body := None;
                 RequestOptions.files := Some [large];
                 RequestOptions.query := None; RequestOptions.reason := None;
                 RequestOptions.auth := None;
                 RequestOptions.headers := Some [("bad name", "x")] |} in
  let w := {| manager := createBucketManager; clock := 0; fetched := 0;
              log := [] |} in
  exists w',
    request env "POST" "/channels/1/messages" opts w =
      (Threw (HeadersTypeError (InvalidHeaderName "bad name")), w') /\
    fetched w' = 0%nat.
Proof.
  intros env large opts w.
  destruct (request_refused_header env "POST" "/channels/1/messages" opts
              (InvalidHeaderName "bad name") w)
    as (w' & Hreq & _ & Hf & _).
  - apply createBucketManager_idle.
  - reflexivity.
  - exists w'. split; [exact Hreq | exact Hf].
Defined.

(** ** Request headers *)

Section HeaderFacts.

Implicit Types (h : gmap string string) (name value : string)
  (entries : list (string * string)).

Lemma headersSet_inr name value h h' :
  headersSet name value h = inr h' ->
  h' = <[lowercase name := normalizeValue value]> h.
Proof.
  unfold headersSet. cbv zeta.
  destruct (negb (validName name)); [discriminate|].
  destruct (negb (validValue (normalizeValue value))); [discriminate|].
  now intros [= <-].
Qed.

Lemma headersGet_set_same name name' value h h' :
  headersSet name value h = inr h' ->
  lowercase name' = lowercase name ->
  headersGet name' h' = Some (normalizeValue value).
Proof.
  intros Hset Hn. rewrite (headersSet_inr _ _ _ _ Hset).
  unfold headersGet. rewrite Hn. apply lookup_insert_eq.
Qed.

Lemma headersGet_set_other name name' value h h' :
  headersSet name value h = inr h' ->
  lowercase name <> lowercase name' ->
  headersGet name' h' = headersGet name' h.
Proof.
  intros Hset Hn. rewrite (headersSet_inr _ _ _ _ Hset).
  unfold headersGet. now apply lookup_insert_ne.
Qed.

Lemma setAll_unnamed name entries h h' :
  setAll entries h = inr h' ->
  unnamed name entries ->
  headersGet name h' = headersGet name h.
Proof.
  unfold unnamed. revert h.
  induction entries as [|[k v] entries IH]; intros h Hall Hun.
  - now injection Hall as <-.
  - apply Forall_cons in Hun as [Hk Hun]. cbn [setAll] in Hall.
    destruct (headersSet k v h) as [e|h1] eqn:Hset; [discriminate|].
    rewrite (IH h1 Hall Hun). now apply (headersGet_set_other k name v h h1).
Qed.

Lemma setAll_app (l1 l2 : list (string * string)) h h' :
  setAll (l1 ++ l2) h = inr h' ->
  exists hm, setAll l1 h = inr hm /\ setAll l2 hm = inr h'.
Proof.
  revert h. induction l1 as [|[k v] l1 IH]; intros h Hall.
  - exists h. split; [reflexivity|exact Hall].
  - cbn [app setAll] in *.
    destruct (headersSet k v h) as [e|h1]; [discriminate|]. now apply IH.
Qed.

Lemma setAll_last name k v before after h h' :
  setAll (before ++ (k, v) :: after) h = inr h' ->
  lowercase name = lowercase k ->
  unnamed k after ->
  headersGet name h' = Some (normalizeValue v).
Proof.
  intros Hall Hn Hun.
  apply setAll_app in Hall as (hm & _ & Hall). cbn [setAll] in Hall.
  destruct (headersSet k v hm) as [e|h1] eqn:Hset; [discriminate|].
  rewrite (setAll_unnamed name after h1 h' Hall).
  - now apply (headersGet_set_same k name v hm h1).
  - unfold unnamed in *. rewrite Hn. exact Hun.
Qed.

Lemma buildHeaders_inr (rest : Rest) (opts : RequestOptions.t) h :
  buildHeaders rest opts = inr h ->
  exists h1 h2 h3,
    headersSet "User-Agent" (userAgentOf rest) ∅ = inr h1 /\
    match RequestOptions.auth opts with
    | Some false => inr h1
    | _ =>
        headersSet "Authorization"
          (stringOf (Config.authType (config rest)) +:+ " " +:+
           currentToken rest) h1
    end = inr h2 /\
    match RequestOptions.reason opts with
    | Some reason =>
        if truthy reason
        then headersSet "X-Audit-Log-Reason" (encodeURIComponent reason) h2
        else inr h2
    | None => inr h2
    end = inr h3 /\
    match RequestOptions.headers opts with
    | Some entries => setAll entries h3
    | None => inr h3
    end = inr h.
Proof.
  unfold buildHeaders. intros Hb.
  destruct (headersSet "User-Agent" (userAgentOf rest) ∅) as [e|h1];
    [discriminate|].
  exists h1.
  match type of Hb with
  | match ?x with _ => _ end = _ => destruct x as [e|h2] eqn:H2; [discriminate|]
  end.
  exists h2.
  match type of Hb with
  | match ?x with _ => _ end = _ => destruct x as [e|h3] eqn:H3; [discriminate|]
  end.
  exists h3. repeat split; assumption.
Qed.

Lemma nat_of_ascii_eq c n :
  nat_of_ascii c = n -> c = ascii_of_nat n.
Proof. intros <-. now rewrite ascii_nat_embedding. Qed.

Lemma encoded_not_whitespace c :
  isEncoded c = true -> isHttpWhitespace c = false.
Proof.
  intros He. destruct (isHttpWhitespace c) eqn:Hw; [|reflexivity].
  unfold isHttpWhitespace in Hw.
  repeat (apply orb_prop in Hw as [Hw|Hw]);
    apply Nat.eqb_eq, nat_of_ascii_eq in Hw; subst c; discriminate He.
Qed.

Lemma stripStart_encoded s : allEncoded s = true -> stripStart s = s.
Proof.
  destruct s as [|c s]; [reflexivity|]. simpl. intros H.
  apply andb_prop in H as [Hc _]. now rewrite (encoded_not_whitespace c Hc).
Qed.

Lemma stripEnd_encoded s : allEncoded s = true -> stripEnd s = s.
Proof.
  induction s as [|c s IH]; [reflexivity|]. simpl. intros H.
  apply andb_prop in H as [Hc Hs]. rewrite (IH Hs).
  destruct s; [|reflexivity]. now rewrite (encoded_not_whitespace c Hc).
Qed.

Lemma normalizeValue_encoded s : allEncoded s = true -> normalizeValue s = s.
Proof.
  intros H. unfold normalizeValue. rewrite stripStart_encoded by assumption.
  now apply stripEnd_encoded.
Qed.

Lemma hexDigit_unreserved k : (k < 16)%nat -> isUnreserved (hexDigit k) = true.
Proof.
  intros Hk.
  do 16 (destruct k as [|k]; [reflexivity|]). lia.
Qed.

Lemma nat_of_ascii_bound c : (nat_of_ascii c < 256)%nat.
Proof. apply nat_ascii_bounded. Qed.

Lemma allEncoded_app s t :
  allEncoded s = true -> allEncoded t = true -> allEncoded (s +:+ t) = true.
Proof.
  intros Hs Ht. induction s as [|c s IH]; [exact Ht|].
  rewrite append_cons. simpl in *. apply andb_prop in Hs as [Hc Hs].
  now rewrite Hc, IH.
Qed.

Lemma allEncoded_percentEncode c : allEncoded (percentEncode c) = true.
Proof.
  unfold percentEncode. cbn [allEncoded].
  pose proof (nat_of_ascii_bound c) as Hb.
  unfold isEncoded at 2 3.
  rewrite !hexDigit_unreserved.
  - reflexivity.
  - apply Nat.mod_upper_bound. lia.
  - apply Nat.Div0.div_lt_upper_bound. lia.
Qed.

Lemma allEncoded_encodeURIComponent s : allEncoded (encodeURIComponent s) = true.
Proof.
  induction s as [|c s IH]; [reflexivity|]. simpl.
  destruct (isUnreserved c) eqn:Hc.
  - simpl. unfold isEncoded. now rewrite Hc, IH.
  - apply allEncoded_app; [apply allEncoded_percentEncode | exact IH].
Qed.

Lemma validValue_encoded s : allEncoded s = true -> validValue s = true.
Proof.
  induction s as [|c s IH]; [reflexivity|]. cbn [allEncoded validValue].
  intros H. apply andb_prop in H as [Hc Hs]. rewrite (IH Hs), andb_true_r.
  cbv zeta.
  destruct ((nat_of_ascii c =? 0)%nat || (nat_of_ascii c =? 10)%nat
            || (nat_of_ascii c =? 13)%nat) eqn:Hbad; [|reflexivity].
  repeat (apply orb_prop in Hbad as [Hbad|Hbad]);
    apply Nat.eqb_eq, nat_of_ascii_eq in Hbad; subst c; discriminate Hc.
Qed.

Lemma headersSet_encoded name s h :
  validName name = true -> allEncoded s = true ->
  headersSet name s h = inr (<[lowercase name := s]> h).
Proof.
  intros Hn Hs. unfold headersSet. cbv zeta.
  rewrite (normalizeValue_encoded s Hs), Hn, (validValue_encoded s Hs).
  reflexivity.
Qed.

End HeaderFacts.

(** X21.  Headers the caller supplies are merged last and win: when the
    headers are accepted, a header holds the value of the caller's last
    entry for that name, names compared without regard to case and the value
    without white space around it.  This goes for the authorization and user
    agent headers as well. *)
Theorem buildHeaders_custom_wins (rest : Rest) (opts : RequestOptions.t)
    (h : gmap string string)
    (name k v : string) (before after : list (string * string)) :
  buildHeaders rest opts = inr h ->
  RequestOptions.headers opts = Some (before ++ (k, v) :: after) ->
  unnamed k after ->
  lowercase name = lowercase k ->
  headersGet name h = Some (normalizeValue v).
Proof.
  intros Hb Hheaders Hun Hname.
  apply buildHeaders_inr in Hb as (h1 & h2 & h3 & _ & _ & _ & Hall).
  rewrite Hheaders in Hall.
  now apply (setAll_last name k v before after h3 h).
Qed.

Lemma buildHeaders_custom_wins_witness :
  let rest :=
    {| config :=
         mergeOptions DEFAULT_OPTIONS
           {| authType := Some (JsStr "Bearer"); version := None;
              userAgent := None; retries := None; timeout := None |};
       currentToken := "old";
       restBuckets := createBucketManager |} in
  let opts :=
    {| RequestOptions.body := None; RequestOptions.files := None;
       RequestOptions.query := None; RequestOptions.reason := None;
       RequestOptions.auth := None;
       RequestOptions.headers :=
         Some [("X-Trace", "1"); ("Authorization", " Bearer abc ")] |} in
  exists h,
    buildHeaders rest opts = inr h /\
    headersGet "authorization" h = Some "Bearer abc".
Proof.
  intros rest opts.
  assert (exists h, buildHeaders rest opts = inr h) as [h Hb]
    by (eexists; reflexivity).
  exists h. split; [exact Hb|].
  apply (buildHeaders_custom_wins rest opts h "authorization" "Authorization"
           " Bearer abc " [("X-Trace", "1")] [] Hb).
  - reflexivity.
  - constructor.
  - reflexivity.
Defined.

(** X22.  Unless the caller's own headers name it, the authorization header
    of accepted headers is absent exactly when the request says
    [auth: false]; otherwise it is the authentication scheme, a space and
    the current token, which after [setToken] is the new token. *)
Theorem buildHeaders_authorization (rest : Rest) (opts : RequestOptions.t)
    (newToken : string) (h : gmap string string) :
  notOverridden "Authorization" opts ->
  buildHeaders (setToken newToken rest) opts = inr h ->
  (RequestOptions.auth opts = Some false ->
   headersGet "Authorization" h = None) /\
  (RequestOptions.auth opts <> Some false ->
   headersGet "Authorization" h =
   Some (normalizeValue
           (stringOf (Config.authType (config rest)) +:+ " " +:+ newToken))).
Proof.
  intros Hno Hb.
  apply buildHeaders_inr in Hb as (h1 & h2 & h3 & H1 & H2 & H3 & Hall).
  cbn [setToken config currentToken] in H2.
  assert (headersGet "Authorization" h = headersGet "Authorization" h3)
    as Hcustom.
  { unfold notOverridden in Hno.
    destruct (RequestOptions.headers opts) as [entries|].
    - now apply (setAll_unnamed "Authorization" entries h3 h).
    - now injection Hall as <-. }
  assert (headersGet "Authorization" h3 = headersGet "Authorization" h2)
    as Hreason.
  { destruct (RequestOptions.reason opts) as [r|];
      [destruct (truthy r)|]; try (now injection H3 as <-).
    now apply (headersGet_set_other _ _ _ _ _ H3). }
  rewrite Hcustom, Hreason. split.
  - intros Hauth. rewrite Hauth in H2. injection H2 as <-.
    rewrite (headersGet_set_other _ "Authorization" _ _ _ H1)
      by discriminate.
    reflexivity.
  - intros Hauth.
    destruct (RequestOptions.auth opts) as [[|]|]; try congruence;
      now apply (headersGet_set_same _ _ _ _ _ H2).
Qed.

Lemma buildHeaders_authorization_witness :
  let rest :=
    {| config :=
         mergeOptions DEFAULT_OPTIONS
           {| authType := Some (JsStr "Bearer"); version := None;
              userAgent := None; retries := None; timeout := None |};
       currentToken := "old";
       restBuckets := createBucketManager |} in
  let opts :=
    {| RequestOptions.body := None; RequestOptions.files := None;
       RequestOptions.query := None; RequestOptions.reason := None;
       RequestOptions.auth := None; RequestOptions.headers := None |} in
  exists h,
    buildHeaders (setToken "new" rest) opts = inr h /\
    headersGet "Authorization" h = Some "Bearer new".
Proof.
  intros rest opts.
  assert (exists h, buildHeaders (setToken "new" rest) opts = inr h)
    as [h Hb] by (eexists; reflexivity).
  exists h. split; [exact Hb|].
  exact (proj2 (buildHeaders_authorization rest opts "new" h I Hb)
           ltac:(discriminate)).
Defined.

(** X23.  The audit-log reason never makes the headers fail: its
    percent-encoded form is made of unreserved characters, percent signs and
    upper-case hexadecimal digits only, so no line break or other control
    character of the reason reaches the header.  Unless the caller's own
    headers name it, the reason header of accepted headers is present
    exactly when a reason that is not empty was given, and its value is the
    percent-encoded reason. *)
Theorem buildHeaders_reason_encoded (rest : Rest) (opts : RequestOptions.t) :
  (forall reason h0,
      allEncoded (encodeURIComponent reason) = true /\
      headersSet "X-Audit-Log-Reason" (encodeURIComponent reason) h0 =
        inr (<[ "x-audit-log-reason" := encodeURIComponent reason ]> h0)) /\
  (notOverridden "X-Audit-Log-Reason" opts ->
   forall h, buildHeaders rest opts = inr h ->
     (forall reason,
         RequestOptions.reason opts = Some reason -> truthy reason = true ->
         headersGet "X-Audit-Log-Reason" h = Some (encodeURIComponent reason)) /\
     (RequestOptions.reason opts = None \/
      RequestOptions.reason opts = Some "" ->
      headersGet "X-Audit-Log-Reason" h = None)).
Proof.
  split.
  { intros reason h0. split; [apply allEncoded_encodeURIComponent|].
    apply (headersSet_encoded "X-Audit-Log-Reason");
      [reflexivity|apply allEncoded_encodeURIComponent]. }
  intros Hno h Hb.
  apply buildHeaders_inr in Hb as (h1 & h2 & h3 & H1 & H2 & H3 & Hall).
  assert (headersGet "X-Audit-Log-Reason" h =
          headersGet "X-Audit-Log-Reason" h3) as Hcustom.
  { unfold notOverridden in Hno.
    destruct (RequestOptions.headers opts) as [entries|].
    - now apply (setAll_unnamed "X-Audit-Log-Reason" entries h3 h).
    - now injection Hall as <-. }
  rewrite Hcustom. split.
  - intros reason Hr Ht. rewrite Hr, Ht in H3.
    rewrite (headersGet_set_same _ "X-Audit-Log-Reason" _ _ _ H3 eq_refl).
    f_equal. apply normalizeValue_encoded, allEncoded_encodeURIComponent.
  - intros Hr.
    assert (h3 = h2) as ->.
    { destruct Hr as [Hr|Hr]; rewrite Hr in H3; now injection H3 as <-. }
    assert (headersGet "X-Audit-Log-Reason" h2 =
            headersGet "X-Audit-Log-Reason" h1) as ->.
    { destruct (RequestOptions.auth opts) as [[|]|];
        try (now injection H2 as <-);
        now apply (headersGet_set_other _ _ _ _ _ H2). }
    rewrite (headersGet_set_other _ "X-Audit-Log-Reason" _ _ _ H1)
      by discriminate.
    reflexivity.
Qed.

Lemma buildHeaders_reason_encoded_witness :
  let rest :=
    {| config :=
         mergeOptions DEFAULT_OPTIONS
           {| authType := Some (JsStr "Bearer"); version := None;
              userAgent := None; retries := None; timeout := None |};
       currentToken := "old";
       restBuckets := createBucketManager |} in
  let opts :=
    {| RequestOptions.body := None; RequestOptions.files := None;
       RequestOptions.query := None;
       RequestOptions.reason := Some "spam & ads";
       RequestOptions.auth := None; RequestOptions.headers := None |} in
  exists h,
    buildHeaders rest opts = inr h /\
    headersGet "X-Audit-Log-Reason" h = Some "spam%20%26%20ads".
Proof.
  intros rest opts.
  assert (exists h, buildHeaders rest opts = inr h) as [h Hb]
    by (eexists; reflexivity).
  exists h. split; [exact Hb|].
  exact (proj1 (proj2 (buildHeaders_reason_encoded rest opts) I h Hb)
           "spam & ads" eq_refl eq_refl).
Defined.

(** X24.  A request with a JSON body and no files is sent with the content
    type [application/json], whatever content type the caller's own headers
    give: [buildBody] sets it after the caller's headers were merged. *)
Theorem requestHeaders_json_content_type (rest : Rest) (opts : RequestOptions.t)
    (b : BodyValue) (h : gmap string string) :
  requestHeaders rest opts = inr h ->
  hasFiles (RequestOptions.files opts) = false ->
  RequestOptions.body opts = Some b ->
  truthyBody b = true ->
  headersGet "Content-Type" h = Some "application/json".
Proof.
  intros Hr Hfiles Hbody Hb. unfold requestHeaders in Hr.
  destruct (buildHeaders rest opts) as [e|h0]; [discriminate|].
  rewrite Hfiles, Hbody, Hb in Hr.
  now apply (headersGet_set_same _ "Content-Type" _ _ _ Hr).
Qed.

Lemma requestHeaders_json_content_type_witness :
  let rest :=
    {| config :=
         mergeOptions DEFAULT_OPTIONS
           {| authType := Some (JsStr "Bearer"); version := None;
              userAgent := None; retries := None; timeout := None |};
       currentToken := "old";
       restBuckets := createBucketManager |} in
  let opts :=
    {| RequestOptions.body := Some (BodyObject "{}");
       RequestOptions.files := None;
       RequestOptions.query := None; RequestOptions.reason := None;
       RequestOptions.auth := None;
       RequestOptions.headers := Some [("content-type", "text/plain")] |} in
  exists h,
    requestHeaders rest opts = inr h /\
    headersGet "Content-Type" h = Some "application/json".
Proof.
  intros rest opts.
  assert (exists h, requestHeaders rest opts = inr h) as [h Hr]
    by (eexists; reflexivity).
  exists h. split; [exact Hr|].
  apply (requestHeaders_json_content_type rest opts (BodyObject "{}") h Hr);
    reflexivity.
Defined.

(** ** Snowflakes and avatar indexes *)

Section SnowflakeFacts.

Lemma land_field_shiftr (z : Z) (k n : Z) :
  0 <= k -> 0 <= n ->
  Z.shiftr (Z.land z (Z.shiftl (Z.ones k) n)) n = (z / 2 ^ n) mod 2 ^ k.
Proof.
  intros Hk Hn.
  rewrite Z.shiftr_land, Z.shiftr_shiftl_l by assumption.
  rewrite Z.sub_diag, Z.shiftl_0_r, Z.land_ones by assumption.
  rewrite Z.shiftr_div_pow2 by assumption. reflexivity.
Qed.

Lemma workerId_value (z : Z) :
  Z.shiftr (Z.land z 0x3e0000) 17 = (z / 131072) mod 32.
Proof. exact (land_field_shiftr z 5 17 ltac:(lia) ltac:(lia)). Qed.

Lemma processId_value (z : Z) :
  Z.shiftr (Z.land z 0x1f000) 12 = (z / 4096) mod 32.
Proof. exact (land_field_shiftr z 5 12 ltac:(lia) ltac:(lia)). Qed.

Lemma increment_value (z : Z) : Z.land z 0xfff = z mod 4096.
Proof. exact (Z.land_ones z 12 ltac:(lia)). Qed.

Lemma timestamp_value (z : Z) : Z.shiftr z 22 = z / 4194304.
Proof. exact (Z.shiftr_div_pow2 z 22 ltac:(lia)). Qed.

Lemma shiftl_22_value (z : Z) : Z.shiftl z 22 = z * 4194304.
Proof. exact (Z.shiftl_mul_pow2 z 22 ltac:(lia)). Qed.

Lemma readsBigInts_decimal :
  readsBigInts (fun s => Z.of_int <$> DecimalString.NilEmpty.int_of_string s).
Proof.
  intros z. unfold showBigInt.
  rewrite DecimalString.NilEmpty.isi. simpl. f_equal. apply DecimalZ.of_to.
Qed.

Lemma digitsValueFrom_bounds (s : string) :
  allDigits s = true ->
  forall acc, 0 <= acc ->
    acc * 10 ^ Z.of_nat (String.length s) <= digitsValueFrom acc s
    /\ digitsValueFrom acc s < (acc + 1) * 10 ^ Z.of_nat (String.length s).
Proof.
  induction s as [|c rest IH]; intros Hd acc Hacc.
  - simpl. lia.
  - cbn [allDigits] in Hd. apply andb_true_iff in Hd as [Hc Hrest].
    unfold isDigit in Hc. cbv zeta in Hc.
    apply andb_true_iff in Hc as [Hlo Hhi].
    apply Nat.leb_le in Hlo, Hhi.
    cbn [digitsValueFrom String.length].
    set (d := Z.of_nat (nat_of_ascii c) - 48) in *.
    assert (Hdr : 0 <= d <= 9) by (unfold d; lia).
    destruct (IH Hrest (10 * acc + d) ltac:(lia)) as [Hl Hu].
    rewrite Nat2Z.inj_succ, Z.pow_succ_r by lia.
    assert (Hp : 0 < 10 ^ Z.of_nat (String.length rest))
      by (apply Z.pow_pos_nonneg; lia).
    split; nia.
Qed.

Lemma digitsValue_bounds (s : string) :
  allDigits s = true ->
  0 <= digitsValue s < 10 ^ Z.of_nat (String.length s).
Proof.
  intros Hd. destruct (digitsValueFrom_bounds s Hd 0 ltac:(lia)) as [Hl Hu].
  unfold digitsValue. lia.
Qed.

Lemma readsDigits_value : readsDigits (fun s => Some (digitsValue s)).
Proof. intros s _ _. reflexivity. Qed.

End SnowflakeFacts.

(** X25.  The four fields of a snowflake determine it: the identifier is the
    milliseconds since the Discord epoch in the bits from 22 up, the worker
    and the process in five bits each, and the increment in the low twelve;
    the worker and the process are below 32 and the increment below 4096. *)
Theorem snowflake_fields_recompose (BigInt : string -> option Z)
    (snowflake : SnowflakeLike) (id : Z) :
  toBigInt BigInt snowflake = Some id ->
  exists timestamp workerId processId increment,
    getTimestamp BigInt snowflake = Some timestamp
    /\ getWorkerId BigInt snowflake = Some workerId
    /\ getProcessId BigInt snowflake = Some processId
    /\ getIncrement BigInt snowflake = Some increment
    /\ id = (timestamp - DISCORD_EPOCH) * 4194304
            + workerId * 131072 + processId * 4096 + increment
    /\ 0 <= workerId < 32
    /\ 0 <= processId < 32
    /\ 0 <= increment < 4096.
Proof.
  intros Hid.
  exists (Z.shiftr id 22 + DISCORD_EPOCH), (Z.shiftr (Z.land id 0x3e0000) 17),
    (Z.shiftr (Z.land id 0x1f000) 12), (Z.land id 0xfff).
  unfold getTimestamp, getWorkerId, getProcessId, getIncrement.
  rewrite Hid. cbn [fmap option_fmap option_map].
  do 4 (split; [reflexivity|]).
  rewrite workerId_value, processId_value, increment_value, timestamp_value.
  pose proof (Z.div_mod id 4194304 ltac:(lia)) as H22.
  pose proof (Z.mod_pos_bound id 4194304 ltac:(lia)) as B22.
  pose proof (Z.mod_pos_bound (id / 131072) 32 ltac:(lia)) as Bw.
  pose proof (Z.mod_pos_bound (id / 4096) 32 ltac:(lia)) as Bp.
  pose proof (Z.mod_pos_bound id 4096 ltac:(lia)) as Bi.
  repeat split; try lia.
  Z.div_mod_to_equations. lia.
Qed.

Lemma snowflake_fields_recompose_witness :
  exists timestamp workerId processId increment,
    getTimestamp (fun _ => None) (AsBigInt 175928847299117063) = Some timestamp
    /\ getWorkerId (fun _ => None) (AsBigInt 175928847299117063)
       = Some workerId
    /\ getProcessId (fun _ => None) (AsBigInt 175928847299117063)
       = Some processId
    /\ getIncrement (fun _ => None) (AsBigInt 175928847299117063)
       = Some increment
    /\ 175928847299117063 = (timestamp - DISCORD_EPOCH) * 4194304
            + workerId * 131072 + processId * 4096 + increment
    /\ 0 <= workerId < 32
    /\ 0 <= processId < 32
    /\ 0 <= increment < 4096.
Proof.
  exact (snowflake_fields_recompose (fun _ => None)
           (AsBigInt 175928847299117063) 175928847299117063 eq_refl).
Defined.

(** X26.  On a platform whose [BigInt] reads the decimal strings it prints, the
    snowflake made from a millisecond timestamp has that timestamp, worker,
    process and increment zero, and is the least identifier with that
    timestamp. *)
Theorem fromTimestamp_round_trip (BigInt : string -> option Z) (ms : Z) :
  readsBigInts BigInt ->
  getTimestamp BigInt (AsString (fromTimestamp ms)) = Some ms
  /\ getWorkerId BigInt (AsString (fromTimestamp ms)) = Some 0
  /\ getProcessId BigInt (AsString (fromTimestamp ms)) = Some 0
  /\ getIncrement BigInt (AsString (fromTimestamp ms)) = Some 0
  /\ forall id, getTimestamp BigInt (AsBigInt id) = Some ms ->
       isNewerThan BigInt (AsString (fromTimestamp ms)) (AsBigInt id)
       = Some false.
Proof.
  intros Hread.
  unfold isNewerThan, compare, getTimestamp, getWorkerId, getProcessId,
    getIncrement, toBigInt, fromTimestamp.
  rewrite Hread. cbn [fmap option_fmap option_map].
  rewrite workerId_value, processId_value, increment_value, !timestamp_value,
    shiftl_22_value.
  set (t := ms - DISCORD_EPOCH).
  split; [f_equal; unfold t; Z.div_mod_to_equations; lia|].
  split; [f_equal; Z.div_mod_to_equations; lia|].
  split; [f_equal; Z.div_mod_to_equations; lia|].
  split; [f_equal; Z.div_mod_to_equations; lia|].
  intros id Hid. injection Hid as Hid. rewrite timestamp_value in Hid.
  assert (Hle : t * 4194304 <= id)
    by (unfold t; Z.div_mod_to_equations; lia).
  rewrite Z.gtb_ltb.
  destruct (Z.ltb_spec (t * 4194304) id) as [Hlt|Hge]; [reflexivity|].
  destruct (Z.ltb_spec id (t * 4194304)) as [Hlt'|Hge']; [lia|reflexivity].
Qed.

Lemma fromTimestamp_round_trip_witness :
  fromTimestamp 1462015105796 = "175928847298985984"
  /\ getTimestamp (fun s => Z.of_int <$> DecimalString.NilEmpty.int_of_string s)
       (AsString (fromTimestamp 1462015105796)) = Some 1462015105796.
Proof.
  split; [reflexivity|].
  exact (proj1 (fromTimestamp_round_trip _ 1462015105796 readsBigInts_decimal)).
Defined.

(** X27.  Snowflakes that can be read are totally ordered by [compare], which is
    antisymmetric and returns 0 for equal identifiers only; the order refines
    the order of the timestamps, and [isNewerThan] is [isOlderThan] with the
    arguments exchanged. *)
Theorem compare_orders_by_age (BigInt : string -> option Z)
    (a b : SnowflakeLike) (idA idB : Z) :
  toBigInt BigInt a = Some idA ->
  toBigInt BigInt b = Some idB ->
  exists c timeA timeB,
    compare BigInt a b = Some c
    /\ compare BigInt b a = Some (- c)
    /\ (c = -1 \/ c = 0 \/ c = 1)
    /\ (c = 0 <-> idA = idB)
    /\ getTimestamp BigInt a = Some timeA
    /\ getTimestamp BigInt b = Some timeB
    /\ (timeA < timeB -> isOlderThan BigInt a b = Some true)
    /\ (isOlderThan BigInt a b = Some true -> timeA <= timeB)
    /\ isNewerThan BigInt b a = isOlderThan BigInt a b.
Proof.
  intros Ha Hb.
  unfold isOlderThan, isNewerThan, compare, getTimestamp.
  rewrite Ha, Hb. cbn [fmap option_fmap option_map].
  rewrite !timestamp_value.
  pose proof (Z.div_le_mono idA idB 4194304 ltac:(lia)) as Hmono.
  pose proof (Z.div_le_mono idB idA 4194304 ltac:(lia)) as Hmono'.
  rewrite !Z.gtb_ltb.
  destruct (Z.ltb_spec idA idB) as [Hlt|Hge];
    destruct (Z.ltb_spec idB idA) as [Hlt'|Hge']; try lia.
  - exists (-1), (idA / 4194304 + DISCORD_EPOCH), (idB / 4194304 + DISCORD_EPOCH).
    cbn [fmap option_fmap option_map]. repeat split; try reflexivity; try lia.
  - exists 1, (idA / 4194304 + DISCORD_EPOCH), (idB / 4194304 + DISCORD_EPOCH).
    cbn [fmap option_fmap option_map].
    repeat split; try reflexivity; try lia; try discriminate.
  - exists 0, (idA / 4194304 + DISCORD_EPOCH), (idB / 4194304 + DISCORD_EPOCH).
    cbn [fmap option_fmap option_map].
    repeat split; try reflexivity; try lia; try discriminate.
Qed.

Lemma compare_orders_by_age_witness :
  exists c,
    compare (fun s => Some (digitsValue s))
      (AsString "175928847299117063") (AsBigInt 175928847303311367) = Some c
    /\ compare (fun s => Some (digitsValue s))
         (AsBigInt 175928847303311367) (AsString "175928847299117063")
       = Some (- c)
    /\ isOlderThan (fun s => Some (digitsValue s))
         (AsString "175928847299117063") (AsBigInt 175928847303311367)
       = Some true
    /\ isNewerThan (fun s => Some (digitsValue s))
         (AsBigInt 175928847303311367) (AsString "175928847299117063")
       = Some true.
Proof.
  destruct (compare_orders_by_age (fun s => Some (digitsValue s))
              (AsString "175928847299117063") (AsBigInt 175928847303311367)
              175928847299117063 175928847303311367 eq_refl eq_refl)
    as (c & timeA & timeB & Hc & Hc' & _ & _ & HA & HB & Hold & _ & Hnew).
  exists c. split; [exact Hc|]. split; [exact Hc'|].
  assert (Hlt : timeA < timeB).
  { vm_compute in HA, HB. injection HA as <-. injection HB as <-.
    reflexivity. }
  split; [exact (Hold Hlt)|]. rewrite Hnew. exact (Hold Hlt).
Defined.

(** X28.  On a platform whose [BigInt] reads decimal digits, [isSnowflake] accepts
    exactly the strings of 17 to 20 decimal digits whose value is below
    2^64; every string of 17 to 19 digits is accepted, leading zeros
    included. *)
Theorem isSnowflake_accepts (BigInt : string -> option Z) (value : string) :
  readsDigits BigInt ->
  (isSnowflake BigInt value = true <->
     allDigits value = true
     /\ (17 <= String.length value <= 20)%nat
     /\ digitsValue value < 2 ^ 64)
  /\ (allDigits value = true -> (17 <= String.length value <= 19)%nat ->
      isSnowflake BigInt value = true).
Proof.
  intros Hread.
  assert (Hiff : isSnowflake BigInt value = true <->
     allDigits value = true
     /\ (17 <= String.length value <= 20)%nat
     /\ digitsValue value < 2 ^ 64).
  { unfold isSnowflake, looksLikeSnowflake.
    destruct (allDigits value) eqn:Hd; cbn [andb negb].
    - destruct (Nat.leb_spec 17 (String.length value)) as [Hlo|Hlo];
        cbn [andb negb].
      + destruct (Nat.leb_spec (String.length value) 20) as [Hhi|Hhi];
          cbn [andb negb].
        * assert (Hne : value <> "")
            by (intros ->; simpl in Hlo; lia).
          rewrite (Hread value Hne Hd).
          pose proof (digitsValue_bounds value Hd) as [Hnn _].
          rewrite andb_true_iff, Z.geb_le, Z.leb_le.
          change (2 ^ 64) with 18446744073709551616.
          change 0xffffffffffffffff with 18446744073709551615.
          split; [intros [_ H]|intros (_ & _ & H)]; repeat split; lia.
        * split; [discriminate|intros (_ & H & _); lia].
      + split; [discriminate|intros (_ & H & _); lia].
    - split; [discriminate|intros (H & _); discriminate]. }
  split; [exact Hiff|].
  intros Hd Hlen. apply Hiff. split; [exact Hd|]. split; [lia|].
  pose proof (digitsValue_bounds value Hd) as [_ Hub].
  eapply Z.lt_le_trans; [exact Hub|].
  apply Z.le_trans with (10 ^ 19); [|vm_compute; discriminate].
  apply Z.pow_le_mono_r; lia.
Qed.

Lemma isSnowflake_accepts_witness :
  isSnowflake (fun s => Some (digitsValue s)) "00000000000000001" = true
  /\ isSnowflake (fun s => Some (digitsValue s)) "18446744073709551616"
     = false.
Proof.
  split.
  - apply (proj2 (isSnowflake_accepts (fun s => Some (digitsValue s))
                    "00000000000000001" readsDigits_value)).
    + reflexivity.
    + simpl. lia.
  - destruct (isSnowflake (fun s => Some (digitsValue s))
                "18446744073709551616") eqn:H; [|reflexivity].
    apply (proj1 (isSnowflake_accepts (fun s => Some (digitsValue s))
                    "18446744073709551616" readsDigits_value)) in H.
    destruct H as (_ & _ & H). vm_compute in H. discriminate H.
Defined.

(** X29.  The default avatar of a user whose identifier is not negative is one of
    six, chosen by the milliseconds between the Discord epoch and the
    creation of the account, modulo 6; a negative identifier gives an index
    that is not positive. *)
Theorem defaultAvatarIndex_by_creation_time (BigInt : string -> option Z)
    (userId : string) (id : Z) :
  BigInt userId = Some id ->
  exists index created,
    defaultAvatarIndex BigInt userId = Some index
    /\ getTimestamp BigInt (AsString userId) = Some created
    /\ (0 <= id -> 0 <= index < 6
                   /\ index = (created - DISCORD_EPOCH) mod 6)
    /\ (id < 0 -> -6 < index <= 0).
Proof.
  intros Hid.
  exists (Z.rem (Z.shiftr id 22) 6), (Z.shiftr id 22 + DISCORD_EPOCH).
  unfold defaultAvatarIndex, getTimestamp, toBigInt.
  rewrite Hid. cbn [fmap option_fmap option_map].
  do 2 (split; [reflexivity|]).
  rewrite timestamp_value.
  split.
  - intros Hnn.
    assert (Hq : 0 <= id / 4194304) by (apply Z.div_pos; lia).
    rewrite Z.rem_mod_nonneg by lia.
    replace (id / 4194304 + DISCORD_EPOCH - DISCORD_EPOCH)
      with (id / 4194304) by lia.
    split; [apply Z.mod_pos_bound; lia|reflexivity].
  - intros Hneg.
    assert (Hq : id / 4194304 < 0) by (apply Z.div_lt_upper_bound; lia).
    pose proof (Z.rem_bound_pos_neg (id / 4194304) 6 ltac:(lia) ltac:(lia))
      as Hb.
    lia.
Qed.

Lemma defaultAvatarIndex_by_creation_time_witness :
  exists index created,
    defaultAvatarIndex (fun s => Some (digitsValue s)) "175928847299117063"
    = Some index
    /\ getTimestamp (fun s => Some (digitsValue s))
         (AsString "175928847299117063") = Some created
    /\ 0 <= index < 6
    /\ index = (created - DISCORD_EPOCH) mod 6.
Proof.
  destruct (defaultAvatarIndex_by_creation_time
              (fun s => Some (digitsValue s))
              "175928847299117063" 175928847299117063 eq_refl)
    as (index & created & Hindex & Hcreated & Hpos & _).
  exists index, created. split; [exact Hindex|]. split; [exact Hcreated|].
  apply Hpos. lia.
Defined.
